(** * NetBox DCIM views: pattern expansion, port provisioning, connections

    A shallow embedding of the algorithmic core of [netbox/dcim/views.py]:
    the name-pattern expander, the related-device heuristic of the device
    view, the port creation views, the point-to-point connect/disconnect
    views and the connection listings.

    Conventions of the embedding:
    - A Python string is a [string] whose characters are the code points
      below 256 (Latin-1); a name with any other character is outside the
      embedding.  [\d], [[0-9]] and [[a-z]] are the ASCII classes (the
      patterns are compiled without [re.UNICODE]), and [lower] is the
      lower-casing of unicode strings on these characters.
    - A generator is modelled by the sequence it has yielded together with
      the exception, if any, that ended the iteration.
    - Database tables are finite maps from primary keys to rows. *)

From Stdlib Require Import String Ascii NArith DecimalString DecimalPos DecimalN.
From stdpp Require Import gmap strings list fin_maps sorting.

(** ** Exceptions raised by the view code *)

Inductive exn := ValueError | AttributeError | IntegrityError.

(** ** A backtracking matcher for the [re] patterns of the module

    Every pattern of the module is a sequence of single-character classes
    under a quantifier, one capture group and possibly a final [$].  The
    matcher tries alternatives in Python's priority order: a greedy
    quantifier tries the longest repetition first, a lazy one the
    shortest. *)

Module Re.

Inductive cclass :=
| Dot                 (* [.]     : any character but a newline *)
| Digit               (* [\d], [[0-9]] *)
| Lower               (* [[a-z]] *)
| Lit (a : ascii).    (* an escaped or plain literal character *)

Inductive quant :=
| One                 (* no quantifier *)
| Plus                (* [+]  *)
| Star                (* [*]  *)
| StarLazy.           (* [*?] *)

Inductive item :=
| Rep (c : cclass) (q : quant)
| GOpen               (* [(] *)
| GClose              (* [)] *)
| Eol.                (* [$] *)

Definition regex := list item.

Definition newline : ascii := "010"%char.

Definition is_digit (a : ascii) : bool :=
  (48 <=? N_of_ascii a)%N && (N_of_ascii a <=? 57)%N.

Definition is_lower (a : ascii) : bool :=
  (97 <=? N_of_ascii a)%N && (N_of_ascii a <=? 122)%N.

Definition cmatch (c : cclass) (a : ascii) : bool :=
  match c with
  | Dot => negb (Ascii.eqb a newline)
  | Digit => is_digit a
  | Lower => is_lower a
  | Lit b => Ascii.eqb a b
  end.

(** A match in progress: the subject suffix at which group 1 was opened
    and closed, and the suffix left after the match. *)
Record mstate := MState {
  g_open : option string;
  g_close : option string;
  m_end : string
}.

(** [$] without [re.MULTILINE]: at the end of the subject, or just before
    a newline that is its last character. *)
Definition at_eol (s : string) : bool :=
  match s with
  | "" => true
  | String a "" => Ascii.eqb a newline
  | _ => false
  end.

Section Repetition.
Context {R : Type} (c : cclass) (k : string -> option R).

(** [c*] followed by [k]: as many characters as possible first. *)
Fixpoint greedy (s : string) : option R :=
  match s with
  | String a s' =>
      if cmatch c a then
        match greedy s' with
        | Some r => Some r
        | None => k s
        end
      else k s
  | "" => k s
  end.

(** [c*?] followed by [k]: as few characters as possible first. *)
Fixpoint lazy (s : string) : option R :=
  match k s with
  | Some r => Some r
  | None =>
      match s with
      | String a s' => if cmatch c a then lazy s' else None
      | "" => None
      end
  end.

(** exactly one character of the class, then [k] *)
Definition one (k' : string -> option R) (s : string) : option R :=
  match s with
  | String a s' => if cmatch c a then k' s' else None
  | "" => None
  end.
End Repetition.

(** Match [re] at the start of [s]; [go], [gc] are the group marks so far. *)
Fixpoint rmatch (re : regex) (go gc : option string) (s : string)
  : option mstate :=
  match re with
  | [] => Some (MState go gc s)
  | GOpen :: re' => rmatch re' (Some s) gc s
  | GClose :: re' => rmatch re' go (Some s) s
  | Eol :: re' => if at_eol s then rmatch re' go gc s else None
  | Rep c One :: re' => one c (rmatch re' go gc) s
  | Rep c Plus :: re' => one c (greedy c (rmatch re' go gc)) s
  | Rep c Star :: re' => greedy c (rmatch re' go gc) s
  | Rep c StarLazy :: re' => lazy c (rmatch re' go gc) s
  end.

(** [re.match(pattern, s)] *)
Definition re_match (re : regex) (s : string) : option mstate :=
  rmatch re None None s.

(** The text between two suffixes [so] and [sc] of the subject. *)
Definition between (so sc : string) : string :=
  substring 0 (String.length so - String.length sc) so.

(** [m.group(1)] *)
Definition group1 (m : mstate) : option string :=
  match g_open m, g_close m with
  | Some so, Some sc => Some (between so sc)
  | _, _ => None
  end.

(** [re.search(pattern, s)]: the leftmost match, with the text before it. *)
Fixpoint re_search (re : regex) (s : string) : option (string * mstate) :=
  match re_match re s with
  | Some m => Some ("", m)
  | None =>
      match s with
      | "" => None
      | String a s' =>
          match re_search re s' with
          | Some (lead, m) => Some (String a lead, m)
          | None => None
          end
      end
  end.

(** [re.split(pattern, s, maxsplit=1)] for a pattern that cannot match the
    empty string and whose group takes part in every match:
    [[before, group 1, after]] at the leftmost match, [[s]] when there is
    none. *)
Definition re_split1 (re : regex) (s : string) : list string :=
  match re_search re s with
  | Some (lead, m) =>
      match group1 m with
      | Some g => [lead; g; m_end m]
      | None => [lead; m_end m]
      end
  | None => [s]
  end.

(** every character of [s] is in the class [c] *)
Fixpoint all_in (c : cclass) (s : string) : bool :=
  match s with
  | "" => true
  | String a s' => cmatch c a && all_in c s'
  end.


(** a repetition of [c] cannot be extended into [s] *)
Definition stops (c : cclass) (s : string) : bool :=
  match s with
  | "" => true
  | String a _ => negb (cmatch c a)
  end.

(** [a] does not occur in [s] *)
Fixpoint lacks (a : ascii) (s : string) : bool :=
  match s with
  | "" => true
  | String b s' => negb (Ascii.eqb b a) && lacks a s'
  end.

End Re.

(** ** Built-ins used by the expander *)

(** [s.split(sep)] for a one-character separator *)
Fixpoint str_split (sep : ascii) (s : string) : list string :=
  match s with
  | "" => [""]
  | String a s' =>
      if Ascii.eqb a sep then "" :: str_split sep s'
      else match str_split sep s' with
           | h :: t => String a h :: t
           | [] => [String a ""]
           end
  end.

Fixpoint int_acc (acc : N) (s : string) : option N :=
  match s with
  | "" => Some acc
  | String a s' =>
      if Re.is_digit a then int_acc (10 * acc + (N_of_ascii a - 48))%N s'
      else None
  end.

(** [int(s)] on a string of decimal digits; anything else is a
    [ValueError], here [None].  The expander only applies it to text
    matched by [\d+]. *)
Definition int (s : string) : option N :=
  match s with
  | "" => None
  | _ => int_acc 0 s
  end.

(** [str(i)] / [format] of a non-negative integer *)
Definition str (i : N) : string := NilEmpty.string_of_uint (N.to_uint i).

(** [range(lo, stop)] *)
Definition range (lo stop : N) : list N :=
  (fun k => (lo + N.of_nat k)%N) <$> seq 0 (N.to_nat (stop - lo)).

(** ** Generators *)

Record gen := Gen {
  yielded : list string;
  raised : option exn
}.

Definition gen_raise (e : exn) : gen := Gen [] (Some e).

(** [for i in l: body(i)] inside a generator: the first exception stops
    the loop. *)
Fixpoint gen_for {A} (l : list A) (body : A -> gen) : gen :=
  match l with
  | [] => Gen [] None
  | i :: l' =>
      match raised (body i) with
      | Some e => body i
      | None =>
          let rest := gen_for l' body in
          Gen (yielded (body i) ++ yielded rest) (raised rest)
      end
  end.

(** [for x in g: yield f(x)] *)
Definition gen_map (f : string -> string) (g : gen) : gen :=
  Gen (f <$> yielded g) (raised g).

(** ** The pattern expander *)

(** [EXPANSION_PATTERN = '\[(\d+-\d+)\]'] *)
Definition EXPANSION_PATTERN : Re.regex :=
  [Re.Rep (Re.Lit "[") Re.One; Re.GOpen;
   Re.Rep Re.Digit Re.Plus; Re.Rep (Re.Lit "-") Re.One; Re.Rep Re.Digit Re.Plus;
   Re.GClose; Re.Rep (Re.Lit "]") Re.One].

(** The body of [expand_pattern], with the recursive call on the remnant
    bounded by [fuel]; [None] means the bound was reached. *)
Fixpoint expand_fuel (fuel : nat) (string : string) : option gen :=
  match fuel with
  | O => None
  | S fuel' =>
      match Re.re_split1 EXPANSION_PATTERN string with
      | [lead; pattern; remnant] =>
          match str_split "-" pattern with
          | [x; y] =>
              match int x, int y with
              | Some x, Some y =>
                  if decide (remnant = "") then
                    Some (gen_for (range x (y + 1))
                            (fun i => Gen [lead +:+ str i] None))
                  else
                    sub ← expand_fuel fuel' remnant;
                    Some (gen_for (range x (y + 1))
                            (fun i => gen_map (fun string => lead +:+ str i +:+ string) sub))
              | _, _ => Some (gen_raise ValueError)
              end
          | _ => Some (gen_raise ValueError)
          end
      | _ => Some (gen_raise ValueError)
      end
  end.

Definition expand_pattern (string : string) : option gen :=
  expand_fuel (S (String.length string)) string.

(** ** Templates: the shape of the strings the expander accepts *)

(** [s] is matched by [\d+] as a whole *)
Definition digits (s : string) : Prop := s <> "" /\ Re.all_in Re.Digit s.

(** the text of a bracket expression [[x-y]] *)
Definition bracket (x y : string) : string :=
  "[" +:+ x +:+ "-" +:+ y +:+ "]".

#[global] Arguments bracket : simpl never.


(** One bracketed range of a template together with the text before it:
    the bounds as they are written ([seg_x], [seg_y]) and their values. *)
Record segment := Segment {
  seg_lead : string;
  seg_x : string;
  seg_y : string;
  seg_lo : N;
  seg_hi : N
}.

Definition valid_segment (g : segment) : Prop :=
  Re.re_search EXPANSION_PATTERN (seg_lead g) = None /\
  int (seg_x g) = Some (seg_lo g) /\
  int (seg_y g) = Some (seg_hi g) /\
  (seg_lo g <= seg_hi g)%N.

(** The template made of the segments; it ends with its last bracket. *)
Fixpoint template (segs : list segment) : string :=
  match segs with
  | [] => ""
  | g :: segs' => seg_lead g +:+ bracket (seg_x g) (seg_y g) +:+ template segs'
  end.

(** The expansion in the words of the specification: nested loops over
    the ranges in ascending order, the outermost range varying slowest. *)
Fixpoint nested_loops (segs : list segment) : list string :=
  match segs with
  | [] => [""]
  | g :: segs' =>
      i ← range (seg_lo g) (seg_hi g + 1);
      (fun suffix => seg_lead g +:+ str i +:+ suffix) <$> nested_loops segs'
  end.

(** [hi - lo + 1] values per range, multiplied across the ranges *)
Definition expansion_count (segs : list segment) : nat :=
  foldr (fun g n => N.to_nat (seg_hi g - seg_lo g + 1) * n) 1 segs.

(** ** The related-device heuristic of the [device] view *)

(** The value of a computation that may raise. *)
Inductive result (A : Type) :=
| Ok (a : A)
| Raise (e : exn).
Arguments Ok {A} a.
Arguments Raise {A} e.

(** a capital letter among the code points below 256: the letters [A] to
    [Z] and the letters U+00C0 to U+00DE, the multiplication sign U+00D7
    apart *)
Definition is_upper (a : ascii) : bool :=
  let n := N_of_ascii a in
  ((65 <=? n)%N && (n <=? 90)%N) ||
  ((192 <=? n)%N && (n <=? 222)%N && negb (n =? 215)%N).

(** each of these capital letters has its small letter 32 code points
    above it; every other character is its own lower case *)
Definition lower_char (a : ascii) : ascii :=
  if is_upper a then ascii_of_N (N_of_ascii a + 32) else a.

(** [s.lower()] on a unicode string, character by character *)
Fixpoint lower (s : string) : string :=
  match s with
  | "" => ""
  | String a s' => String (lower_char a) (lower s')
  end.

(** ['.+[0-9]+$'] *)
Definition RE_ENDS_IN_DIGITS : Re.regex :=
  [Re.Rep Re.Dot Re.Plus; Re.Rep Re.Digit Re.Plus; Re.Eol].

(** ['(.*?)[0-9]+$'] *)
Definition RE_STRIP_DIGITS : Re.regex :=
  [Re.GOpen; Re.Rep Re.Dot Re.StarLazy; Re.GClose;
   Re.Rep Re.Digit Re.Plus; Re.Eol].

(** ['.+\d[a-z]+$'] *)
Definition RE_ENDS_IN_LETTERS : Re.regex :=
  [Re.Rep Re.Dot Re.Plus; Re.Rep Re.Digit Re.One; Re.Rep Re.Lower Re.Plus;
   Re.Eol].

(** ['(.*\d+)[a-z]$'] *)
Definition RE_STRIP_LETTER : Re.regex :=
  [Re.GOpen; Re.Rep Re.Dot Re.Star; Re.Rep Re.Digit Re.Plus; Re.GClose;
   Re.Rep Re.Lower Re.One; Re.Eol].

(** [re.match(pattern, s).group(1)]: an [AttributeError] when there is no
    match, since [None] has no [group]. *)
Definition match_group1 (re : Re.regex) (s : string) : result (option string) :=
  match Re.re_match re s with
  | Some m => Ok (Re.group1 m)
  | None => Raise AttributeError
  end.

(** The computation of [base_name] from a non-empty [device.name]. *)
Definition base_name (name : string) : result (option string) :=
  if Re.re_match RE_ENDS_IN_DIGITS name is Some _ then
    (* Strip 1 or more trailing digits (e.g. core-switch1) *)
    match_group1 RE_STRIP_DIGITS name
  else if Re.re_match RE_ENDS_IN_LETTERS (lower name) is Some _ then
    (* Strip a trailing letter if preceded by a digit *)
    match_group1 RE_STRIP_LETTER (lower name)
  else Ok None.

(** Words of the specification of the heuristic. *)

(** the last character of [s] satisfies [f] *)
Fixpoint ends_with (f : ascii -> bool) (s : string) : bool :=
  match s with
  | "" => false
  | String a "" => f a
  | String _ s' => ends_with f s'
  end.

(** [s] holds no line break *)
Definition no_newline (s : string) : Prop := Re.all_in Re.Dot s.

(** an ASCII letter of either case *)
Definition is_letter (a : ascii) : bool := Re.is_lower (lower_char a).

(** ** The object store

    One table per model, keyed by primary key.  A console port and a
    power port have the same shape: the device, the name, the reference to
    the partner ([cs_port] of a console port, [power_outlet] of a power
    port) and the connection status.  Their partners, the console server
    ports and the power outlets, hold no reference: the port connected to
    one of them is found by following the references backwards. *)

Inductive status := Planned | Connected.

Record Device := { dev_name : option string }.

Record Port := {
  port_device : nat;
  port_name : string;
  partner : option nat;
  connection_status : option status
}.

Record Outlet := {
  outlet_device : nat;
  outlet_name : string
}.

Record Interface := {
  iface_device : nat;
  iface_name : string;
  form_factor : nat;
  mgmt_only : bool;
  description : string
}.

Record InterfaceConnection := {
  interface_a : nat;
  interface_b : nat;
  ic_connection_status : option status
}.

Record Store := {
  devices : gmap nat Device;
  console_ports : gmap nat Port;
  cs_ports : gmap nat Outlet;
  power_ports : gmap nat Port;
  power_outlets : gmap nat Outlet;
  interfaces : gmap nat Interface;
  interface_connections : gmap nat InterfaceConnection
}.

(** The two point-to-point connection kinds. *)
Inductive p2p := Console | Power.

(** [ConsolePort.objects] / [PowerPort.objects] *)
Definition ports (k : p2p) (s : Store) : gmap nat Port :=
  match k with
  | Console => console_ports s
  | Power => power_ports s
  end.

(** [ConsoleServerPort.objects] / [PowerOutlet.objects] *)
Definition outlets (k : p2p) (s : Store) : gmap nat Outlet :=
  match k with
  | Console => cs_ports s
  | Power => power_outlets s
  end.

Definition set_ports (k : p2p) (tbl : gmap nat Port) (s : Store) : Store :=
  match k with
  | Console =>
      {| devices := devices s; console_ports := tbl; cs_ports := cs_ports s;
         power_ports := power_ports s; power_outlets := power_outlets s;
         interfaces := interfaces s;
         interface_connections := interface_connections s |}
  | Power =>
      {| devices := devices s; console_ports := console_ports s;
         cs_ports := cs_ports s; power_ports := tbl;
         power_outlets := power_outlets s; interfaces := interfaces s;
         interface_connections := interface_connections s |}
  end.

Definition set_interfaces (tbl : gmap nat Interface) (s : Store) : Store :=
  {| devices := devices s; console_ports := console_ports s;
     cs_ports := cs_ports s; power_ports := power_ports s;
     power_outlets := power_outlets s; interfaces := tbl;
     interface_connections := interface_connections s |}.

(** the row of a port as an [UPDATE] writes it *)
Definition write_port (k : p2p) (pk : nat) (port : Port) (s : Store) : Store :=
  set_ports k (<[pk := port]> (ports k s)) s.

(** Modelled from the spec: the uniqueness constraint of the store on the
    partner reference.  The reference is a one-to-one field, declared in
    dcim/models.py, which is not part of the sources: the views read it
    backwards through the single-object accessors [connected_console]
    and [connected_port], and the specification leaves conflicting
    connects to the constraint rejection of the store.  The constraint
    forbids that a port other than [pk] already refers to the partner. *)
Definition held_by_other (k : p2p) (s : Store) (pk outlet_pk : nat) : Prop :=
  map_Exists (fun pk' port' => pk' <> pk /\ partner port' = Some outlet_pk)
    (ports k s).

#[global] Instance held_by_other_dec k s pk outlet_pk :
  Decision (held_by_other k s pk outlet_pk).
Proof. unfold held_by_other. apply _. Defined.

(** [port.save()]: the row is written, unless the write would give the
    partner a second port; the store then raises [IntegrityError] and
    writes nothing.  A port without a partner never conflicts. *)
Definition save_port (k : p2p) (pk : nat) (port : Port) (s : Store)
  : result Store :=
  match partner port with
  | Some outlet_pk =>
      if decide (held_by_other k s pk outlet_pk)
      then Raise IntegrityError
      else Ok (write_port k pk port s)
  | None => Ok (write_port k pk port s)
  end.

(** The reverse accessor of the one-to-one reference
    ([consoleserverport.connected_console], [poweroutlet.connected_port]):
    the port whose reference is the given partner. *)
Definition connected_port (k : p2p) (s : Store) (outlet_pk : nat)
  : option (nat * Port) :=
  head (map_to_list (filter (fun kv => partner kv.2 = Some outlet_pk) (ports k s))).

(** ** Requests and responses

    The views are modelled from the point where the [permission_required]
    decorator has let the request through. *)

Inductive method := GET | POST.

Inductive level := success | warning.

Inductive form_error :=
| Duplicate (device : nat) (name : string)
| Invalid.

Inductive response :=
| Http404                              (* [get_object_or_404] found nothing *)
| Redirect (flash : level)             (* a message, then a redirect *)
| Render (errors : list form_error)    (* the page with its form *)
| Unhandled (e : exn).                 (* an exception leaves the view *)

(** A request to a view guarded by a [ConfirmationForm]. *)
Record confirm_request := {
  cr_method : method;
  cr_confirm : bool
}.

(** [request.method == 'POST'] and the confirmation form is valid *)
Definition confirmed (request : confirm_request) : bool :=
  match cr_method request with
  | POST => cr_confirm request
  | GET => false
  end.

(** A request to a connection view: on [POST], the partner chosen in the
    form and the connection status. *)
Inductive connect_request :=
| ConnectGet
| ConnectPost (chosen : nat) (connection_status : status).

(** A request to a creation view: on [POST], the cleaned data of the form
    when it is valid. *)
Inductive add_request (Data : Type) :=
| AddGet
| AddPost (cleaned_data : option Data).
Arguments AddGet {Data}.
Arguments AddPost {Data} cleaned_data.

(** ** Point-to-point connections *)

(** What follows a [save()] in a view: the success message and the
    redirect, or the exception of the store, which leaves the view with
    nothing written. *)
Definition after_save (saved : result Store) (s : Store) : Store * response :=
  match saved with
  | Ok s' => (s', Redirect success)
  | Raise e => (s, Unhandled e)
  end.

(** [port.cs_port = None; port.connection_status = None] *)
Definition clear (port : Port) : Port :=
  {| port_device := port_device port; port_name := port_name port;
     partner := None; connection_status := None |}.

(** [port.cs_port = partner; port.connection_status = status] *)
Definition connect_to (outlet_pk : nat) (st : status) (port : Port) : Port :=
  {| port_device := port_device port; port_name := port_name port;
     partner := Some outlet_pk; connection_status := Some st |}.

(** [consoleport_disconnect] and [powerport_disconnect] *)
Definition port_disconnect (k : p2p) (s : Store) (pk : nat)
    (request : confirm_request) : Store * response :=
  match ports k s !! pk with
  | None => (s, Http404)
  | Some port =>
      match partner port with
      | None => (s, Redirect warning)
      | Some _ =>
          if confirmed request
          then after_save (save_port k pk (clear port) s) s
          else (s, Render [])
      end
  end.

Definition consoleport_disconnect := port_disconnect Console.
Definition powerport_disconnect := port_disconnect Power.

(** [consoleserverport_disconnect] and [poweroutlet_disconnect] *)
Definition outlet_disconnect (k : p2p) (s : Store) (pk : nat)
    (request : confirm_request) : Store * response :=
  match outlets k s !! pk with
  | None => (s, Http404)
  | Some _ =>
      match connected_port k s pk with
      | None => (s, Redirect warning)
      | Some (port_pk, port) =>
          if confirmed request
          then after_save (save_port k port_pk (clear port) s) s
          else (s, Render [])
      end
  end.

Definition consoleserverport_disconnect := outlet_disconnect Console.
Definition poweroutlet_disconnect := outlet_disconnect Power.

(** Modelled from the spec: [ConsolePortConnectionForm] and
    [PowerPortConnectionForm] (dcim/forms.py, not part of the sources), the
    model forms bound to the port by [consoleport_connect] and
    [powerport_connect].  Following the specification of [connect], the
    form is valid when the chosen partner exists, and saving it sets the
    partner reference and the status of the port; no prior connection is
    looked at. *)
Definition connection_form_is_valid (k : p2p) (s : Store) (chosen : nat) : bool :=
  bool_decide (is_Some (outlets k s !! chosen)).

(** [consoleport_connect] and [powerport_connect] *)
Definition port_connect (k : p2p) (s : Store) (pk : nat)
    (request : connect_request) : Store * response :=
  match ports k s !! pk with
  | None => (s, Http404)
  | Some port =>
      match request with
      | ConnectPost chosen st =>
          if connection_form_is_valid k s chosen
          then after_save (save_port k pk (connect_to chosen st port) s) s
          else (s, Render [Invalid])
      | ConnectGet => (s, Render [])
      end
  end.

Definition consoleport_connect := port_connect Console.
Definition powerport_connect := port_connect Power.

(** Modelled from the spec: [ConsoleServerPortConnectionForm] and
    [PowerOutletConnectionForm] (dcim/forms.py, not part of the sources),
    through which the partner's side names the port to connect.  The form
    is valid when the chosen port exists, and [cleaned_data['port']] is
    that port. *)
Definition cleaned_port (k : p2p) (s : Store) (chosen : nat) : option Port :=
  ports k s !! chosen.

(** [consoleserverport_connect] and [poweroutlet_connect]: the view writes
    the reference and the status onto the port the form has supplied. *)
Definition outlet_connect (k : p2p) (s : Store) (pk : nat)
    (request : connect_request) : Store * response :=
  match outlets k s !! pk with
  | None => (s, Http404)
  | Some _ =>
      match request with
      | ConnectPost chosen st =>
          match cleaned_port k s chosen with
          | Some port =>
              after_save (save_port k chosen (connect_to pk st port) s) s
          | None => (s, Render [Invalid])
          end
      | ConnectGet => (s, Render [])
      end
  end.

Definition consoleserverport_connect := outlet_connect Console.
Definition poweroutlet_connect := outlet_connect Power.

(** ** Creation of ports *)

Section PortCreation.
Context {Row : Type} (row_device : Row -> nat) (row_name : Row -> string).

(** some persisted row has this device and this name *)
Definition taken (tbl : gmap nat Row) (device : nat) (name : string) : Prop :=
  map_Exists (fun _ r => row_device r = device /\ row_name r = name) tbl.

#[global] Instance taken_dec tbl device name : Decision (taken tbl device name).
Proof. unfold taken. apply _. Defined.

(** Modelled from the spec: [is_valid] of the model form of one port
    ([InterfaceForm], [ConsolePortForm]; dcim/forms.py is not part of the
    sources): the name is checked for uniqueness among the persisted ports
    of the same kind on the same device. *)
Definition is_valid (tbl : gmap nat Row) (device : nat) (name : string) : bool :=
  bool_decide (~ taken tbl device name).

(** Modelled from the spec: the insertion of one row by the object store,
    which enforces the uniqueness of (device, name) and gives the row a
    fresh primary key. *)
Definition create (tbl : gmap nat Row) (r : Row) : option (gmap nat Row) :=
  if decide (taken tbl (row_device r) (row_name r)) then None
  else Some (<[fresh (dom tbl) := r]> tbl).

(** Modelled from the spec: [objects.bulk_create(rows)], one logical
    action of the object store: all the rows are inserted, or, when one of
    them violates the uniqueness constraint, none ([None], an
    [IntegrityError]). *)
Fixpoint bulk_create (tbl : gmap nat Row) (rows : list Row)
  : option (gmap nat Row) :=
  match rows with
  | [] => Some tbl
  | r :: rows' => tbl' ← create tbl r; bulk_create tbl' rows'
  end.

(** One turn of the loop over the names: the unsaved instance is appended
    to the batch when its form is valid, an error is added to the outer
    form otherwise. *)
Definition check_name (tbl : gmap nat Row) (new : nat -> string -> Row)
    (device : nat) (acc : list Row * list form_error) (name : string)
  : list Row * list form_error :=
  if is_valid tbl device name
  then (acc.1 ++ [new device name], acc.2)
  else (acc.1, acc.2 ++ [Duplicate device name]).

(** [if not form.errors: bulk_create(batch)] *)
Definition commit (tbl : gmap nat Row) (acc : list Row * list form_error)
  : gmap nat Row * response :=
  match acc.2 with
  | [] =>
      match bulk_create tbl acc.1 with
      | Some tbl' => (tbl', Redirect success)
      | None => (tbl, Unhandled IntegrityError)
      end
  | _ => (tbl, Render acc.2)
  end.

(** The body of a creation view for one device. *)
Definition add_ports (tbl : gmap nat Row) (new : nat -> string -> Row)
    (device : nat) (names : list string) : gmap nat Row * response :=
  commit tbl (foldl (check_name tbl new device) ([], []) names).

End PortCreation.

(** The cleaned data of [InterfaceCreateForm] and
    [InterfaceBulkCreateForm]; [name_pattern] is the list of names the
    form field has produced. *)
Record InterfaceCreateForm := {
  name_pattern : list string;
  icf_form_factor : nat;
  icf_mgmt_only : bool;
  icf_description : string
}.

(** [InterfaceForm({...}).save(commit=False)] *)
Definition new_interface (data : InterfaceCreateForm) (device : nat)
    (name : string) : Interface :=
  {| iface_device := device; iface_name := name;
     form_factor := icf_form_factor data; mgmt_only := icf_mgmt_only data;
     description := icf_description data |}.

Definition interface_add (s : Store) (pk : nat)
    (request : add_request InterfaceCreateForm) : Store * response :=
  match devices s !! pk with
  | None => (s, Http404)
  | Some _ =>
      match request with
      | AddPost (Some data) =>
          let '(tbl, resp) :=
            add_ports iface_device iface_name (interfaces s)
              (new_interface data) pk (name_pattern data) in
          (set_interfaces tbl s, resp)
      | AddPost None => (s, Render [Invalid])
      | AddGet => (s, Render [])
      end
  end.

(** [ConsolePortForm({'device': ..., 'name': ...}).save(commit=False)]: a
    port without a partner; its status is the default of the model, which
    is declared outside the sources and is a parameter here. *)
Definition new_port (default_status : option status) (device : nat)
    (name : string) : Port :=
  {| port_device := device; port_name := name; partner := None;
     connection_status := default_status |}.

(** The cleaned data of [ConsolePortCreateForm] is the list of names. *)
Definition consoleport_add (default_status : option status) (s : Store)
    (pk : nat) (request : add_request (list string)) : Store * response :=
  match devices s !! pk with
  | None => (s, Http404)
  | Some _ =>
      match request with
      | AddPost (Some names) =>
          let '(tbl, resp) :=
            add_ports port_device port_name (console_ports s)
              (new_port default_status) pk names in
          (set_ports Console tbl s, resp)
      | AddPost None => (s, Render [Invalid])
      | AddGet => (s, Render [])
      end
  end.

(** [InterfaceBulkAddView.update_objects(pk_list, form)]: the form arrives
    with the errors it already carries. *)
Definition update_objects (s : Store) (pk_list : list nat)
    (data : InterfaceCreateForm) (errors : list form_error)
  : Store * response :=
  let selected_devices :=
    filter (fun kv => kv.1 ∈ pk_list) (map_to_list (devices s)) in
  let '(tbl, resp) :=
    commit iface_device iface_name (interfaces s)
      (foldl (fun acc device =>
                foldl (check_name iface_device iface_name (interfaces s)
                         (new_interface data) device.1)
                      acc (name_pattern data))
             ([], errors) selected_devices) in
  (set_interfaces tbl s, resp).

(** ** Listings of connections *)

(** The two columns of an [order_by]: the name of a device and the name
    of a port, each [NULL] ([None]) when the join finds nothing. *)
Definition sort_key : Type := option string * option string.

(** Ascending order of one column: strings bytewise, [NULL] last. *)
Definition name_le (a b : option string) : Prop :=
  match a, b with
  | Some x, Some y => String.le x y
  | _, None => True
  | None, Some _ => False
  end.

#[global] Instance name_le_dec a b : Decision (name_le a b).
Proof. destruct a, b; simpl; apply _. Defined.

(** first column, then second column *)
Definition key_le (k1 k2 : sort_key) : Prop :=
  name_le k1.1 k2.1 /\ (k1.1 = k2.1 -> name_le k1.2 k2.2).

#[global] Instance key_le_dec k1 k2 : Decision (key_le k1 k2).
Proof. unfold key_le. apply _. Defined.

(** rows compared by their sort key *)
Definition by_key {A} (key : A -> sort_key) : relation A :=
  fun r1 r2 => key_le (key r1) (key r2).

#[global] Instance by_key_dec {A} (key : A -> sort_key) r1 r2 :
  Decision (by_key key r1 r2).
Proof. unfold by_key. apply _. Defined.

(** [queryset.order_by(first, second)].  The database does not say in
    which order it returns rows with equal keys; the embedding takes one
    such order, that of a stable sort, and the results on the listings
    hold for every order of such rows. *)
Definition order_by {A} (key : A -> sort_key) (rows : list A) : list A :=
  merge_sort (by_key key) rows.


(** the name of a device reached through a foreign key *)
Definition device_name (s : Store) (device_pk : nat) : option string :=
  devices s !! device_pk ≫= dev_name.

(** [cs_port__device__name, cs_port__name], respectively
    [power_outlet__device__name, power_outlet__name] *)
Definition partner_key (k : p2p) (s : Store) (port : Port) : sort_key :=
  let outlet := partner port ≫= fun pk => outlets k s !! pk in
  (outlet ≫= (fun o => device_name s (outlet_device o)),
   outlet_name <$> outlet).

(** [interface_a__device__name, interface_a__name] *)
Definition interface_a_key (s : Store) (c : InterfaceConnection) : sort_key :=
  let a := interfaces s !! interface_a c in
  (a ≫= (fun i => device_name s (iface_device i)),
   iface_name <$> a).

(** [cs_port__isnull=False] / [power_outlet__isnull=False] *)
Definition is_connected (port : Port) : Prop := partner port <> None.

#[global] Instance is_connected_dec port : Decision (is_connected port).
Proof. unfold is_connected. apply _. Defined.

(** The queryset of [ConsoleConnectionsListView] and of
    [PowerConnectionsListView]: the ports whose reference is set, ordered
    by the device name and the name of the partner ([select_related] only
    fetches the joined rows along). *)
Definition connections_queryset (k : p2p) (s : Store) : list (nat * Port) :=
  order_by (fun kv => partner_key k s kv.2)
    (filter (fun kv => is_connected kv.2) (map_to_list (ports k s))).

Module ConsoleConnectionsListView.
Definition queryset := connections_queryset Console.
End ConsoleConnectionsListView.

Module PowerConnectionsListView.
Definition queryset := connections_queryset Power.
End PowerConnectionsListView.

Module InterfaceConnectionsListView.
Definition queryset (s : Store) : list (nat * InterfaceConnection) :=
  order_by (fun kv => interface_a_key s kv.2)
    (map_to_list (interface_connections s)).
End InterfaceConnectionsListView.

(** ** The order of a listing, in the words of the specification *)






(** ** Related devices *)

(** [name__istartswith=base_name] *)
Definition istartswith (base : string) (name : option string) : bool :=
  match name with
  | Some name => String.prefix (lower base) (lower name)
  | None => false
  end.

(** The [related_devices] of the [device] view. *)
Definition related_devices (s : Store) (pk : nat) (device : Device)
  : result (list (nat * Device)) :=
  match dev_name device with
  | None | Some "" => Ok []
  | Some name =>
      match base_name name with
      | Raise e => Raise e
      | Ok None | Ok (Some "") => Ok []
      | Ok (Some base) =>
          Ok (take 10
                (filter (fun kv => istartswith base (dev_name kv.2) /\ kv.1 <> pk)
                   (map_to_list (devices s))))
      end
  end.

(** ** The pairs a creation view goes through

    The (device, name) pairs in the order of the loops, those that collide
    with a persisted row, and the rows built for the others. *)

Definition device_names (device_pks : list nat) (names : list string)
  : list (nat * string) :=
  device ← device_pks; (fun name => (device, name)) <$> names.

Section Pairs.
Context {Row : Type} (row_device : Row -> nat) (row_name : Row -> string).

Definition colliding (tbl : gmap nat Row) (pairs : list (nat * string))
  : list (nat * string) :=
  filter (fun p => taken row_device row_name tbl p.1 p.2) pairs.

Definition accepted (tbl : gmap nat Row) (pairs : list (nat * string))
  : list (nat * string) :=
  filter (fun p => ~ taken row_device row_name tbl p.1 p.2) pairs.

(** the constructor of rows records the device and the name it is given *)
Definition faithful (new : nat -> string -> Row) : Prop :=
  forall device name,
    row_device (new device name) = device /\ row_name (new device name) = name.

End Pairs.

(** [Device.objects.filter(pk__in=pk_list)] *)
Definition selected_devices (s : Store) (pk_list : list nat) : list nat :=
  (filter (fun kv => kv.1 ∈ pk_list) (map_to_list (devices s))).*1.

(** ** A small store, used to run the views on concrete requests

    Devices 1 and 3 are switches, device 2 is a console server with three
    ports.  Switch 1 has one interface, [eth0], and two console ports:
    [con0], connected to [port2] of the console server, and [con1], which
    has no partner.  The console port of switch 3 is planned on [port1]. *)
Definition sample_store : Store := {|
  devices := {[ 1 := {| dev_name := Some "core-switch1" |};
                2 := {| dev_name := Some "console-server1" |};
                3 := {| dev_name := Some "core-switch2" |} ]};
  console_ports :=
    {[ 1 := {| port_device := 1; port_name := "con0"; partner := Some 2;
               connection_status := Some Connected |};
       2 := {| port_device := 1; port_name := "con1"; partner := None;
               connection_status := None |};
       3 := {| port_device := 3; port_name := "con0"; partner := Some 1;
               connection_status := Some Planned |} ]};
  cs_ports := {[ 1 := {| outlet_device := 2; outlet_name := "port1" |};
                 2 := {| outlet_device := 2; outlet_name := "port2" |};
                 3 := {| outlet_device := 2; outlet_name := "port3" |} ]};
  power_ports := ∅;
  power_outlets := ∅;
  interfaces := {[ 1 := {| iface_device := 1; iface_name := "eth0";
                           form_factor := 0; mgmt_only := false;
                           description := "" |} ]};
  interface_connections := ∅
|}.

Definition confirmed_post : confirm_request :=
  {| cr_method := POST; cr_confirm := true |}.

(** ** More on templates *)

(** A bracketed range whatever the order of its bounds. *)
Definition range_segment (g : segment) : Prop :=
  Re.re_search EXPANSION_PATTERN (seg_lead g) = None /\
  int (seg_x g) = Some (seg_lo g) /\
  int (seg_y g) = Some (seg_hi g).

(** the same range, its bounds written without padding *)
Definition canonical (g : segment) : segment :=
  Segment (seg_lead g) (str (seg_lo g)) (str (seg_hi g)) (seg_lo g) (seg_hi g).

(** the number of values of each range, multiplied across the ranges *)
Definition range_product (segs : list segment) : nat :=
  foldr (fun g n => N.to_nat (seg_hi g + 1 - seg_lo g) * n) 1 segs.

(** ** Deletion of ports and of interface connections *)

(** [consoleport_delete] and [powerport_delete]: the row of the port goes,
    and with it the reference it holds. *)
Definition port_delete (k : p2p) (s : Store) (pk : nat)
    (request : confirm_request) : Store * response :=
  match ports k s !! pk with
  | None => (s, Http404)
  | Some _ =>
      if confirmed request
      then (set_ports k (delete pk (ports k s)) s, Redirect success)
      else (s, Render [])
  end.

Definition consoleport_delete := port_delete Console.
Definition powerport_delete := port_delete Power.

Definition set_interface_connections (tbl : gmap nat InterfaceConnection)
    (s : Store) : Store :=
  {| devices := devices s; console_ports := console_ports s;
     cs_ports := cs_ports s; power_ports := power_ports s;
     power_outlets := power_outlets s; interfaces := interfaces s;
     interface_connections := tbl |}.

(** A request to [interfaceconnection_delete]: on [POST], the cleaned data
    of [InterfaceConnectionDeletionForm] when the form is valid, that is
    the device to return to, if any. *)
Inductive deletion_request :=
| DeletionGet
| DeletionPost (cleaned_data : option (option nat)).

(** [interfaceconnection_delete]; the device of the form only chooses the
    page the redirect leads to. *)
Definition interfaceconnection_delete (s : Store) (pk : nat)
    (request : deletion_request) : Store * response :=
  match interface_connections s !! pk with
  | None => (s, Http404)
  | Some _ =>
      match request with
      | DeletionPost (Some _) =>
          (set_interface_connections (delete pk (interface_connections s)) s,
           Redirect success)
      | DeletionPost None => (s, Render [Invalid])
      | DeletionGet => (s, Render [])
      end
  end.

(** ** The other creation views *)

Definition set_outlets (k : p2p) (tbl : gmap nat Outlet) (s : Store) : Store :=
  match k with
  | Console =>
      {| devices := devices s; console_ports := console_ports s;
         cs_ports := tbl; power_ports := power_ports s;
         power_outlets := power_outlets s; interfaces := interfaces s;
         interface_connections := interface_connections s |}
  | Power =>
      {| devices := devices s; console_ports := console_ports s;
         cs_ports := cs_ports s; power_ports := power_ports s;
         power_outlets := tbl; interfaces := interfaces s;
         interface_connections := interface_connections s |}
  end.

(** [ConsoleServerPortForm({'device': ..., 'name': ...}).save(commit=False)],
    and the same for [PowerOutletForm] *)
Definition new_outlet (device : nat) (name : string) : Outlet :=
  {| outlet_device := device; outlet_name := name |}.

(** [powerport_add]: the loop of [consoleport_add] on the power ports *)
Definition powerport_add (default_status : option status) (s : Store)
    (pk : nat) (request : add_request (list string)) : Store * response :=
  match devices s !! pk with
  | None => (s, Http404)
  | Some _ =>
      match request with
      | AddPost (Some names) =>
          let '(tbl, resp) :=
            add_ports port_device port_name (power_ports s)
              (new_port default_status) pk names in
          (set_ports Power tbl s, resp)
      | AddPost None => (s, Render [Invalid])
      | AddGet => (s, Render [])
      end
  end.

(** [consoleserverport_add] and [poweroutlet_add] *)
Definition outlet_add (k : p2p) (s : Store) (pk : nat)
    (request : add_request (list string)) : Store * response :=
  match devices s !! pk with
  | None => (s, Http404)
  | Some _ =>
      match request with
      | AddPost (Some names) =>
          let '(tbl, resp) :=
            add_ports outlet_device outlet_name (outlets k s)
              new_outlet pk names in
          (set_outlets k tbl s, resp)
      | AddPost None => (s, Render [Invalid])
      | AddGet => (s, Render [])
      end
  end.

Definition consoleserverport_add := outlet_add Console.
Definition poweroutlet_add := outlet_add Power.

(** What a successful creation leaves behind: the table [tbl'] holds the
    rows of [tbl] under their keys and, under new keys, one row for each of
    the pairs and nothing else. *)
Definition inserted {Row : Type} (new : nat -> string -> Row)
    (tbl tbl' : gmap nat Row) (pairs : list (nat * string)) : Prop :=
  tbl ⊆ tbl' /\
  size tbl' = size tbl + length pairs /\
  (forall k r, tbl' !! k = Some r -> tbl !! k = None ->
     exists device name, (device, name) ∈ pairs /\ r = new device name) /\
  (forall device name, (device, name) ∈ pairs ->
     exists k, tbl !! k = None /\ tbl' !! k = Some (new device name)).

(** The outcome of a creation request for the [names] on one device, read
    on the table before and after and on the answer: the request succeeds
    exactly when no name is taken on the device and no name is proposed
    twice; then one row per name has been inserted; otherwise the table is
    as it was. *)
Definition creation_outcome {Row : Type} (row_device : Row -> nat)
    (row_name : Row -> string) (new : nat -> string -> Row)
    (device : nat) (names : list string)
    (tbl tbl' : gmap nat Row) (answer : response) : Prop :=
  (answer = Redirect success <->
     (forall name, name ∈ names -> ~ taken row_device row_name tbl device name)
     /\ NoDup names) /\
  (answer = Redirect success ->
     inserted new tbl tbl' (device_names [device] names)) /\
  (answer <> Redirect success -> tbl' = tbl).

(** ** The [device] view *)

(** [Model.objects.filter(device=device)] *)
Definition of_device {Row : Type} (row_device : Row -> nat) (pk : nat)
    (tbl : gmap nat Row) : list (nat * Row) :=
  filter (fun kv => row_device kv.2 = pk) (map_to_list tbl).

(** [Interface.objects.filter(device=device, mgmt_only=...)] *)
Definition device_interfaces (s : Store) (pk : nat) (mgmt : bool)
  : list (nat * Interface) :=
  filter (fun kv => iface_device kv.2 = pk /\ mgmt_only kv.2 = mgmt)
    (map_to_list (interfaces s)).

(** The context the template of the page receives; the secrets and the IP
    addresses of the device, which live in other applications, are left
    out. *)
Record device_context := {
  ctx_console_ports : list (nat * Port);
  ctx_cs_ports : list (nat * Outlet);
  ctx_power_ports : list (nat * Port);
  ctx_power_outlets : list (nat * Outlet);
  ctx_interfaces : list (nat * Interface);
  ctx_mgmt_interfaces : list (nat * Interface);
  ctx_related_devices : list (nat * Device)
}.

(** The answer of a view that shows a page. *)
Inductive page (A : Type) :=
| NotFound                 (* [get_object_or_404] found nothing *)
| Page (context : A)
| Failed (e : exn).        (* an exception leaves the view *)
Arguments NotFound {A}.
Arguments Page {A} context.
Arguments Failed {A} e.

Module DeviceView.
Definition device (s : Store) (pk : nat) : page device_context :=
  match devices s !! pk with
  | None => NotFound
  | Some device =>
      match related_devices s pk device with
      | Raise e => Failed e
      | Ok related =>
          Page {| ctx_console_ports := of_device port_device pk (console_ports s);
                  ctx_cs_ports := of_device outlet_device pk (cs_ports s);
                  ctx_power_ports := of_device port_device pk (power_ports s);
                  ctx_power_outlets :=
                    of_device outlet_device pk (power_outlets s);
                  ctx_interfaces := device_interfaces s pk false;
                  ctx_mgmt_interfaces := device_interfaces s pk true;
                  ctx_related_devices := related |}
      end
  end.
End DeviceView.

(** ** Racks

    The table of racks, with the columns the views of this module read or
    write.  It travels beside the store of the devices and ports. *)

Record Rack := {
  rack_site : nat;
  rack_group : option nat;
  rack_name : string;
  u_height : nat;
  rack_comments : string
}.

(** [name__lt]: strictly before, strings compared bytewise as in the
    listings *)
Definition name_lt (a b : string) : Prop := String.le a b /\ a <> b.

#[global] Instance name_lt_dec a b : Decision (name_lt a b).
Proof. unfold name_lt. apply _. Defined.

(** [order_by('name')] and [order_by('-name')] *)
Definition by_name (a b : nat * Rack) : Prop :=
  String.le (rack_name a.2) (rack_name b.2).

Definition by_name_desc (a b : nat * Rack) : Prop :=
  String.le (rack_name b.2) (rack_name a.2).

#[global] Instance by_name_dec a b : Decision (by_name a b).
Proof. unfold by_name. apply _. Defined.

#[global] Instance by_name_desc_dec a b : Decision (by_name_desc a b).
Proof. unfold by_name_desc. apply _. Defined.

(** [Rack.objects.filter(site=rack.site, name__gt=rack.name)
      .order_by('name')[0]], [None] on [IndexError] *)
Definition next_rack (racks : gmap nat Rack) (rack : Rack)
  : option (nat * Rack) :=
  head (merge_sort by_name
          (filter (fun kv => rack_site kv.2 = rack_site rack /\
                             name_lt (rack_name rack) (rack_name kv.2))
             (map_to_list racks))).

(** [Rack.objects.filter(site=rack.site, name__lt=rack.name)
      .order_by('-name')[0]], [None] on [IndexError] *)
Definition prev_rack (racks : gmap nat Rack) (rack : Rack)
  : option (nat * Rack) :=
  head (merge_sort by_name_desc
          (filter (fun kv => rack_site kv.2 = rack_site rack /\
                             name_lt (rack_name kv.2) (rack_name rack))
             (map_to_list racks))).

(** The context of the page of a rack; the devices without a position and
    the two elevations, which come from the models, are left out. *)
Record rack_context := {
  ctx_rack : Rack;
  ctx_next_rack : option (nat * Rack);
  ctx_prev_rack : option (nat * Rack)
}.

Module RackView.
Definition rack (racks : gmap nat Rack) (pk : nat) : page rack_context :=
  match racks !! pk with
  | None => NotFound
  | Some rack =>
      Page {| ctx_rack := rack;
              ctx_next_rack := next_rack racks rack;
              ctx_prev_rack := prev_rack racks rack |}
  end.
End RackView.

(** no two racks of a site bear the same name *)
Definition names_apart (racks : gmap nat Rack) : Prop :=
  forall k1 k2 r1 r2,
    racks !! k1 = Some r1 -> racks !! k2 = Some r2 ->
    rack_site r1 = rack_site r2 -> rack_name r1 = rack_name r2 -> k1 = k2.

Definition sample_racks : gmap nat Rack :=
  {[ 1 := {| rack_site := 1; rack_group := None; rack_name := "A01";
             u_height := 42; rack_comments := "" |};
     2 := {| rack_site := 1; rack_group := None; rack_name := "A03";
             u_height := 42; rack_comments := "" |};
     3 := {| rack_site := 2; rack_group := None; rack_name := "A02";
             u_height := 42; rack_comments := "" |};
     4 := {| rack_site := 1; rack_group := Some 5; rack_name := "A02";
             u_height := 48; rack_comments := "cage" |} ]}.

(** ** Bulk edits

    [update_objects] collects in [fields_to_update] the fields of the form
    that hold a true value, then writes them onto every selected row in one
    [update].  A field of the dictionary is [Some] value when its key is
    present.  The message with the number of rows is left out. *)

(** the value, when it is true in a test: a number other than 0 *)
Definition true_number (n : option nat) : option nat :=
  match n with
  | Some (S _) => n
  | _ => None
  end.

(** the value, when it is true in a test: a string other than [''] *)
Definition true_string (s : string) : option string :=
  if decide (s = "") then None else Some s.

(** The cleaned data of [RackBulkEditForm]: a choice left open is [None],
    a text left blank is the empty string. *)
Record RackBulkEditForm := {
  rbe_site : option nat;
  rbe_group : option nat;
  rbe_u_height : option nat;
  rbe_comments : string
}.

Record rack_fields := {
  upd_site : option nat;
  upd_group : option nat;
  upd_u_height : option nat;
  upd_comments : option string
}.

Module RackBulkEditView.

Definition fields_to_update (data : RackBulkEditForm) : rack_fields :=
  {| upd_site := rbe_site data;
     upd_group := rbe_group data;
     upd_u_height := true_number (rbe_u_height data);
     upd_comments := true_string (rbe_comments data) |}.

(** the [update] with the collected fields, on one row *)
Definition update (fields : rack_fields) (r : Rack) : Rack :=
  {| rack_site := default (rack_site r) (upd_site fields);
     rack_group :=
       match upd_group fields with
       | Some group => Some group
       | None => rack_group r
       end;
     rack_name := rack_name r;
     u_height := default (u_height r) (upd_u_height fields);
     rack_comments := default (rack_comments r) (upd_comments fields) |}.

(** [Rack.objects.filter(pk__in=pk_list)], updated with the fields *)
Definition update_objects (racks : gmap nat Rack) (pk_list : list nat)
    (data : RackBulkEditForm) : gmap nat Rack :=
  map_imap (fun pk r =>
              Some (if decide (pk ∈ pk_list)
                    then update (fields_to_update data) r else r))
    racks.

End RackBulkEditView.

(** The columns of a device that [DeviceBulkEditView] writes; they travel
    beside the store, keyed like its devices. *)
Record DeviceColumns := {
  dc_platform : option nat;
  dc_status : bool;
  dc_device_type : nat;
  dc_device_role : nat;
  dc_serial : string;
  dc_ro_snmp : string
}.

(** The cleaned data of [DeviceBulkEditForm]; [dbe_status] is the text of
    the choice, [''] when none is made. *)
Record DeviceBulkEditForm := {
  dbe_platform : option nat;
  dbe_platform_delete : bool;
  dbe_status : string;
  dbe_device_type : option nat;
  dbe_device_role : option nat;
  dbe_serial : string;
  dbe_ro_snmp : string
}.

Record device_fields := {
  upd_platform : option (option nat);
  upd_status : option bool;
  upd_device_type : option nat;
  upd_device_role : option nat;
  upd_serial : option string;
  upd_ro_snmp : option string
}.

Module DeviceBulkEditView.

Definition fields_to_update (data : DeviceBulkEditForm) : device_fields :=
  {| upd_platform :=
       match dbe_platform data with
       | Some platform => Some (Some platform)
       | None => if dbe_platform_delete data then Some None else None
       end;
     upd_status :=
       match true_string (dbe_status data) with
       | Some status => Some (bool_decide (status = "True"))
       | None => None
       end;
     upd_device_type := dbe_device_type data;
     upd_device_role := dbe_device_role data;
     upd_serial := true_string (dbe_serial data);
     upd_ro_snmp := true_string (dbe_ro_snmp data) |}.

Definition update (fields : device_fields) (d : DeviceColumns)
  : DeviceColumns :=
  {| dc_platform := default (dc_platform d) (upd_platform fields);
     dc_status := default (dc_status d) (upd_status fields);
     dc_device_type := default (dc_device_type d) (upd_device_type fields);
     dc_device_role := default (dc_device_role d) (upd_device_role fields);
     dc_serial := default (dc_serial d) (upd_serial fields);
     dc_ro_snmp := default (dc_ro_snmp d) (upd_ro_snmp fields) |}.

(** [Device.objects.filter(pk__in=pk_list)], updated with the fields *)
Definition update_objects (rows : gmap nat DeviceColumns)
    (pk_list : list nat) (data : DeviceBulkEditForm)
  : gmap nat DeviceColumns :=
  map_imap (fun pk d =>
              Some (if decide (pk ∈ pk_list)
                    then update (fields_to_update data) d else d))
    rows.

End DeviceBulkEditView.

(** * Part II: properties *)

(** ** Facts about strings and the matcher *)

#[local] Arguments String.append !_ _ / : simpl nomatch.

Section StringFacts.
Implicit Types s t u p : string.

Lemma sapp_nil_l s : "" +:+ s = s.
Proof. done. Qed.

Lemma sapp_cons a s t : String a s +:+ t = String a (s +:+ t).
Proof. done. Qed.

Lemma sapp_nil_r s : s +:+ "" = s.
Proof. induction s; simpl; congruence. Qed.

Lemma sapp_assoc s t u : (s +:+ t) +:+ u = s +:+ t +:+ u.
Proof. induction s; simpl; congruence. Qed.

Lemma sapp_length s t :
  String.length (s +:+ t) = String.length s + String.length t.
Proof. induction s; simpl; congruence. Qed.

Lemma substring_prefix p s : substring 0 (String.length p) (p +:+ s) = p.
Proof. induction p; simpl; [by destruct s | congruence]. Qed.

Lemma between_app p s : Re.between (p +:+ s) s = p.
Proof.
  unfold Re.between. rewrite sapp_length.
  replace (String.length p + String.length s - String.length s)
    with (String.length p) by lia.
  apply substring_prefix.
Qed.
End StringFacts.

(** reassociate appends to the right and compute them on literals *)
Ltac snorm := repeat (progress (rewrite ?sapp_assoc; simpl)).
Ltac snorm_in H := repeat (progress (rewrite ?sapp_assoc in H; simpl in H)).

Module ReFacts.
Import Re.

Section Repetition.
Context {R : Type} (c : cclass) (k : string -> option R).

Lemma greedy_inv s r :
  greedy c k s = Some r ->
  exists p s', s = p +:+ s' /\ all_in c p /\ k s' = Some r.
Proof.
  revert r. induction s as [|a s IH]; intros r; simpl.
  - intros Hk. by exists "", "".
  - destruct (cmatch c a) eqn:Ha.
    + destruct (greedy c k s) as [r'|] eqn:Hg.
      * intros [= <-]. destruct (IH _ eq_refl) as (p & s' & -> & Hp & Hk).
        exists (String a p), s'. simpl. rewrite Ha. done.
      * intros Hk. by exists "", (String a s).
    + intros Hk. by exists "", (String a s).
Qed.

Lemma greedy_none p s' :
  greedy c k (p +:+ s') = None -> all_in c p -> k s' = None.
Proof.
  induction p as [|a p IH]; simpl.
  - intros Hg _. destruct s' as [|b s']; simpl in Hg; [done|].
    destruct (cmatch c b); [|done]. by destruct (greedy c k s').
  - intros Hg [Ha Hp]%andb_prop_elim. apply Is_true_true in Ha.
    rewrite Ha in Hg. destruct (greedy c k (p +:+ s')) eqn:Hg'; [done|].
    by apply IH.
Qed.

Lemma greedy_longest p s' r :
  all_in c p -> stops c s' -> k s' = Some r ->
  greedy c k (p +:+ s') = Some r.
Proof.
  intros Hp Hs Hk. induction p as [|a p IH]; simpl.
  - destruct s' as [|b s']; simpl; [done|].
    simpl in Hs. by destruct (cmatch c b).
  - simpl in Hp. apply andb_prop_elim in Hp as [Ha Hp].
    apply Is_true_true in Ha. rewrite Ha, IH; done.
Qed.

Lemma lazy_inv s r :
  lazy c k s = Some r ->
  exists p s', s = p +:+ s' /\ all_in c p /\ k s' = Some r.
Proof.
  revert r. induction s as [|a s IH]; intros r; simpl.
  - destruct (k "") eqn:Hk; [|done]. intros [= <-]. by exists "", "".
  - destruct (k (String a s)) eqn:Hk.
    + intros [= <-]. by exists "", (String a s).
    + destruct (cmatch c a) eqn:Ha; [|done].
      intros (p & s' & -> & Hp & Hk')%IH.
      exists (String a p), s'. simpl. by rewrite Ha.
Qed.

Lemma lazy_none p s' :
  lazy c k (p +:+ s') = None -> all_in c p -> k s' = None.
Proof.
  induction p as [|a p IH]; simpl.
  - intros Hl _. destruct s'; simpl in Hl; by destruct (k _).
  - intros Hl [Ha Hp]%andb_prop_elim. apply Is_true_true in Ha.
    destruct (k (String a (p +:+ s'))); [done|].
    rewrite Ha in Hl. by apply IH.
Qed.

End Repetition.

Lemma re_search_here re s m :
  re_match re s = Some m -> re_search re s = Some ("", m).
Proof. intros Hm. destruct s; simpl; by rewrite Hm. Qed.

Lemma re_search_inv re s lead m :
  re_search re s = Some (lead, m) ->
  exists t, s = lead +:+ t /\ re_match re t = Some m.
Proof.
  revert lead. induction s as [|a s IH]; intros lead; simpl.
  - destruct (re_match re "") eqn:Hm; [|done]. intros [= <- <-]. by exists "".
  - destruct (re_match re (String a s)) eqn:Hm.
    + intros [= <- <-]. by exists (String a s).
    + destruct (re_search re s) as [[lead' m']|]; [|done].
      intros [= <- <-]. destruct (IH _ eq_refl) as (t & -> & Ht). by exists t.
Qed.

Lemma re_search_none re l t :
  re_search re (l +:+ t) = None -> re_match re t = None.
Proof.
  induction l as [|a l IH]; simpl.
  - destruct t; simpl; by destruct (re_match re _).
  - destruct (re_match re (String a (l +:+ t))); [done|].
    destruct (re_search re (l +:+ t)) as [[??]|]; [done|]. auto.
Qed.

(** a string without the character [a] that is a prefix of [l ++ a :: t]
    is a prefix of [l] *)
Lemma lacks_prefix a w l t rest :
  lacks a w -> l +:+ String a t = w +:+ rest -> exists l', l = w +:+ l'.
Proof.
  revert l. induction w as [|b w IH]; intros l Hw; simpl.
  - by exists l.
  - simpl in Hw. apply andb_prop_elim in Hw as [Hb Hw].
    destruct l as [|b' l]; simpl; intros [= -> Heq].
    + rewrite Ascii.eqb_refl in Hb. done.
    + destruct (IH _ Hw Heq) as [l' ->]. by exists l'.
Qed.

Lemma lacks_app a s t : lacks a (s +:+ t) = lacks a s && lacks a t.
Proof. induction s; simpl; [done|]. by rewrite IHs, andb_assoc. Qed.


Lemma all_in_app c s t : all_in c (s +:+ t) = all_in c s && all_in c t.
Proof. induction s; simpl; [done|]. by rewrite IHs, andb_assoc. Qed.

End ReFacts.

(** ** The pattern expander *)

Module Expander.
Import Re ReFacts.

Lemma bracket_app x y rest :
  bracket x y +:+ rest = String "[" (x +:+ String "-" (y +:+ String "]" rest)).
Proof.
  unfold bracket. by snorm.
Qed.

Lemma digits_lacks a x : is_digit a = false -> all_in Digit x -> lacks a x.
Proof.
  intros Ha. induction x as [|b x IH]; simpl; [done|].
  intros [Hb Hx]%andb_prop_elim. apply andb_prop_intro. split; [|auto].
  destruct (Ascii.eqb_spec b a) as [->|]; [|done].
  by rewrite Ha in Hb.
Qed.

Lemma expansion_match x y rest :
  digits x -> digits y ->
  re_match EXPANSION_PATTERN (bracket x y +:+ rest) =
    Some (MState (Some (x +:+ String "-" (y +:+ String "]" rest)))
                 (Some (String "]" rest)) rest).
Proof.
  intros [Hx1 Hx2] [Hy1 Hy2]. rewrite bracket_app.
  unfold re_match, EXPANSION_PATTERN. cbn [rmatch]. simpl one.
  destruct x as [|a x]; [done|]. destruct y as [|b y]; [done|].
  simpl in Hx2, Hy2. apply andb_prop_elim in Hx2 as [Ha Hx2].
  apply andb_prop_elim in Hy2 as [Hb Hy2].
  simpl. rewrite (Is_true_true_1 _ Ha).
  apply greedy_longest; [done|done|]. simpl.
  rewrite (Is_true_true_1 _ Hb).
  apply greedy_longest; done.
Qed.

Lemma expansion_match_inv s m :
  re_match EXPANSION_PATTERN s = Some m ->
  exists x y, digits x /\ digits y /\ s = bracket x y +:+ m_end m.
Proof.
  unfold re_match, EXPANSION_PATTERN. cbn [rmatch]. intros Hm.
  destruct s as [|a s]; [done|]. simpl in Hm.
  destruct (Ascii.eqb_spec a "[") as [->|]; [|done].
  destruct s as [|d1 s]; [done|]. simpl in Hm.
  destruct (is_digit d1) eqn:Hd1; [|done].
  apply greedy_inv in Hm as (p & s' & -> & Hp & Hk).
  destruct s' as [|b s']; [done|]. simpl in Hk.
  destruct (Ascii.eqb_spec b "-") as [->|]; [|done].
  destruct s' as [|d2 s']; [done|]. simpl in Hk.
  destruct (is_digit d2) eqn:Hd2; [|done].
  apply greedy_inv in Hk as (q & s'' & -> & Hq & Hk).
  destruct s'' as [|e s'']; [done|]. simpl in Hk.
  destruct (Ascii.eqb_spec e "]") as [->|]; [|done].
  injection Hk as <-.
  exists (String d1 p), (String d2 q). rewrite bracket_app.
  unfold digits. simpl. rewrite Hd1, Hd2. done.
Qed.

(** a match cannot start inside a lead that contains no bracket
    expression and run into the next opening bracket *)
Lemma expansion_local l t :
  l <> "" -> re_match EXPANSION_PATTERN l = None ->
  re_match EXPANSION_PATTERN (l +:+ String "[" t) = None.
Proof.
  intros Hl Hnone.
  destruct (re_match EXPANSION_PATTERN (l +:+ String "[" t)) as [m|] eqn:Hm;
    [exfalso|done].
  apply expansion_match_inv in Hm as (x & y & Hx & Hy & Heq).
  rewrite bracket_app in Heq.
  destruct l as [|a l]; [done|]. simpl in Heq. injection Heq as -> Heq.
  assert (lacks "[" (x +:+ "-" +:+ y +:+ "]")) as Hw.
  { rewrite !lacks_app. destruct Hx as [_ Hx], Hy as [_ Hy].
    rewrite !andb_True. repeat split; try done; by apply digits_lacks. }
  assert (x +:+ String "-" (y +:+ String "]" (m_end m))
          = (x +:+ "-" +:+ y +:+ "]") +:+ m_end m) as Hre.
  { by snorm. }
  rewrite Hre in Heq.
  destruct (lacks_prefix _ _ _ _ _ Hw Heq) as [l' ->].
  snorm_in Hnone. rewrite <- bracket_app, expansion_match in Hnone; done.
Qed.

Lemma expansion_search lead x y rest :
  re_search EXPANSION_PATTERN lead = None -> digits x -> digits y ->
  re_search EXPANSION_PATTERN (lead +:+ bracket x y +:+ rest) =
    Some (lead, MState (Some (x +:+ String "-" (y +:+ String "]" rest)))
                       (Some (String "]" rest)) rest).
Proof.
  intros Hlead Hx Hy. induction lead as [|a lead IH].
  - rewrite sapp_nil_l. apply re_search_here. by apply expansion_match.
  - simpl in Hlead.
    destruct (re_match EXPANSION_PATTERN (String a lead)) eqn:Hm; [done|].
    destruct (re_search EXPANSION_PATTERN lead) as [[??]|] eqn:Hs; [done|].
    pose proof (expansion_local (String a lead)
                  (x +:+ String "-" (y +:+ String "]" rest))) as Hloc.
    rewrite <- bracket_app, sapp_cons in Hloc.
    rewrite sapp_cons. cbn [re_search].
    rewrite Hloc by done. by rewrite IH.
Qed.

Lemma between_range x y rest :
  between (x +:+ String "-" (y +:+ String "]" rest)) (String "]" rest)
  = x +:+ "-" +:+ y.
Proof.
  replace (x +:+ String "-" (y +:+ String "]" rest))
    with ((x +:+ "-" +:+ y) +:+ String "]" rest) by (by snorm).
  apply between_app.
Qed.

Lemma expansion_split lead x y rest :
  re_search EXPANSION_PATTERN lead = None -> digits x -> digits y ->
  re_split1 EXPANSION_PATTERN (lead +:+ bracket x y +:+ rest) =
    [lead; x +:+ "-" +:+ y; rest].
Proof.
  intros. unfold re_split1. rewrite expansion_search by done.
  unfold group1. cbn [g_open g_close m_end]. by rewrite between_range.
Qed.

(** ** Built-ins on the text of a bracket expression *)

Lemma str_split_lacks sep s : lacks sep s -> str_split sep s = [s].
Proof.
  induction s as [|a s IH]; simpl; [done|].
  intros [Ha Hs]%andb_prop_elim. destruct (Ascii.eqb a sep); [done|].
  by rewrite IH.
Qed.

Lemma str_split_app sep s t :
  lacks sep s -> str_split sep (s +:+ String sep t) = s :: str_split sep t.
Proof.
  induction s as [|a s IH]; simpl.
  - by rewrite Ascii.eqb_refl.
  - intros [Ha Hs]%andb_prop_elim. destruct (Ascii.eqb a sep); [done|].
    by rewrite IH.
Qed.

Lemma str_split_range x y :
  digits x -> digits y -> str_split "-" (x +:+ "-" +:+ y) = [x; y].
Proof.
  intros [_ Hx] [_ Hy]. simpl.
  rewrite str_split_app, str_split_lacks; auto using digits_lacks.
Qed.

Lemma int_acc_digits s : forall acc n, int_acc acc s = Some n -> all_in Digit s.
Proof.
  induction s as [|a s IH]; simpl; [done|]. intros acc n.
  destruct (is_digit a); [|done]. intros ?%IH. done.
Qed.

Lemma int_digits s n : int s = Some n -> digits s.
Proof.
  destruct s as [|a s]; [done|]. unfold int. intros ?%int_acc_digits. done.
Qed.

Lemma digits_int_acc s : all_in Digit s -> forall acc, is_Some (int_acc acc s).
Proof.
  induction s as [|a s IH]; simpl; [eauto|].
  intros [Ha Hs]%andb_prop_elim acc. rewrite (Is_true_true_1 _ Ha). auto.
Qed.

Lemma digits_int s : digits s -> is_Some (int s).
Proof.
  intros [Hne Hs]. destruct s as [|a s]; [done|]. by apply digits_int_acc.
Qed.

(** [str] writes the decimal numeral that [int] reads *)

Lemma int_acc_pos d : forall acc,
  int_acc (Npos acc) (NilEmpty.string_of_uint d) =
    Some (Npos (Pos.of_uint_acc d acc)).
Proof.
  induction d; intros acc; simpl; [done|..]; rewrite <- IHd; f_equal; lia.
Qed.

Lemma int_acc_zero d :
  int_acc 0 (NilEmpty.string_of_uint d) = Some (N.of_uint d).
Proof. induction d; simpl; [done|done|..]; apply int_acc_pos. Qed.

Lemma int_str n : int (str n) = Some n.
Proof.
  unfold int, str.
  destruct (NilEmpty.string_of_uint (N.to_uint n)) eqn:Heq.
  - destruct n as [|p]; [done|]. simpl in Heq.
    pose proof (DecimalPos.Unsigned.to_uint_nonnil p) as Hnil.
    destruct (Pos.to_uint p); done.
  - rewrite <- Heq, int_acc_zero. f_equal. apply DecimalN.Unsigned.of_to.
Qed.

Lemma length_range lo stop : length (range lo stop) = N.to_nat (stop - lo).
Proof. unfold range. by rewrite length_fmap, length_seq. Qed.

(** ** Loops of a generator *)

Lemma gen_for_ok {A} (l : list A) (body : A -> gen) :
  (forall i, raised (body i) = None) ->
  gen_for l body = Gen (l ≫= fun i => yielded (body i)) None.
Proof.
  intros Hok. induction l as [|i l IH]; simpl; [done|].
  rewrite Hok, IH. done.
Qed.

Lemma gen_for_raise {A} (l : list A) (body : A -> gen) g e :
  (forall i, body i = g) -> raised g = Some e -> l <> [] ->
  gen_for l body = g.
Proof.
  intros Hbody Hg. destruct l as [|i l]; [done|]. intros _. simpl.
  rewrite !Hbody, Hg. done.
Qed.

(** ** Termination: the remnant is shorter than the string *)

Lemma expansion_split_inv s lead pattern remnant :
  re_split1 EXPANSION_PATTERN s = [lead; pattern; remnant] ->
  exists x y, digits x /\ digits y /\
    pattern = x +:+ "-" +:+ y /\ s = lead +:+ bracket x y +:+ remnant.
Proof.
  unfold re_split1.
  destruct (re_search EXPANSION_PATTERN s) as [[l m]|] eqn:Hs; [|done].
  apply re_search_inv in Hs as (t & -> & Hm).
  destruct (expansion_match_inv _ _ Hm) as (x & y & Hx & Hy & ->).
  rewrite expansion_match in Hm by done. injection Hm as <-.
  unfold group1. cbn [g_open g_close m_end]. rewrite between_range.
  intros [= <- <- <-]. by exists x, y.
Qed.

Lemma length_bracket x y : String.length (bracket x y) > 0.
Proof. unfold bracket. simpl. lia. Qed.

Lemma remnant_shorter s lead pattern remnant :
  re_split1 EXPANSION_PATTERN s = [lead; pattern; remnant] ->
  String.length remnant < String.length s.
Proof.
  intros (x & y & _ & _ & _ & ->)%expansion_split_inv.
  rewrite !sapp_length. pose proof (length_bracket x y). lia.
Qed.

Lemma expand_fuel_total fuel :
  forall s, String.length s < fuel -> is_Some (expand_fuel fuel s).
Proof.
  induction fuel as [|fuel IH]; intros s Hlen; [lia|]. simpl.
  destruct (re_split1 EXPANSION_PATTERN s)
    as [|lead [|pattern [|remnant [|]]]] eqn:Hsplit; eauto.
  destruct (str_split "-" pattern) as [|x [|y [|]]]; eauto.
  destruct (int x), (int y); eauto.
  case_decide; eauto.
  apply remnant_shorter in Hsplit.
  destruct (IH remnant) as [sub ->]; [lia|]. simpl. eauto.
Qed.

(** any bound above the length of the string gives the same result *)
Lemma expand_fuel_irrelevant n :
  forall m s, String.length s < n -> String.length s < m ->
    expand_fuel n s = expand_fuel m s.
Proof.
  induction n as [|n IH]; intros m s Hn Hm; [lia|].
  destruct m as [|m]; [lia|]. simpl.
  destruct (re_split1 EXPANSION_PATTERN s)
    as [|lead [|pattern [|remnant [|]]]] eqn:Hsplit; try done.
  destruct (str_split "-" pattern) as [|x [|y [|]]]; try done.
  destruct (int x), (int y); try done.
  case_decide; [done|].
  apply remnant_shorter in Hsplit. by rewrite (IH m remnant) by lia.
Qed.

(** the bound of [expand_pattern] is never reached *)
Lemma expand_pattern_total s : is_Some (expand_pattern s).
Proof. apply expand_fuel_total. lia. Qed.

(** ** No bracket expression: the unpacking of [re.split] fails *)

Lemma expand_no_range s :
  re_search EXPANSION_PATTERN s = None ->
  expand_pattern s = Some (gen_raise ValueError).
Proof.
  intros Hs. unfold expand_pattern. simpl. unfold re_split1. by rewrite Hs.
Qed.

(** ** An exception is raised before anything is yielded *)

Lemma expand_fuel_raise fuel :
  forall s g e, expand_fuel fuel s = Some g -> raised g = Some e ->
    g = gen_raise ValueError.
Proof.
  induction fuel as [|fuel IH]; intros s g e; [done|]. simpl.
  destruct (re_split1 EXPANSION_PATTERN s)
    as [|lead [|pattern [|remnant [|]]]]; try by intros [= <-].
  destruct (str_split "-" pattern) as [|x [|y [|]]]; try by intros [= <-].
  destruct (int x) as [lo|], (int y) as [hi|]; try by intros [= <-].
  case_decide.
  - intros [= <-]. by rewrite gen_for_ok.
  - destruct (expand_fuel fuel remnant) as [sub|] eqn:Hsub; [|done].
    simpl. intros [= <-].
    destruct (raised sub) as [e'|] eqn:Hraised.
    + rewrite (IH _ _ _ Hsub Hraised).
      destruct (range lo (hi + 1)) as [|i l]; [done|]. done.
    + rewrite gen_for_ok by done. done.
Qed.

(** ** Low above high: the loop body never runs *)

Lemma range_empty lo hi : (hi < lo)%N -> range lo (hi + 1) = [].
Proof.
  intros Hlt. unfold range.
  replace (N.to_nat (hi + 1 - lo)) with 0 by lia. done.
Qed.

Lemma expand_empty_range lead x y lo hi rest :
  re_search EXPANSION_PATTERN lead = None ->
  int x = Some lo -> int y = Some hi -> (hi < lo)%N ->
  expand_pattern (lead +:+ bracket x y +:+ rest) = Some (Gen [] None).
Proof.
  intros Hlead Hx Hy Hlt. unfold expand_pattern. cbn [expand_fuel].
  rewrite expansion_split by eauto using int_digits.
  rewrite str_split_range by eauto using int_digits.
  rewrite Hx, Hy, range_empty by done.
  case_decide; [done|].
  destruct (expand_fuel_total
              (String.length (lead +:+ bracket x y +:+ rest)) rest)
    as [sub ->]; [|done].
  rewrite !sapp_length. pose proof (length_bracket x y). lia.
Qed.

(** ** Templates that end with their last bracket *)

Lemma template_nonempty g segs : template (g :: segs) <> "".
Proof.
  simpl. intros Heq%(f_equal String.length).
  rewrite !sapp_length in Heq. pose proof (length_bracket (seg_x g) (seg_y g)).
  simpl in Heq. lia.
Qed.

Lemma expand_fuel_template segs :
  forall fuel, segs <> [] -> Forall valid_segment segs ->
    String.length (template segs) < fuel ->
    expand_fuel fuel (template segs) = Some (Gen (nested_loops segs) None).
Proof.
  induction segs as [|g segs IH]; intros fuel Hne Hvalid Hlen; [done|].
  apply Forall_cons in Hvalid as [(Hlead & Hx & Hy & _) Hvalid].
  destruct fuel as [|fuel]; [lia|]. cbn [expand_fuel template].
  rewrite expansion_split by eauto using int_digits.
  rewrite str_split_range by eauto using int_digits.
  rewrite Hx, Hy. cbn [template] in Hlen. rewrite !sapp_length in Hlen.
  pose proof (length_bracket (seg_x g) (seg_y g)).
  case_decide as Hrem.
  - destruct segs as [|g' segs]; [|by apply template_nonempty in Hrem].
    rewrite gen_for_ok by done. cbn [nested_loops yielded]. do 2 f_equal.
    apply list_bind_ext; [|done]. intros i. simpl. by rewrite sapp_nil_r.
  - destruct segs as [|g' segs]; [done|].
    rewrite IH by (done || lia). simpl.
    rewrite gen_for_ok by done. done.
Qed.

Lemma length_nested_loops segs :
  Forall valid_segment segs ->
  length (nested_loops segs) = expansion_count segs.
Proof.
  induction 1 as [|g segs (_ & _ & _ & Hle) _ IH]; [done|].
  cbn [nested_loops expansion_count foldr].
  fold (expansion_count segs). rewrite <- IH.
  replace (seg_hi g - seg_lo g + 1)%N with (seg_hi g + 1 - seg_lo g)%N by lia.
  rewrite <- length_range.
  induction (range (seg_lo g) (seg_hi g + 1)) as [|i l IHl]; [done|].
  cbn [mbind list_bind]. simpl. rewrite length_app, length_fmap.
  simpl in IHl. rewrite IHl. done.
Qed.

(** ** Results on the expander *)

(** Templates that end with their last bracket.  For every template made
    of one or more bracketed ranges [[lo-hi]] with [lo <= hi], each
    preceded by text that holds no bracket expression, and with no text
    after the last bracket, [expand_pattern] yields, without raising,
    exactly the strings of the
    nested loops over the ranges (outermost range slowest, each range in
    ascending order, integers in decimal): [hi - lo + 1] results per
    range, multiplied across the ranges.  In particular
    ["xe-0/[0-1]/[0-2]"] yields the six strings of the specification. *)
Theorem expand_pattern_template :
  (forall segs, segs <> [] -> Forall valid_segment segs ->
     expand_pattern (template segs) = Some (Gen (nested_loops segs) None) /\
     length (nested_loops segs) = expansion_count segs) /\
  expand_pattern "xe-0/[0-1]/[0-2]" =
    Some (Gen ["xe-0/0/0"; "xe-0/0/1"; "xe-0/0/2";
               "xe-0/1/0"; "xe-0/1/1"; "xe-0/1/2"] None).
Proof.
  split; [|by vm_compute].
  intros segs Hne Hvalid. split.
  - apply expand_fuel_template; [done..|lia].
  - by apply length_nested_loops.
Qed.

Lemma expand_pattern_template_witness :
  let segs := [Segment "xe-0/" "0" "1" 0 1; Segment "/" "0" "2" 0 2] in
  template segs = "xe-0/[0-1]/[0-2]" /\
  expand_pattern (template segs) =
    Some (Gen ["xe-0/0/0"; "xe-0/0/1"; "xe-0/0/2";
               "xe-0/1/0"; "xe-0/1/1"; "xe-0/1/2"] None) /\
  length (nested_loops segs) = 6.
Proof.
  intros segs. split; [reflexivity|].
  assert (segs <> []) as Hne by (by vm_compute).
  assert (Forall valid_segment segs) as Hvalid.
  { repeat constructor; reflexivity || (vm_compute; congruence). }
  exact (proj1 expand_pattern_template segs Hne Hvalid).
Defined.

(** C1.  The code at the template ["ge-[0-1]x"], one range with
    [lo <= hi] followed by text: the expansion promised for it has the two
    names [ge-0x] and [ge-1x], but the test [if remnant:] sends the text
    after the last bracket into the recursive call, which finds no bracket
    expression there; its unpacking raises [ValueError] and no name is
    yielded. *)
Lemma expand_pattern_trailing_text :
  "ge-[0-1]x" = template [Segment "ge-" "0" "1" 0 1] +:+ "x" /\
  valid_segment (Segment "ge-" "0" "1" 0 1) /\
  expand_pattern "ge-[0-1]x" = Some (gen_raise ValueError) /\
  ~ (exists l, expand_pattern "ge-[0-1]x" = Some (Gen l None) /\ length l = 2).
Proof.
  split; [reflexivity|]. split.
  { repeat split; reflexivity || (vm_compute; congruence). }
  split; [reflexivity|]. intros (l & Hl & _). vm_compute in Hl. congruence.
Qed.

(** Every range written with the decimal numerals of its bounds is a
    valid segment. *)
Lemma valid_segment_str lead lo hi :
  re_search EXPANSION_PATTERN lead = None -> (lo <= hi)%N ->
  valid_segment (Segment lead (str lo) (str hi) lo hi).
Proof. intros Hlead Hle. repeat split; simpl; auto using int_str. Qed.

(** The first example of the docstring. *)
Lemma expand_pattern_docstring :
  expand_pattern "ge-0/0/[0-3]" =
    Some (Gen ["ge-0/0/0"; "ge-0/0/1"; "ge-0/0/2"; "ge-0/0/3"] None).
Proof. reflexivity. Qed.

(** Two adjacent ranges can yield the same name twice: ["1"] followed by
    ["11"] and ["11"] followed by ["1"]. *)
Lemma expand_pattern_repeats_a_name :
  exists g, expand_pattern "[1-11][1-11]" = Some g /\
    raised g = None /\ ~ NoDup (yielded g).
Proof.
  eexists. split; [by vm_compute|]. split; [done|].
  apply (bool_decide_eq_false_1 _). by vm_compute.
Qed.

(** C5 (amended).  For every string that contains no bracket expression,
    iterating [expand_pattern] raises [ValueError] (the unpacking of the
    one-element result of [re.split] fails) and yields nothing. *)
Theorem expand_pattern_no_range s :
  re_search EXPANSION_PATTERN s = None ->
  expand_pattern s = Some (Gen [] (Some ValueError)).
Proof. apply expand_no_range. Qed.

Lemma expand_pattern_no_range_witness :
  re_search EXPANSION_PATTERN "eth0" = None /\
  expand_pattern "eth0" = Some (Gen [] (Some ValueError)).
Proof.
  split; [reflexivity|]. apply (expand_pattern_no_range "eth0"). reflexivity.
Defined.

(** A template without brackets is not returned unchanged. *)
Lemma expand_pattern_plain_name :
  re_search EXPANSION_PATTERN "eth0" = None /\
  expand_pattern "eth0" <> Some (Gen ["eth0"] None).
Proof. split; [reflexivity|]. vm_compute. congruence. Qed.

(** C7 (amended).  A string in which no bracket expression with numeric
    bounds occurs is rejected: iterating [expand_pattern] raises
    [ValueError] and yields nothing.  Whenever the expander raises, the
    exception is [ValueError] and nothing has been yielded, so there is no
    partial result.  A range with [low > high] is not rejected: the
    expansion ends normally with the empty sequence. *)
Theorem expand_pattern_malformed :
  (forall s, re_search EXPANSION_PATTERN s = None ->
     expand_pattern s = Some (Gen [] (Some ValueError))) /\
  (forall s g e, expand_pattern s = Some g -> raised g = Some e ->
     e = ValueError /\ yielded g = []) /\
  (forall lead x y lo hi rest,
     re_search EXPANSION_PATTERN lead = None ->
     int x = Some lo -> int y = Some hi -> (hi < lo)%N ->
     expand_pattern (lead +:+ bracket x y +:+ rest) = Some (Gen [] None)).
Proof.
  split; [apply expand_no_range|]. split; [|apply expand_empty_range].
  intros s g e Hg Hraised.
  rewrite (expand_fuel_raise _ _ _ _ Hg Hraised) in Hraised |- *.
  by injection Hraised as <-.
Qed.

Lemma expand_pattern_malformed_witness :
  expand_pattern "ge-[a-b]" = Some (Gen [] (Some ValueError)) /\
  (ValueError = ValueError /\ yielded (Gen [] (Some ValueError)) = []) /\
  expand_pattern ("ge-" +:+ bracket "3" "1" +:+ "") = Some (Gen [] None).
Proof.
  destruct expand_pattern_malformed as (Hnone & Hraise & Hempty).
  split; [apply (Hnone "ge-[a-b]"); reflexivity|]. split.
  - apply (Hraise "ge-[a-b]" (Gen [] (Some ValueError)) ValueError);
      reflexivity.
  - apply (Hempty "ge-" "3" "1" 3%N 1%N ""); reflexivity || (by vm_compute).
Defined.

(** A range with low above high is not rejected: the expansion ends
    normally, with no value. *)
Lemma expand_pattern_low_above_high :
  int "3" = Some 3%N /\ int "1" = Some 1%N /\ (1 < 3)%N /\
  expand_pattern "ge-[3-1]" = Some (Gen [] None) /\
  ~ (exists g e, expand_pattern "ge-[3-1]" = Some g /\ raised g = Some e).
Proof.
  repeat split; try reflexivity. intros (g & e & Hg & He).
  vm_compute in Hg. injection Hg as <-. done.
Qed.

End Expander.

(** ** Point-to-point connections *)

Module Connections.

Lemma ports_set_ports k tbl s : ports k (set_ports k tbl s) = tbl.
Proof. by destruct k. Qed.

Lemma outlets_set_ports k k' tbl s : outlets k' (set_ports k tbl s) = outlets k' s.
Proof. by destruct k, k'. Qed.

Lemma set_ports_set_ports k tbl tbl' s :
  set_ports k tbl' (set_ports k tbl s) = set_ports k tbl' s.
Proof. by destruct k. Qed.

Lemma set_ports_id k s : set_ports k (ports k s) s = s.
Proof. by destruct k, s. Qed.

Lemma devices_set_ports k tbl s : devices (set_ports k tbl s) = devices s.
Proof. by destruct k. Qed.

Lemma ports_write_port k pk port s :
  ports k (write_port k pk port s) = <[pk := port]> (ports k s).
Proof. apply ports_set_ports. Qed.

Lemma outlets_write_port k k' pk port s :
  outlets k' (write_port k pk port s) = outlets k' s.
Proof. apply outlets_set_ports. Qed.

(** writing a row twice keeps the last one; writing the stored row
    changes nothing *)
Lemma write_port_twice k pk port port' s :
  write_port k pk port' (write_port k pk port s) = write_port k pk port' s.
Proof.
  unfold write_port. by rewrite ports_set_ports, set_ports_set_ports, insert_insert_eq.
Qed.

Lemma write_port_id k pk port s :
  ports k s !! pk = Some port -> write_port k pk port s = s.
Proof.
  intros Hport. unfold write_port. rewrite insert_id by done. apply set_ports_id.
Qed.

Lemma clear_connect_to chosen st port :
  partner port = None -> connection_status port = None ->
  clear (connect_to chosen st port) = port.
Proof. destruct port. simpl. by intros -> ->. Qed.

(** ** The view of a connection from the partner's side *)

Lemma connected_port_unique k s port_pk port outlet_pk :
  ports k s !! port_pk = Some port ->
  partner port = Some outlet_pk ->
  (forall pk' port', ports k s !! pk' = Some port' ->
     partner port' = Some outlet_pk -> pk' = port_pk) ->
  connected_port k s outlet_pk = Some (port_pk, port).
Proof.
  intros Hport Hpartner Hunique. unfold connected_port.
  assert (filter (fun kv => partner kv.2 = Some outlet_pk) (ports k s)
          = {[port_pk := port]}) as ->.
  { apply map_eq. intros i. destruct (decide (i = port_pk)) as [->|Hne].
    - rewrite lookup_singleton_eq. by apply map_lookup_filter_Some.
    - rewrite lookup_singleton_ne by done.
      apply map_lookup_filter_None. right. intros port' Hi Hp. simpl in Hp.
      by apply Hne, (Hunique i port'). }
  by rewrite map_to_list_singleton.
Qed.

Lemma connected_port_None k s outlet_pk :
  connected_port k s outlet_pk = None <->
  forall pk port, ports k s !! pk = Some port -> partner port <> Some outlet_pk.
Proof.
  unfold connected_port. rewrite head_None. split.
  - intros Hnil pk port Hport Hpartner.
    apply map_to_list_empty_iff in Hnil.
    assert (filter (fun kv => partner kv.2 = Some outlet_pk) (ports k s) !! pk
            = Some port) as Hin by (by apply map_lookup_filter_Some).
    by rewrite Hnil in Hin.
  - intros Hnone. apply map_to_list_empty_iff, map_empty. intros pk.
    apply map_lookup_filter_None. right. intros port Hport. simpl.
    by apply (Hnone pk).
Qed.

(** ** Saving a port *)

Lemma held_by_other_iff k s pk outlet_pk :
  held_by_other k s pk outlet_pk <->
  exists pk' port', pk' <> pk /\ ports k s !! pk' = Some port' /\
    partner port' = Some outlet_pk.
Proof.
  unfold held_by_other, map_Exists. split.
  - intros (pk' & port' & Hrow & Hne & Hp). by exists pk', port'.
  - intros (pk' & port' & Hne & Hrow & Hp). by exists pk', port'.
Qed.

Lemma save_port_clear k pk port s :
  save_port k pk (clear port) s = Ok (write_port k pk (clear port) s).
Proof. done. Qed.

Lemma save_port_free k pk port outlet_pk s :
  partner port = Some outlet_pk ->
  (forall pk' port', ports k s !! pk' = Some port' ->
     partner port' = Some outlet_pk -> pk' = pk) ->
  save_port k pk port s = Ok (write_port k pk port s).
Proof.
  intros Hp Hfree. unfold save_port. rewrite Hp.
  rewrite decide_False; [done|].
  intros (pk' & port' & Hne & Hrow & Hp')%held_by_other_iff.
  by apply Hne, (Hfree pk' port').
Qed.

Lemma save_port_held k pk port outlet_pk s pk' port' :
  partner port = Some outlet_pk ->
  pk' <> pk -> ports k s !! pk' = Some port' ->
  partner port' = Some outlet_pk ->
  save_port k pk port s = Raise IntegrityError.
Proof.
  intros Hp Hne Hrow Hp'. unfold save_port. rewrite Hp.
  rewrite decide_True; [done|]. apply held_by_other_iff. by exists pk', port'.
Qed.

(** a save either writes the row or leaves the store as it was *)
Lemma after_save_store k pk port s :
  (after_save (save_port k pk port s) s).1 = write_port k pk port s \/
  (after_save (save_port k pk port s) s).1 = s.
Proof.
  unfold save_port. destruct (partner port); [|by left].
  destruct (decide _); [by right|by left].
Qed.

(** ** Results on connections *)

(** C4.  For a console port ([k = Console], [consoleport_disconnect]) and
    for a power port ([k = Power], [powerport_disconnect]): the disconnect
    view answers with the not-connected warning exactly when the partner
    reference of the port is unset, and then the store is unchanged.  When
    the reference is set, the confirmed request clears the reference and
    the status in one save of the port, and without confirmation nothing
    is changed.  After a connect (from either side) followed by a
    disconnect, a port that had neither reference nor status leaves the
    store exactly as it was. *)
Theorem disconnect_spec k s pk port request :
  ports k s !! pk = Some port ->
  ((port_disconnect k s pk request).2 = Redirect warning <->
     partner port = None) /\
  (partner port = None -> (port_disconnect k s pk request).1 = s) /\
  (partner port <> None -> confirmed request = false ->
     (port_disconnect k s pk request).1 = s) /\
  (partner port <> None -> confirmed request = true ->
     port_disconnect k s pk request =
       (write_port k pk (clear port) s, Redirect success) /\
     ports k (write_port k pk (clear port) s) !! pk = Some (clear port) /\
     partner (clear port) = None /\ connection_status (clear port) = None) /\
  (partner port = None -> connection_status port = None ->
     confirmed request = true ->
     forall chosen st, is_Some (outlets k s !! chosen) ->
       (port_disconnect k
          (port_connect k s pk (ConnectPost chosen st)).1 pk request).1 = s /\
       (port_disconnect k
          (outlet_connect k s chosen (ConnectPost pk st)).1 pk request).1 = s).
Proof.
  intros Hport. unfold port_disconnect at 1 2 3 4. rewrite Hport.
  split; [|split; [|split; [|split]]].
  - split.
    + destruct (partner port); [|done]. by destruct (confirmed request).
    + by intros ->.
  - by intros ->.
  - intros Hp Hc. destruct (partner port); [|done]. by rewrite Hc.
  - intros Hp Hc. split; [|split; [|done]].
    + destruct (partner port); [|done]. by rewrite Hc.
    + by rewrite ports_write_port, lookup_insert_eq.
  - intros Hp Hs Hc chosen st Hchosen.
    assert ((port_disconnect k
               (after_save (save_port k pk (connect_to chosen st port) s) s).1
               pk request).1 = s) as Hround.
    { unfold port_disconnect.
      destruct (after_save_store k pk (connect_to chosen st port) s)
        as [-> | ->].
      - rewrite ports_write_port, lookup_insert_eq. cbn [connect_to partner].
        rewrite Hc, save_port_clear. cbn [after_save fst].
        rewrite write_port_twice, clear_connect_to by done.
        by apply write_port_id.
      - by rewrite Hport, Hp. }
    split.
    + unfold port_connect, connection_form_is_valid.
      by rewrite Hport, bool_decide_eq_true_2.
    + unfold outlet_connect, cleaned_port. destruct Hchosen as [o ->].
      by rewrite Hport.
Qed.

Lemma disconnect_spec_witness :
  ports Console sample_store !! 1 =
    Some {| port_device := 1; port_name := "con0"; partner := Some 2;
            connection_status := Some Connected |} /\
  (consoleport_disconnect sample_store 1 confirmed_post).2 = Redirect success /\
  ports Console (consoleport_disconnect sample_store 1 confirmed_post).1 !! 1 =
    Some {| port_device := 1; port_name := "con0"; partner := None;
            connection_status := None |}.
Proof.
  split; [reflexivity|].
  destruct (disconnect_spec Console sample_store 1
              {| port_device := 1; port_name := "con0"; partner := Some 2;
                 connection_status := Some Connected |} confirmed_post)
    as (_ & _ & _ & Hset & _); [reflexivity|].
  destruct Hset as (Heq & Hrow & _); [simpl; congruence|reflexivity|].
  unfold consoleport_disconnect. rewrite Heq. split; [reflexivity|exact Hrow].
Defined.

(** C6 (amended).  The connect views perform no check of their own on a
    prior connection.  For a port that already holds a partner, from the
    port's side ([consoleport_connect], [powerport_connect]) as from the
    partner's side ([consoleserverport_connect], [poweroutlet_connect]):
    when no other port refers to the chosen partner, the request succeeds,
    the new reference and status replace the old ones in one save of the
    port, no other port and no table of partners is changed, in particular
    not the row of the previous partner.  When another port refers to the
    chosen partner, nothing is written: from the partner's side the save
    is refused by the store with an [IntegrityError], and from the port's
    side the request does not succeed either. *)
Theorem connect_replaces k s pk port old chosen st :
  ports k s !! pk = Some port ->
  partner port = Some old ->
  is_Some (outlets k s !! chosen) ->
  ((forall pk' port', ports k s !! pk' = Some port' ->
      partner port' = Some chosen -> pk' = pk) ->
   exists s',
     port_connect k s pk (ConnectPost chosen st) = (s', Redirect success) /\
     outlet_connect k s chosen (ConnectPost pk st) = (s', Redirect success) /\
     (exists port',
        ports k s' !! pk = Some port' /\
        partner port' = Some chosen /\ connection_status port' = Some st /\
        port_device port' = port_device port /\
        port_name port' = port_name port) /\
     (forall pk', pk' <> pk -> ports k s' !! pk' = ports k s !! pk') /\
     (forall k', outlets k' s' = outlets k' s) /\
     outlets k s' !! old = outlets k s !! old /\
     s' = set_ports k (ports k s') s) /\
  (forall pk' port',
     pk' <> pk -> ports k s !! pk' = Some port' ->
     partner port' = Some chosen ->
     outlet_connect k s chosen (ConnectPost pk st)
       = (s, Unhandled IntegrityError) /\
     (port_connect k s pk (ConnectPost chosen st)).1 = s /\
     (port_connect k s pk (ConnectPost chosen st)).2 <> Redirect success).
Proof.
  intros Hport Hold Hchosen.
  assert (port_connect k s pk (ConnectPost chosen st)
          = after_save (save_port k pk (connect_to chosen st port) s) s)
    as Hfrom_port.
  { unfold port_connect, connection_form_is_valid.
    by rewrite Hport, bool_decide_eq_true_2. }
  assert (outlet_connect k s chosen (ConnectPost pk st)
          = after_save (save_port k pk (connect_to chosen st port) s) s)
    as Hfrom_outlet.
  { unfold outlet_connect, cleaned_port. destruct Hchosen as [o ->].
    by rewrite Hport. }
  rewrite Hfrom_port, Hfrom_outlet. split.
  - intros Hfree. exists (write_port k pk (connect_to chosen st port) s).
    rewrite (save_port_free k pk _ chosen) by done. cbn [after_save].
    split; [done|]. split; [done|]. split; [|split; [|split; [|split]]].
    + exists (connect_to chosen st port).
      by rewrite ports_write_port, lookup_insert_eq.
    + intros pk' Hne. by rewrite ports_write_port, lookup_insert_ne.
    + intros k'. apply outlets_write_port.
    + by rewrite outlets_write_port.
    + unfold write_port. by rewrite ports_set_ports.
  - intros pk' port' Hne Hrow Hp.
    rewrite (save_port_held k pk _ chosen s pk' port') by done.
    by cbn [after_save fst snd].
Qed.

Lemma connect_replaces_witness :
  partner <$> ports Console sample_store !! 1 = Some (Some 2) /\
  (consoleport_connect sample_store 1 (ConnectPost 3 Planned)).2
    = Redirect success /\
  partner <$>
    ports Console
      (consoleport_connect sample_store 1 (ConnectPost 3 Planned)).1 !! 1
    = Some (Some 3) /\
  cs_ports (consoleport_connect sample_store 1 (ConnectPost 3 Planned)).1 !! 2
    = cs_ports sample_store !! 2.
Proof.
  split; [reflexivity|].
  destruct (connect_replaces Console sample_store 1
              {| port_device := 1; port_name := "con0"; partner := Some 2;
                 connection_status := Some Connected |} 2 3 Planned)
    as [Hfree _]; [reflexivity|reflexivity|eexists; reflexivity|].
  destruct Hfree as (s' & Heq & _ & (port' & Hrow & Hp & _) & _ & _ & Hold & _).
  - intros pk' port' Hrow Hp.
    change (ports Console sample_store) with (console_ports sample_store) in Hrow.
    cbn [sample_store console_ports] in Hrow.
    apply lookup_insert_Some in Hrow as [[<- _]|[_ Hrow]]; [done|].
    apply lookup_insert_Some in Hrow as [[_ <-]|[_ Hrow]]; [done|].
    apply lookup_singleton_Some in Hrow as [_ <-]. done.
  - unfold consoleport_connect. rewrite Heq. cbn [fst snd].
    split; [done|]. split; [by rewrite Hrow; simpl; rewrite Hp|exact Hold].
Defined.

(** C6, as it is written, fails when the chosen partner is taken.  Console
    port 1 holds console server port 2; console server port 1 is held by
    console port 3.  Connecting console port 1 to console server port 1
    does not replace the reference: from the partner's side the store
    refuses the save, and from neither side is anything written. *)
Lemma connect_to_a_taken_partner :
  partner <$> console_ports sample_store !! 1 = Some (Some 2) /\
  partner <$> console_ports sample_store !! 3 = Some (Some 1) /\
  consoleserverport_connect sample_store 1 (ConnectPost 1 Connected)
    = (sample_store, Unhandled IntegrityError) /\
  (consoleport_connect sample_store 1 (ConnectPost 1 Connected)).1
    = sample_store /\
  (consoleport_connect sample_store 1 (ConnectPost 1 Connected)).2
    <> Redirect success.
Proof. repeat split; try reflexivity. vm_compute. congruence. Qed.

(** C10.  For a connected pair, where the port is the only one that
    refers to the partner (the reference is one-to-one), the disconnect
    view of the partner's side ([consoleserverport_disconnect],
    [poweroutlet_disconnect]) and the disconnect view of the port's side
    ([consoleport_disconnect], [powerport_disconnect]) end in the same
    store with the same answer.  On confirmation both succeed; in the
    resulting store the reference-holding port has no partner and no
    connection status, with its device and name as before, every other
    port is as it was, the partner has no connected port any more, and no
    table of partners is changed.  Without confirmation the store is as it
    was. *)
Theorem disconnect_either_side k s port_pk port outlet_pk request :
  ports k s !! port_pk = Some port ->
  partner port = Some outlet_pk ->
  is_Some (outlets k s !! outlet_pk) ->
  (forall pk' port', ports k s !! pk' = Some port' ->
     partner port' = Some outlet_pk -> pk' = port_pk) ->
  let s' := (outlet_disconnect k s outlet_pk request).1 in
  outlet_disconnect k s outlet_pk request =
    port_disconnect k s port_pk request /\
  (confirmed request = true ->
     (outlet_disconnect k s outlet_pk request).2 = Redirect success /\
     (exists port',
        ports k s' !! port_pk = Some port' /\
        partner port' = None /\ connection_status port' = None /\
        port_device port' = port_device port /\
        port_name port' = port_name port) /\
     (forall pk', pk' <> port_pk -> ports k s' !! pk' = ports k s !! pk') /\
     connected_port k s' outlet_pk = None /\
     s' = write_port k port_pk (clear port) s) /\
  (confirmed request = false -> s' = s) /\
  (forall k', outlets k' s' = outlets k' s).
Proof.
  intros Hport Hpartner [o Ho] Hunique s'. unfold s'.
  unfold outlet_disconnect, port_disconnect.
  rewrite Ho, Hport, Hpartner.
  rewrite (connected_port_unique k s port_pk port outlet_pk) by done.
  split; [done|]. rewrite save_port_clear.
  split; [|split].
  - intros ->. cbn [after_save fst snd]. split; [done|].
    split; [|split; [|split; [|done]]].
    + exists (clear port). by rewrite ports_write_port, lookup_insert_eq.
    + intros pk' Hne. by rewrite ports_write_port, lookup_insert_ne.
    + apply connected_port_None. intros pk' port'.
      rewrite ports_write_port.
      intros [[<- <-]|[Hne Hrow]]%lookup_insert_Some Hp; [done|].
      by apply Hne; symmetry; apply (Hunique pk' port').
  - by intros ->.
  - intros k'. destruct (confirmed request); [|done].
    apply outlets_write_port.
Qed.

Lemma disconnect_either_side_witness :
  consoleserverport_disconnect sample_store 2 confirmed_post =
    consoleport_disconnect sample_store 1 confirmed_post /\
  (exists port',
     console_ports
       (consoleserverport_disconnect sample_store 2 confirmed_post).1 !! 1
       = Some port' /\
     partner port' = None /\ connection_status port' = None) /\
  cs_ports (consoleserverport_disconnect sample_store 2 confirmed_post).1 =
    cs_ports sample_store.
Proof.
  destruct (disconnect_either_side Console sample_store 1
              {| port_device := 1; port_name := "con0"; partner := Some 2;
                 connection_status := Some Connected |} 2 confirmed_post)
    as (Heq & Hdone & _ & Hout);
    [reflexivity|reflexivity|eexists; reflexivity| |].
  - intros pk' port' Hrow Hp.
    change (ports Console sample_store) with (console_ports sample_store) in Hrow.
    cbn [sample_store console_ports] in Hrow.
    apply lookup_insert_Some in Hrow as [[<- _]|[_ Hrow]]; [done|].
    apply lookup_insert_Some in Hrow as [[_ <-]|[_ Hrow]]; [done|].
    apply lookup_singleton_Some in Hrow as [_ <-]. done.
  - destruct (Hdone eq_refl) as (_ & (port' & Hrow & Hp & Hs & _) & _).
    split; [exact Heq|]. split; [|exact (Hout Console)].
    by exists port'.
Defined.

End Connections.

(** ** Creation of ports *)

Module Provisioning.

Section PortCreation.
Context {Row : Type} (row_device : Row -> nat) (row_name : Row -> string).

#[local] Abbreviation taken := (taken row_device row_name).
#[local] Abbreviation check_name := (check_name row_device row_name).
#[local] Abbreviation bulk_create := (bulk_create row_device row_name).
#[local] Abbreviation create := (create row_device row_name).
#[local] Abbreviation colliding := (colliding row_device row_name).
#[local] Abbreviation accepted := (accepted row_device row_name).

(** the loop over the names of one device *)
Lemma check_names tbl new device names acc :
  foldl (check_name tbl new device) acc names =
    (acc.1 ++ (uncurry new <$> accepted tbl (device_names [device] names)),
     acc.2 ++ (uncurry Duplicate <$> colliding tbl (device_names [device] names))).
Proof.
  unfold device_names, accepted, colliding. cbn [mbind list_bind].
  rewrite app_nil_r.
  revert acc. induction names as [|name names IH]; intros [rows errors].
  - simpl. by rewrite !app_nil_r.
  - cbn [foldl fmap list_fmap]. rewrite IH. unfold check_name, is_valid.
    rewrite !filter_cons. cbn [fst snd].
    destruct (decide (taken tbl device name)) as [Ht|Ht];
      destruct (decide (~ taken tbl device name)) as [Hn|Hn]; try tauto.
    + rewrite bool_decide_eq_false_2 by done.
      cbn [fst snd fmap list_fmap uncurry]. by rewrite <- app_assoc.
    + rewrite bool_decide_eq_true_2 by done.
      cbn [fst snd fmap list_fmap uncurry]. by rewrite <- app_assoc.
Qed.

(** the nested loops over the devices and the names *)
Lemma check_device_names tbl new {D} (pk_of : D -> nat) (devs : list D) names acc :
  foldl (fun acc device => foldl (check_name tbl new (pk_of device)) acc names)
        acc devs =
    (acc.1 ++ (uncurry new <$> accepted tbl (device_names (pk_of <$> devs) names)),
     acc.2 ++ (uncurry Duplicate <$>
                 colliding tbl (device_names (pk_of <$> devs) names))).
Proof.
  revert acc. induction devs as [|d devs IH]; intros [rows errors].
  - simpl. by rewrite !app_nil_r.
  - cbn [foldl]. rewrite IH, check_names. cbn [fst snd].
    unfold device_names, accepted, colliding.
    cbn [fmap list_fmap mbind list_bind]. rewrite app_nil_r.
    rewrite !filter_app, !fmap_app, <- !app_assoc. done.
Qed.

(** a collision with a persisted row: nothing is committed *)
Lemma commit_errors tbl acc :
  acc.2 <> [] -> commit row_device row_name tbl acc = (tbl, Render acc.2).
Proof. unfold commit. by destruct (acc.2). Qed.

Lemma colliding_nonempty tbl pairs device name :
  (device, name) ∈ pairs -> taken tbl device name -> colliding tbl pairs <> [].
Proof.
  intros Hin Htaken Hnil.
  assert ((device, name) ∈ colliding tbl pairs) as Hc.
  { unfold colliding. by apply list_elem_of_filter. }
  rewrite Hnil in Hc. by apply elem_of_nil in Hc.
Qed.

Lemma colliding_empty tbl pairs :
  (forall device name, (device, name) ∈ pairs -> ~ taken tbl device name) ->
  colliding tbl pairs = [] /\ accepted tbl pairs = pairs.
Proof.
  intros Hfree. unfold colliding, accepted.
  induction pairs as [|[d n] pairs IH]; [done|].
  rewrite !filter_cons. cbn [fst snd].
  assert (~ taken tbl d n) as Hdn by (apply Hfree; left).
  destruct (decide (taken tbl d n)) as [Ht|Ht];
    destruct (decide (~ taken tbl d n)) as [Hn|Hn]; try tauto.
  destruct IH as [-> ->]; [|done].
  intros d' n' Hin. apply Hfree. by right.
Qed.

(** ** The uniqueness constraint of the store *)

Lemma taken_create tbl r tbl' device name :
  create tbl r = Some tbl' -> taken tbl device name -> taken tbl' device name.
Proof.
  unfold create. case_decide; [done|]. intros [= <-] (i & x & Hi & Hx).
  exists i, x. split; [|done]. rewrite lookup_insert_ne; [done|].
  intros <-. apply (is_fresh (dom tbl)). apply elem_of_dom. eauto.
Qed.

Lemma taken_created tbl r tbl' :
  create tbl r = Some tbl' -> taken tbl' (row_device r) (row_name r).
Proof.
  unfold create. case_decide; [done|]. intros [= <-].
  exists (fresh (dom tbl)), r. by rewrite lookup_insert_eq.
Qed.

Lemma bulk_create_taken tbl rows r :
  r ∈ rows -> taken tbl (row_device r) (row_name r) ->
  bulk_create tbl rows = None.
Proof.
  revert tbl. induction rows as [|r' rows IH]; intros tbl Hin Htaken.
  - by apply elem_of_nil in Hin.
  - cbn [bulk_create]. apply elem_of_cons in Hin as [<-|Hin].
    + unfold create. by rewrite decide_True.
    + destruct (create tbl r') as [tbl'|] eqn:Hcreate; [|done]. simpl.
      apply IH; [done|]. by eapply taken_create.
Qed.

(** a batch that proposes the same (device, name) twice is refused as a
    whole by the store *)
Lemma bulk_create_duplicate tbl new pairs :
  faithful row_device row_name new -> ~ NoDup pairs ->
  bulk_create tbl (uncurry new <$> pairs) = None.
Proof.
  intros Hnew. revert tbl.
  induction pairs as [|[d n] pairs IH]; intros tbl Hdup.
  - destruct Hdup. constructor.
  - cbn [fmap list_fmap bulk_create uncurry].
    destruct (create tbl (new d n)) as [tbl'|] eqn:Hcreate; [|done]. simpl.
    destruct (decide ((d, n) ∈ pairs)) as [Hin|Hnotin].
    + apply (bulk_create_taken _ _ (new d n)).
      * apply list_elem_of_fmap. by exists (d, n).
      * by eapply taken_created.
    + apply IH. intros Hnd. apply Hdup. by constructor.
Qed.

(** ** One device *)

Lemma colliding_one_device tbl device names :
  uncurry Duplicate <$> colliding tbl (device_names [device] names) =
  Duplicate device <$> filter (fun name => taken tbl device name) names.
Proof.
  unfold colliding, device_names. cbn [mbind list_bind]. rewrite app_nil_r.
  induction names as [|name names IH]; [done|].
  cbn [fmap list_fmap]. rewrite !filter_cons. cbn [fst snd].
  case_decide; cbn [fmap list_fmap uncurry]; by rewrite <- IH.
Qed.

Lemma NoDup_device_names device names :
  NoDup (device_names [device] names) -> NoDup names.
Proof.
  unfold device_names. cbn [mbind list_bind]. rewrite app_nil_r.
  intros Hnd. eapply NoDup_fmap_1, Hnd.
Qed.

Lemma add_ports_collision tbl new device names :
  (exists name, name ∈ names /\ taken tbl device name) ->
  add_ports row_device row_name tbl new device names =
    (tbl, Render (Duplicate device <$>
                    filter (fun name => taken tbl device name) names)).
Proof.
  intros (name & Hin & Htaken). unfold add_ports.
  rewrite check_names, commit_errors; cbn [fst snd app].
  - by rewrite colliding_one_device.
  - intros Hnil%fmap_nil_inv. revert Hnil.
    apply (colliding_nonempty _ _ device name); [|done].
    unfold device_names. cbn [mbind list_bind]. rewrite app_nil_r.
    apply list_elem_of_fmap. by exists name.
Qed.

Lemma add_ports_duplicate tbl new device names :
  faithful row_device row_name new ->
  (forall name, name ∈ names -> ~ taken tbl device name) ->
  ~ NoDup names ->
  add_ports row_device row_name tbl new device names =
    (tbl, Unhandled IntegrityError).
Proof.
  intros Hnew Hfree Hdup. unfold add_ports. rewrite check_names.
  destruct (colliding_empty tbl (device_names [device] names)) as [Hc Ha].
  { intros d n. unfold device_names. cbn [mbind list_bind].
    rewrite app_nil_r. intros (n' & [= -> ->] & Hin)%list_elem_of_fmap. auto. }
  rewrite Hc, Ha. unfold commit. cbn [fst snd app fmap list_fmap].
  rewrite bulk_create_duplicate; [done..|].
  intros Hnd. by apply Hdup, (NoDup_device_names device).
Qed.

End PortCreation.

(** ** Results on the creation views *)

Lemma set_interfaces_id s : set_interfaces (interfaces s) s = s.
Proof. by destruct s. Qed.

Lemma faithful_new_interface data :
  faithful iface_device iface_name (new_interface data).
Proof. done. Qed.

Lemma faithful_new_port default_status :
  faithful port_device port_name (new_port default_status).
Proof. done. Qed.

(** C2 (amended).  For a creation request on one device, with a valid
    form, for interfaces ([interface_add]) and for console ports
    ([consoleport_add]): if a proposed name collides with a persisted port
    of that kind on the device, the store is left unchanged and the form
    is rendered with one error for every proposed name that collides with
    a persisted port.  Names that collide only with each other are not
    reported by the view: the batch is handed to the bulk insert of the
    store, whose uniqueness constraint refuses it as a whole, so that
    nothing is persisted and the view ends with the integrity error.  In
    particular, with an interface [eth0] on the device, the batch
    [eth0, eth1] creates nothing and reports the one duplicate [eth0]. *)
Theorem add_all_or_nothing :
  (forall s pk data,
     is_Some (devices s !! pk) ->
     let existing := taken iface_device iface_name (interfaces s) pk in
     let names := name_pattern data in
     ((exists name, name ∈ names /\ existing name) ->
        interface_add s pk (AddPost (Some data)) =
          (s, Render (Duplicate pk <$> filter existing names))) /\
     ((forall name, name ∈ names -> ~ existing name) -> ~ NoDup names ->
        interface_add s pk (AddPost (Some data)) =
          (s, Unhandled IntegrityError))) /\
  (forall default_status s pk names,
     is_Some (devices s !! pk) ->
     let existing := taken port_device port_name (console_ports s) pk in
     ((exists name, name ∈ names /\ existing name) ->
        consoleport_add default_status s pk (AddPost (Some names)) =
          (s, Render (Duplicate pk <$> filter existing names))) /\
     ((forall name, name ∈ names -> ~ existing name) -> ~ NoDup names ->
        consoleport_add default_status s pk (AddPost (Some names)) =
          (s, Unhandled IntegrityError))) /\
  interface_add sample_store 1
    (AddPost (Some {| name_pattern := ["eth0"; "eth1"]; icf_form_factor := 0;
                      icf_mgmt_only := false; icf_description := "" |})) =
    (sample_store, Render [Duplicate 1 "eth0"]).
Proof.
  split; [|split].
  - intros s pk data [d Hd] existing names. unfold interface_add.
    rewrite Hd. split.
    + intros Hcol. rewrite add_ports_collision by done.
      by rewrite set_interfaces_id.
    + intros Hfree Hdup.
      rewrite add_ports_duplicate by auto using faithful_new_interface.
      by rewrite set_interfaces_id.
  - intros default_status s pk names [d Hd] existing. unfold consoleport_add.
    rewrite Hd. split.
    + intros Hcol. rewrite add_ports_collision by done.
      by rewrite (Connections.set_ports_id Console).
    + intros Hfree Hdup.
      rewrite add_ports_duplicate by auto using faithful_new_port.
      by rewrite (Connections.set_ports_id Console).
  - by vm_compute.
Qed.

Lemma add_all_or_nothing_witness :
  let data := {| name_pattern := ["eth0"; "eth1"]; icf_form_factor := 0;
                 icf_mgmt_only := false; icf_description := "" |} in
  "eth0" ∈ name_pattern data /\
  taken iface_device iface_name (interfaces sample_store) 1 "eth0" /\
  interface_add sample_store 1 (AddPost (Some data)) =
    (sample_store,
     Render (Duplicate 1 <$>
               filter (taken iface_device iface_name (interfaces sample_store) 1)
                 (name_pattern data))).
Proof.
  intros data.
  assert ("eth0" ∈ name_pattern data) as Hin by (simpl; left).
  assert (taken iface_device iface_name (interfaces sample_store) 1 "eth0")
    as Htaken.
  { exists 1, {| iface_device := 1; iface_name := "eth0"; form_factor := 0;
                 mgmt_only := false; description := "" |}.
    split; [reflexivity|]. split; reflexivity. }
  split; [exact Hin|]. split; [exact Htaken|].
  destruct add_all_or_nothing as (Hiface & _).
  apply (Hiface sample_store 1 data); [eexists; reflexivity|].
  by exists "eth0".
Defined.

(** Two equal names on a device without ports: no name is reported and
    the view leaves with the integrity error of the store. *)
Lemma add_twice_the_same_name :
  let data := {| name_pattern := ["eth1"; "eth1"]; icf_form_factor := 0;
                 icf_mgmt_only := false; icf_description := "" |} in
  ~ NoDup (name_pattern data) /\
  interface_add sample_store 1 (AddPost (Some data)) =
    (sample_store, Unhandled IntegrityError) /\
  (forall errors,
     interface_add sample_store 1 (AddPost (Some data)) <>
       (sample_store, Render errors)).
Proof.
  intros data. split.
  - intros Hnd. apply NoDup_cons in Hnd as [Hnotin _]. apply Hnotin. left.
  - split; [by vm_compute|]. intros errors. vm_compute. congruence.
Qed.

(** the devices of [selected_devices] are those of the list that exist *)
Lemma elem_of_selected_devices s pk_list device :
  device ∈ selected_devices s pk_list <->
  device ∈ pk_list /\ is_Some (devices s !! device).
Proof.
  unfold selected_devices. rewrite list_elem_of_fmap. split.
  - intros ([pk d] & -> & [Hpk Hin]%list_elem_of_filter).
    apply elem_of_map_to_list in Hin. simpl in *. eauto.
  - intros (Hpk & d & Hd). exists (device, d). split; [done|].
    apply list_elem_of_filter. split; [done|]. by apply elem_of_map_to_list.
Qed.

Lemma elem_of_device_names device_pks names device name :
  (device, name) ∈ device_names device_pks names <->
  device ∈ device_pks /\ name ∈ names.
Proof.
  unfold device_names. rewrite list_elem_of_bind. split.
  - intros (d & (n & [= -> ->] & Hn)%list_elem_of_fmap & Hd). done.
  - intros [Hd Hn]. exists device. split; [|done].
    apply list_elem_of_fmap. by exists name.
Qed.

(** C3.  For a bulk creation request on several devices: the view goes
    through every (device, name) pair of every selected device before
    anything is committed.  If one pair collides with a persisted
    interface, the store is left unchanged, so that no interface is
    created on any device, and the form carries one more error for every
    colliding pair, in the order of the loops. *)
Theorem update_objects_all_or_nothing s pk_list data errors device name :
  device ∈ pk_list -> is_Some (devices s !! device) ->
  name ∈ name_pattern data ->
  taken iface_device iface_name (interfaces s) device name ->
  let pairs := device_names (selected_devices s pk_list) (name_pattern data) in
  let failing := colliding iface_device iface_name (interfaces s) pairs in
  update_objects s pk_list data errors =
    (s, Render (errors ++ (uncurry Duplicate <$> failing))) /\
  (forall d n, (d, n) ∈ failing <->
     (d ∈ pk_list /\ is_Some (devices s !! d)) /\ n ∈ name_pattern data /\
     taken iface_device iface_name (interfaces s) d n).
Proof.
  intros Hpk Hdev Hname Htaken pairs failing. split.
  - unfold update_objects.
    rewrite (check_device_names iface_device iface_name _ _ fst).
    fold (selected_devices s pk_list). fold pairs. cbn [fst snd].
    rewrite commit_errors; cbn [fst snd].
    + by rewrite set_interfaces_id.
    + intros [_ Hnil%fmap_nil_inv]%app_eq_nil. revert Hnil.
      apply (colliding_nonempty _ _ _ _ device name); [|done].
      apply elem_of_device_names. split; [|done].
      by apply elem_of_selected_devices.
  - intros d n. unfold failing, colliding. rewrite list_elem_of_filter.
    unfold pairs. rewrite elem_of_device_names, elem_of_selected_devices.
    cbn [fst snd]. tauto.
Qed.

Lemma update_objects_all_or_nothing_witness :
  let data := {| name_pattern := ["eth0"; "eth1"]; icf_form_factor := 0;
                 icf_mgmt_only := false; icf_description := "" |} in
  taken iface_device iface_name (interfaces sample_store) 1 "eth0" /\
  update_objects sample_store [1; 2] data [] =
    (sample_store, Render [Duplicate 1 "eth0"]).
Proof.
  intros data.
  assert (taken iface_device iface_name (interfaces sample_store) 1 "eth0")
    as Htaken.
  { exists 1, {| iface_device := 1; iface_name := "eth0"; form_factor := 0;
                 mgmt_only := false; description := "" |}.
    split; [reflexivity|]. split; reflexivity. }
  split; [exact Htaken|].
  destruct (update_objects_all_or_nothing sample_store [1; 2] data [] 1 "eth0")
    as [Heq _]; [left|eexists; reflexivity|left|exact Htaken|].
  rewrite Heq. reflexivity.
Defined.

End Provisioning.

(** ** The related-device heuristic *)

Module Related.
Import Re ReFacts.

(** *** Character classes *)

Lemma lower_char_digit a : is_digit (lower_char a) = is_digit a.
Proof. by destruct a as [[] [] [] [] [] [] [] []]. Qed.

Lemma lower_char_of_digit a : is_digit a = true -> lower_char a = a.
Proof. by destruct a as [[] [] [] [] [] [] [] []]. Qed.

Lemma lower_char_dot a : cmatch Dot (lower_char a) = cmatch Dot a.
Proof. by destruct a as [[] [] [] [] [] [] [] []]. Qed.

Lemma lower_not_digit a : is_lower a = true -> is_digit a = false.
Proof. by destruct a as [[] [] [] [] [] [] [] []]. Qed.

Lemma letter_not_digit a : is_letter a = true -> is_digit a = false.
Proof. by destruct a as [[] [] [] [] [] [] [] []]. Qed.

Lemma digit_dot a : is_digit a = true -> cmatch Dot a = true.
Proof. by destruct a as [[] [] [] [] [] [] [] []]. Qed.

Lemma lower_dot a : is_lower a = true -> cmatch Dot a = true.
Proof. by destruct a as [[] [] [] [] [] [] [] []]. Qed.

(** *** Strings *)

Lemma lower_app s t : lower (s +:+ t) = lower s +:+ lower t.
Proof. induction s; simpl; congruence. Qed.

Lemma no_newline_lower s : no_newline (lower s) <-> no_newline s.
Proof.
  unfold no_newline. induction s as [|a s IH]; [done|].
  cbn [lower all_in]. rewrite lower_char_dot, !andb_True. tauto.
Qed.

Lemma lower_nonempty s : s <> "" -> lower s <> "".
Proof. by destruct s. Qed.


Lemma ends_with_app f s t : t <> "" -> ends_with f (s +:+ t) = ends_with f t.
Proof.
  intros Ht. induction s as [|a s IH]; [done|].
  rewrite sapp_cons. cbn [ends_with]. rewrite IH.
  destruct (s +:+ t) eqn:Heq; [|done].
  destruct s, t; done.
Qed.

Lemma ends_with_all f c s :
  (forall a, cmatch c a = true -> f a = true) ->
  s <> "" -> all_in c s -> ends_with f s = true.
Proof.
  intros Hf. induction s as [|a s IH]; [done|]. intros _. cbn [all_in].
  rewrite andb_True. intros [Ha Hs]. destruct s as [|b s].
  - simpl. by apply Hf, Is_true_true.
  - change (ends_with f (String b s) = true). by apply IH.
Qed.

(** a non-empty string is a string followed by its last character *)
Lemma string_snoc s : s <> "" -> exists p c, s = p +:+ String c "".
Proof.
  induction s as [|a s IH]; [done|]. intros _. destruct s as [|b s].
  - by exists "", a.
  - destruct IH as (p & c & ->); [done|]. by exists (String a p), c.
Qed.

Lemma snoc_inj s t a b :
  s +:+ String a "" = t +:+ String b "" -> s = t /\ a = b.
Proof.
  revert t. induction s as [|x s IH]; intros [|y t]; simpl.
  - by intros [= ->].
  - intros [= -> Heq]. by destruct t.
  - intros [= -> Heq]. by destruct s.
  - intros [= -> Heq]. destruct (IH _ Heq) as [-> ->]. done.
Qed.

Lemma at_eol_inv s : no_newline s -> at_eol s = true -> s = "".
Proof.
  destruct s as [|a [|b s]]; [done| |done]. unfold no_newline. simpl.
  intros Ha Heq. by rewrite Heq in Ha.
Qed.

(** *** The tail of the patterns: [[0-9]+$] *)

Lemma digits_eol_intro go gc t :
  t <> "" -> all_in Digit t ->
  rmatch [Rep Digit Plus; Eol] go gc t = Some (MState go gc "").
Proof.
  destruct t as [|d t]; [done|]. intros _. cbn [all_in rmatch one].
  rewrite andb_True. intros [Hd Ht]. rewrite (Is_true_true_1 _ Hd).
  rewrite <- (sapp_nil_r t). by apply greedy_longest.
Qed.

Lemma digits_eol_inv go gc t m :
  no_newline t ->
  rmatch [Rep Digit Plus; Eol] go gc t = Some m ->
  t <> "" /\ all_in Digit t /\ m = MState go gc "".
Proof.
  intros Hnl. destruct t as [|d t]; [done|]. cbn [rmatch one].
  destruct (is_digit d) eqn:Hd; [|by simpl; rewrite Hd].
  simpl cmatch. rewrite Hd.
  intros (p & s' & -> & Hp & Hk)%greedy_inv.
  destruct (at_eol s') eqn:Heol; [|done]. injection Hk as <-.
  unfold no_newline in Hnl. cbn [all_in] in Hnl.
  rewrite all_in_app, !andb_True in Hnl. destruct Hnl as (_ & _ & Hs').
  apply at_eol_inv in Heol as ->; [|done].
  rewrite sapp_nil_r. cbn [all_in]. simpl cmatch. rewrite Hd. done.
Qed.

(** *** ['.+[0-9]+$'] *)

Lemma ends_in_digits_match name :
  no_newline name ->
  is_Some (re_match RE_ENDS_IN_DIGITS name) <->
  2 <= String.length name /\ ends_with is_digit name = true.
Proof.
  intros Hnl. unfold re_match, RE_ENDS_IN_DIGITS. cbn [rmatch]. split.
  - intros [m Hm]. destruct name as [|a s]; [done|]. simpl in Hm.
    destruct (negb (Ascii.eqb a newline)); [|done].
    apply greedy_inv in Hm as (p & s' & -> & Hp & Hk).
    unfold no_newline in Hnl. cbn [all_in] in Hnl.
    rewrite all_in_app, !andb_True in Hnl. destruct Hnl as (_ & _ & Hs').
    apply digits_eol_inv in Hk as (Hne & Hdigits & _); [|done]. split.
    + cbn [String.length]. rewrite sapp_length. destruct s'; [done|].
      simpl. lia.
    + rewrite <- sapp_cons, ends_with_app by done.
      by apply (ends_with_all _ Digit).
  - intros [Hlen Hend]. destruct name as [|a s]; [simpl in Hlen; lia|].
    destruct (string_snoc s) as (p & d & ->).
    { destruct s; [simpl in Hlen; lia|done]. }
    rewrite <- sapp_cons, ends_with_app in Hend by done. simpl in Hend.
    unfold no_newline in Hnl. cbn [all_in] in Hnl.
    rewrite all_in_app, !andb_True in Hnl. destruct Hnl as (Ha & Hp & _).
    cbn [one]. rewrite (Is_true_true_1 _ Ha).
    destruct (greedy Dot (rmatch [Rep Digit Plus; Eol] None None)
                (p +:+ String d "")) eqn:Hg; [eauto|].
    apply greedy_none in Hg; [|done].
    rewrite digits_eol_intro in Hg; [done|done|].
    simpl. by rewrite Hend.
Qed.

(** *** ['(.*?)[0-9]+$'] *)


(** *** ['.+\d[a-z]+$'] *)

Lemma digit_letters_eol d ls :
  is_digit d = true -> ls <> "" -> all_in Lower ls ->
  rmatch [Rep Digit One; Rep Lower Plus; Eol] None None (String d ls) =
    Some (MState None None "").
Proof.
  intros Hd Hne Hls. destruct ls as [|c ls]; [done|].
  cbn [all_in] in Hls. rewrite andb_True in Hls. destruct Hls as [Hc Hls].
  apply Is_true_true in Hc. simpl in Hc.
  cbn [rmatch one]. simpl cmatch. rewrite Hd, Hc.
  rewrite <- (sapp_nil_r ls). by apply greedy_longest.
Qed.

Lemma ends_in_letters_match l :
  no_newline l ->
  is_Some (re_match RE_ENDS_IN_LETTERS l) <->
  exists q d ls, l = q +:+ String d ls /\ q <> "" /\ is_digit d = true /\
    ls <> "" /\ all_in Lower ls.
Proof.
  intros Hnl. unfold re_match, RE_ENDS_IN_LETTERS. cbn [rmatch]. split.
  - intros [m Hm]. destruct l as [|a s]; [done|]. simpl in Hm.
    destruct (negb (Ascii.eqb a newline)); [|done].
    apply greedy_inv in Hm as (p & s' & -> & Hp & Hk).
    destruct s' as [|d [|c s']]; [done| |].
    { simpl in Hk. by destruct (is_digit d). }
    simpl in Hk. destruct (is_digit d) eqn:Hd; [|done].
    destruct (is_lower c) eqn:Hc; [|done].
    apply greedy_inv in Hk as (ls & s3 & -> & Hls & Hk).
    destruct (at_eol s3) eqn:Heol; [|done].
    unfold no_newline in Hnl. cbn [all_in] in Hnl.
    rewrite all_in_app in Hnl. cbn [all_in] in Hnl.
    rewrite all_in_app, !andb_True in Hnl.
    destruct Hnl as (_ & _ & _ & _ & _ & Hs3).
    apply at_eol_inv in Heol as ->; [|done].
    exists (String a p), d, (String c ls). rewrite sapp_nil_r.
    repeat split; try done. simpl. by rewrite Hc.
  - intros (q & d & ls & -> & Hq & Hd & Hls & Hlower).
    destruct q as [|a q]; [done|].
    unfold no_newline in Hnl. cbn [String.append all_in] in Hnl.
    rewrite all_in_app, !andb_True in Hnl. destruct Hnl as (Ha & Hq' & _).
    cbn [String.append one]. rewrite (Is_true_true_1 _ Ha).
    destruct (greedy Dot
                (rmatch [Rep Digit One; Rep Lower Plus; Eol] None None)
                (q +:+ String d ls)) eqn:Hg; [eauto|].
    apply greedy_none in Hg; [|done].
    by rewrite digit_letters_eol in Hg.
Qed.

(** *** ['(.*\d+)[a-z]$'] *)


(** *** The three branches of [base_name] *)





(** *** Results on the heuristic *)




(** Two or more letters after the digit: the second pattern finds no
    match and [group] is called on [None]. *)
Lemma base_name_two_letters :
  base_name "switch3ab" = Raise AttributeError /\
  forall s pk,
    related_devices s pk {| dev_name := Some "switch3ab" |} =
      Raise AttributeError.
Proof. split; [reflexivity|]. intros s pk. reflexivity. Qed.

End Related.

(** ** Listings of connections *)

Module Listings.

(** *** The order of the sort keys *)

#[local] Instance name_le_refl : Reflexive name_le.
Proof. intros [x|]; simpl; done. Qed.

#[local] Instance name_le_trans : Transitive name_le.
Proof.
  intros [x|] [y|] [z|]; simpl; try done. intros ??. by etrans.
Qed.

#[local] Instance name_le_total : Total name_le.
Proof. intros [x|] [y|]; simpl; auto. apply (total String.le). Qed.

#[local] Instance name_le_antisymm : AntiSymm (=) name_le.
Proof.
  intros [x|] [y|]; simpl; try done. intros ??. f_equal.
  by apply (anti_symm String.le).
Qed.

#[local] Instance key_le_trans : Transitive key_le.
Proof.
  intros [a1 a2] [b1 b2] [c1 c2] [H1 H2] [H3 H4]. simpl in *.
  split; simpl; [by etrans|]. intros ->.
  assert (b1 = c1) as -> by (by apply (anti_symm name_le)).
  etrans; eauto.
Qed.

#[local] Instance key_le_total : Total key_le.
Proof.
  intros [a1 a2] [b1 b2]. unfold key_le. simpl.
  destruct (decide (a1 = b1)) as [->|Hne].
  - destruct (total name_le a2 b2); [left|right]; split; done.
  - destruct (total name_le a1 b1); [left|right]; split; congruence.
Qed.

#[local] Instance key_le_antisymm : AntiSymm (=) key_le.
Proof.
  intros [a1 a2] [b1 b2] [H1 H2] [H3 H4]. simpl in *.
  assert (a1 = b1) as -> by (by apply (anti_symm name_le)).
  f_equal. apply (anti_symm name_le); auto.
Qed.

#[local] Instance by_key_trans {A} (key : A -> sort_key) :
  Transitive (by_key key).
Proof. intros x y z. unfold by_key. apply key_le_trans. Qed.

#[local] Instance by_key_total {A} (key : A -> sort_key) : Total (by_key key).
Proof. intros x y. unfold by_key. apply key_le_total. Qed.

(** *** [order_by] gives an ordered listing *)


Lemma elem_of_connections_queryset k s pk port :
  (pk, port) ∈ connections_queryset k s <->
  ports k s !! pk = Some port /\ partner port <> None.
Proof.
  unfold connections_queryset, order_by.
  rewrite merge_sort_Permutation, list_elem_of_filter, elem_of_map_to_list.
  unfold is_connected. simpl. tauto.
Qed.

(** *** The order in the words of the specification *)












(** The console connections of the sample store: [port1] of the console
    server comes before [port2]. *)
Lemma sample_console_connections :
  ConsoleConnectionsListView.queryset sample_store =
    [(3, {| port_device := 3; port_name := "con0"; partner := Some 1;
            connection_status := Some Planned |});
     (1, {| port_device := 1; port_name := "con0"; partner := Some 2;
            connection_status := Some Connected |})] /\
  (fun kv => partner_key Console sample_store kv.2) <$>
    ConsoleConnectionsListView.queryset sample_store =
    [(Some "console-server1", Some "port1");
     (Some "console-server1", Some "port2")].
Proof. split; by vm_compute. Qed.

End Listings.

(** ** More on the pattern expander *)

Module ExpanderMore.
Import Re ReFacts Expander.

Lemma range_nonempty lo hi : (lo <= hi)%N -> range lo (hi + 1) <> [].
Proof.
  intros Hle Hnil%(f_equal length). rewrite length_range in Hnil.
  simpl in Hnil. lia.
Qed.

(** X1.  [expand_pattern] terminates on every string: the remnant handed
    to the recursive call is strictly shorter than the string, the bound of
    the model is never reached, and every larger bound gives the same
    result. *)
Theorem expand_pattern_terminates s :
  (forall lead pattern remnant,
     re_split1 EXPANSION_PATTERN s = [lead; pattern; remnant] ->
     String.length remnant < String.length s) /\
  (exists g, expand_pattern s = Some g) /\
  (forall fuel, String.length s < fuel ->
     expand_fuel fuel s = expand_pattern s).
Proof.
  split; [apply remnant_shorter|]. split; [apply expand_pattern_total|].
  intros fuel Hfuel. apply expand_fuel_irrelevant; [done|lia].
Qed.

Lemma expand_fuel_tail segs tail :
  forall fuel, segs <> [] -> Forall valid_segment segs ->
    tail <> "" -> re_search EXPANSION_PATTERN tail = None ->
    String.length (template segs +:+ tail) < fuel ->
    expand_fuel fuel (template segs +:+ tail) = Some (gen_raise ValueError).
Proof.
  induction segs as [|g segs IH]; intros fuel Hne Hvalid Htail Hnone Hlen;
    [done|].
  apply Forall_cons in Hvalid as [(Hlead & Hx & Hy & Hle) Hvalid].
  destruct fuel as [|fuel]; [lia|]. cbn [expand_fuel template].
  rewrite !sapp_assoc.
  rewrite expansion_split by eauto using int_digits.
  rewrite str_split_range by eauto using int_digits.
  rewrite Hx, Hy. cbn [template] in Hlen. rewrite !sapp_length in Hlen.
  pose proof (length_bracket (seg_x g) (seg_y g)).
  assert (template segs +:+ tail <> "") as Hrem.
  { intros Heq%(f_equal String.length). rewrite sapp_length in Heq.
    destruct tail; [done|]. simpl in Heq. lia. }
  rewrite decide_False by done.
  assert (expand_fuel fuel (template segs +:+ tail)
          = Some (gen_raise ValueError)) as ->.
  { destruct segs as [|g' segs].
    - rewrite sapp_nil_l in *. destruct fuel as [|fuel]; [lia|].
      simpl. unfold re_split1. by rewrite Hnone.
    - apply IH; try done. rewrite sapp_length. lia. }
  simpl. f_equal.
  apply (gen_for_raise _ _ _ ValueError); [done|done|].
  by apply range_nonempty.
Qed.

(** X2.  Text after the last bracket: for a template of non-empty ranges
    followed by text that holds no bracket expression, iterating
    [expand_pattern] raises [ValueError] and yields no name. *)
Theorem expand_pattern_text_after_brackets segs tail :
  segs <> [] -> Forall valid_segment segs ->
  tail <> "" -> re_search EXPANSION_PATTERN tail = None ->
  expand_pattern (template segs +:+ tail) = Some (Gen [] (Some ValueError)).
Proof.
  intros. apply expand_fuel_tail; try done. lia.
Qed.

Lemma expand_pattern_text_after_brackets_witness :
  template [Segment "Gi" "1" "2" 1 2] +:+ "/0" = "Gi[1-2]/0" /\
  expand_pattern "Gi[1-2]/0" = Some (Gen [] (Some ValueError)).
Proof.
  split; [reflexivity|].
  apply (expand_pattern_text_after_brackets [Segment "Gi" "1" "2" 1 2] "/0").
  - done.
  - repeat constructor; reflexivity || (vm_compute; congruence).
  - done.
  - reflexivity.
Defined.

Lemma expand_fuel_ranges segs :
  forall fuel, segs <> [] -> Forall range_segment segs ->
    String.length (template segs) < fuel ->
    expand_fuel fuel (template segs) = Some (Gen (nested_loops segs) None).
Proof.
  induction segs as [|g segs IH]; intros fuel Hne Hvalid Hlen; [done|].
  apply Forall_cons in Hvalid as [(Hlead & Hx & Hy) Hvalid].
  destruct fuel as [|fuel]; [lia|]. cbn [expand_fuel template].
  rewrite expansion_split by eauto using int_digits.
  rewrite str_split_range by eauto using int_digits.
  rewrite Hx, Hy. cbn [template] in Hlen. rewrite !sapp_length in Hlen.
  pose proof (length_bracket (seg_x g) (seg_y g)).
  case_decide as Hrem.
  - destruct segs as [|g' segs]; [|by apply template_nonempty in Hrem].
    rewrite gen_for_ok by done. cbn [nested_loops yielded]. do 2 f_equal.
    apply list_bind_ext; [|done]. intros i. simpl. by rewrite sapp_nil_r.
  - destruct segs as [|g' segs]; [done|].
    rewrite IH by (done || lia). simpl.
    rewrite gen_for_ok by done. done.
Qed.

Lemma length_bind_const {A B} (f : A -> list B) n (l : list A) :
  (forall i, length (f i) = n) -> length (l ≫= f) = length l * n.
Proof.
  intros Hf. induction l as [|i l IH]; [done|].
  cbn [mbind list_bind]. simpl. rewrite length_app, Hf.
  simpl in IH. rewrite IH. done.
Qed.

Lemma length_loops segs : length (nested_loops segs) = range_product segs.
Proof.
  induction segs as [|g segs IH]; [done|].
  cbn [nested_loops range_product foldr]. fold (range_product segs).
  rewrite (length_bind_const _ (range_product segs)).
  - by rewrite length_range.
  - intros i. by rewrite length_fmap.
Qed.

Lemma range_product_zero segs :
  range_product segs = 0 <->
  Exists (fun g => (seg_hi g < seg_lo g)%N) segs.
Proof.
  induction segs as [|g segs IH]; cbn [range_product foldr].
  - rewrite Exists_nil. lia.
  - fold (range_product segs). rewrite Exists_cons, <- IH. nia.
Qed.

(** X3.  Ranges in any order of their bounds: for a template of bracketed
    ranges that ends with its last bracket, [expand_pattern] yields the
    strings of the nested loops and raises nothing; a range with
    [low > high] counts for no value, so the number of names is the
    product of the sizes of the ranges, and no name at all is yielded
    exactly when some range has its low bound above its high bound. *)
Theorem expand_pattern_ranges segs :
  segs <> [] -> Forall range_segment segs ->
  expand_pattern (template segs) = Some (Gen (nested_loops segs) None) /\
  length (nested_loops segs) = range_product segs /\
  (nested_loops segs = [] <->
   Exists (fun g => (seg_hi g < seg_lo g)%N) segs).
Proof.
  intros Hne Hsegs. split; [|split].
  - apply expand_fuel_ranges; try done. lia.
  - apply length_loops.
  - rewrite <- range_product_zero, <- length_loops.
    split; [by intros ->|apply nil_length_inv].
Qed.

Lemma expand_pattern_ranges_witness :
  template [Segment "xe-" "0" "1" 0 1; Segment "/" "5" "2" 5 2]
    = "xe-[0-1]/[5-2]" /\
  expand_pattern "xe-[0-1]/[5-2]" = Some (Gen [] None).
Proof.
  split; [reflexivity|].
  apply (expand_pattern_ranges
           [Segment "xe-" "0" "1" 0 1; Segment "/" "5" "2" 5 2]).
  - done.
  - repeat constructor; reflexivity.
Defined.

Lemma range_segment_canonical g : range_segment g -> range_segment (canonical g).
Proof.
  intros (Hlead & _ & _). split; [done|]. simpl. by rewrite !int_str.
Qed.

Lemma nested_loops_canonical segs :
  nested_loops (canonical <$> segs) = nested_loops segs.
Proof.
  induction segs as [|g segs IH]; [done|].
  cbn [fmap list_fmap nested_loops]. simpl in IH. rewrite IH. done.
Qed.

(** X4.  The bounds count by their value only: a template of bracketed
    ranges expands to the same names as the template in which every bound
    is rewritten without padding, so leading zeros of a bound are not kept
    in the names. *)
Theorem expand_pattern_padding segs :
  segs <> [] -> Forall range_segment segs ->
  expand_pattern (template segs)
  = expand_pattern (template (canonical <$> segs)).
Proof.
  intros Hne Hsegs.
  assert (canonical <$> segs <> []) as Hne' by by destruct segs.
  assert (Forall range_segment (canonical <$> segs)) as Hsegs'.
  { apply Forall_fmap, (Forall_impl _ _ _ Hsegs), range_segment_canonical. }
  unfold expand_pattern.
  rewrite !expand_fuel_ranges by (done || lia).
  by rewrite nested_loops_canonical.
Qed.

Lemma expand_pattern_padding_witness :
  template [Segment "ge-" "01" "03" 1 3] = "ge-[01-03]" /\
  template (canonical <$> [Segment "ge-" "01" "03" 1 3]) = "ge-[1-3]" /\
  expand_pattern "ge-[01-03]" = expand_pattern "ge-[1-3]".
Proof.
  split; [reflexivity|]. split; [reflexivity|].
  apply (expand_pattern_padding [Segment "ge-" "01" "03" 1 3]).
  - done.
  - repeat constructor; reflexivity.
Defined.

Lemma str_inj i j : str i = str j -> i = j.
Proof.
  intros Heq%(f_equal int). rewrite !int_str in Heq. congruence.
Qed.

Lemma sapp_inj_l s t u : s +:+ t = s +:+ u -> t = u.
Proof.
  induction s as [|a s IH]; [by rewrite !sapp_nil_l|].
  rewrite !sapp_cons. intros [= Heq]. auto.
Qed.

Lemma elem_of_range i lo stop : i ∈ range lo stop <-> (lo <= i < stop)%N.
Proof.
  unfold range. rewrite list_elem_of_fmap. split.
  - intros (k & -> & Hk%elem_of_seq). lia.
  - intros Hi. exists (N.to_nat (i - lo)). split; [lia|].
    apply elem_of_seq. lia.
Qed.

Lemma NoDup_range lo stop : NoDup (range lo stop).
Proof.
  unfold range. apply NoDup_fmap_2; [|apply NoDup_seq].
  intros j k Heq. lia.
Qed.

Lemma bind_singleton {A B} (f : A -> B) (l : list A) :
  l ≫= (fun i => [f i]) = f <$> l.
Proof.
  induction l as [|i l IH]; [done|].
  cbn [mbind list_bind fmap list_fmap]. simpl in *. by rewrite IH.
Qed.

Lemma expand_single_range lead x y lo hi :
  re_search EXPANSION_PATTERN lead = None ->
  int x = Some lo -> int y = Some hi ->
  expand_pattern (lead +:+ bracket x y)
  = Some (Gen ((fun i => lead +:+ str i) <$> range lo (hi + 1)) None).
Proof.
  intros Hlead Hx Hy.
  pose proof (expand_fuel_ranges [Segment lead x y lo hi]
                (S (String.length (lead +:+ bracket x y)))) as Hexp.
  cbn [template seg_lead seg_x seg_y] in Hexp.
  rewrite !sapp_nil_r in Hexp. unfold expand_pattern.
  rewrite Hexp; [| done | by repeat constructor | lia].
  do 2 f_equal. cbn [nested_loops seg_lead seg_lo seg_hi].
  rewrite <- bind_singleton. apply list_bind_ext; [|done].
  intros i. simpl. by rewrite sapp_nil_r.
Qed.

Lemma NoDup_single_range lead lo stop :
  NoDup ((fun i => lead +:+ str i) <$> range lo stop).
Proof.
  apply NoDup_fmap_2; [|apply NoDup_range].
  intros i j Heq. by apply str_inj, (sapp_inj_l lead).
Qed.

(** X5.  A template with one range: [expand_pattern] yields, without
    raising, exactly the names made of the leading text followed by an
    integer of the range, and it yields none of them twice. *)
Theorem expand_pattern_single_range lead x y lo hi :
  re_search EXPANSION_PATTERN lead = None ->
  int x = Some lo -> int y = Some hi ->
  exists names,
    expand_pattern (lead +:+ bracket x y) = Some (Gen names None) /\
    NoDup names /\
    forall name,
      name ∈ names <-> exists i, (lo <= i <= hi)%N /\ name = lead +:+ str i.
Proof.
  intros Hlead Hx Hy.
  exists ((fun i => lead +:+ str i) <$> range lo (hi + 1)).
  split; [by apply expand_single_range|].
  split; [apply NoDup_single_range|].
  intros name. rewrite list_elem_of_fmap. split.
  - intros (i & -> & Hi%elem_of_range). exists i. split; [lia|done].
  - intros (i & Hi & ->). exists i. split; [done|].
    apply elem_of_range. lia.
Qed.

Lemma expand_pattern_single_range_witness :
  exists names,
    expand_pattern ("eth" +:+ bracket "0" "3") = Some (Gen names None) /\
    NoDup names /\
    forall name,
      name ∈ names <-> exists i, (0 <= i <= 3)%N /\ name = "eth" +:+ str i.
Proof.
  apply (expand_pattern_single_range "eth" "0" "3" 0 3); reflexivity.
Defined.

End ExpanderMore.

(** ** More on the related-device heuristic *)

Module RelatedMore.
Import Re ReFacts Related.

Lemma lower_char_idemp a : lower_char (lower_char a) = lower_char a.
Proof. by destruct a as [[] [] [] [] [] [] [] []]. Qed.

Lemma lower_idemp s : lower (lower s) = lower s.
Proof. induction s; simpl; [done|]. by rewrite lower_char_idemp, IHs. Qed.

Lemma length_lower s : String.length (lower s) = String.length s.
Proof. induction s; simpl; congruence. Qed.

Lemma prefix_app p s : String.prefix p (p +:+ s) = true.
Proof. apply prefix_correct, substring_prefix. Qed.

Lemma strip_digits_inv name m :
  re_match RE_STRIP_DIGITS name = Some m ->
  exists p t, name = p +:+ t /\ t <> "" /\ group1 m = Some p.
Proof.
  unfold re_match, RE_STRIP_DIGITS. cbn [rmatch].
  intros (p & t & -> & _ & Hk)%lazy_inv. cbn [rmatch] in Hk.
  unfold one in Hk. destruct t as [|a t]; [done|].
  destruct (cmatch Digit a); [|done].
  apply greedy_inv in Hk as (ds & t' & -> & _ & Hk). cbn [rmatch] in Hk.
  destruct (at_eol t'); [|done]. injection Hk as <-.
  exists p, (String a (ds +:+ t')). split; [done|]. split; [done|].
  unfold group1. cbn [g_open g_close]. by rewrite between_app.
Qed.

Lemma strip_letter_inv l m :
  re_match RE_STRIP_LETTER l = Some m ->
  exists p d ds c t,
    l = (p +:+ String d ds) +:+ String c t /\
    is_digit d = true /\ all_in Digit ds /\ is_lower c = true /\
    at_eol t = true /\ group1 m = Some (p +:+ String d ds).
Proof.
  unfold re_match, RE_STRIP_LETTER. cbn [rmatch].
  intros (p & t & -> & _ & Hk)%greedy_inv.
  unfold one in Hk. destruct t as [|d t]; [done|].
  destruct (cmatch Digit d) eqn:Hd; [|done].
  apply greedy_inv in Hk as (ds & t' & -> & Hds & Hk). cbn [rmatch] in Hk.
  unfold one in Hk. destruct t' as [|c t']; [done|].
  destruct (cmatch Lower c) eqn:Hc; [|done].
  destruct (at_eol t') eqn:Heol; [|done]. injection Hk as <-.
  exists p, d, ds, c, t'. split; [by snorm|]. repeat (split; [done|]).
  unfold group1. cbn [g_open g_close].
  replace (p +:+ String d (ds +:+ String c t'))
    with ((p +:+ String d ds) +:+ String c t') by by snorm.
  by rewrite between_app.
Qed.

(** X6.  Whenever the heuristic of the [device] view finds a base name,
    the base name is strictly shorter than the device name and the device
    name starts with it, letter case apart. *)
Theorem base_name_prefix name base :
  base_name name = Ok (Some base) ->
  String.length base < String.length name /\
  istartswith base (Some name) = true.
Proof.
  unfold base_name, match_group1, istartswith.
  destruct (re_match RE_ENDS_IN_DIGITS name) as [m0|].
  - destruct (re_match RE_STRIP_DIGITS name) as [m|] eqn:Hm; [|done].
    apply strip_digits_inv in Hm as (p & t & -> & Ht & ->).
    intros [= <-]. split.
    + rewrite sapp_length. destruct t; [done|]. simpl. lia.
    + rewrite lower_app. apply prefix_app.
  - destruct (re_match RE_ENDS_IN_LETTERS (lower name)) as [m1|]; [|done].
    destruct (re_match RE_STRIP_LETTER (lower name)) as [m|] eqn:Hm; [|done].
    apply strip_letter_inv in Hm as (p & d & ds & c & t & Hl & _ & _ & _ & _ & ->).
    intros [= <-]. split.
    + rewrite <- (length_lower name), Hl, !sapp_length. simpl. lia.
    + rewrite <- (lower_idemp name), Hl.
      rewrite (lower_app (p +:+ String d ds)). apply prefix_app.
Qed.

Lemma base_name_prefix_witness :
  String.length "dist-switch3" < String.length "Dist-Switch3A" /\
  istartswith "dist-switch3" (Some "Dist-Switch3A") = true.
Proof. apply (base_name_prefix "Dist-Switch3A" "dist-switch3"). reflexivity. Defined.

(** X7.  The related devices of the [device] view: when the computation
    does not raise, at most ten devices are listed, none of them twice and
    never the device itself; each listed device is a stored device whose
    name starts, letter case apart, with the base name of the viewed
    device; and when fewer than ten are listed, every such stored device is
    listed. *)
Theorem related_devices_listed s pk device l :
  related_devices s pk device = Ok l ->
  length l <= 10 /\ NoDup l /\
  (forall k d, (k, d) ∈ l ->
     k <> pk /\ devices s !! k = Some d /\
     exists name base,
       dev_name device = Some name /\ base_name name = Ok (Some base) /\
       istartswith base (dev_name d) = true) /\
  (forall name base k d,
     dev_name device = Some name -> base_name name = Ok (Some base) ->
     base <> "" -> length l < 10 ->
     devices s !! k = Some d -> k <> pk ->
     istartswith base (dev_name d) = true -> (k, d) ∈ l).
Proof.
  assert (forall l : list (nat * Device), l = [] ->
    length l <= 10 /\ NoDup l /\
    (forall k d, (k, d) ∈ l ->
       k <> pk /\ devices s !! k = Some d /\
       exists name base,
         dev_name device = Some name /\ base_name name = Ok (Some base) /\
         istartswith base (dev_name d) = true)) as Hnil.
  { intros ? ->. split; [simpl; lia|]. split; [constructor|].
    intros k d Hin. by apply elem_of_nil in Hin. }
  unfold related_devices.
  destruct (dev_name device) as [[|a nm]|] eqn:Hname.
  - intros [= <-]. destruct (Hnil [] eq_refl) as (? & ? & ?).
    repeat (split; [done|]). intros name base k d [= <-]. done.
  - destruct (base_name (String a nm)) as [[[|b base]|]|e] eqn:Hbase;
      [| | |done].
    + intros [= <-]. destruct (Hnil [] eq_refl) as (? & ? & ?).
      repeat (split; [done|]). intros name base k d [= <-] Hb.
      rewrite Hbase in Hb. by injection Hb as <-.
    + intros [= <-].
      set (P := fun kv : nat * Device =>
                  istartswith (String b base) (dev_name kv.2) /\ kv.1 <> pk).
      split; [rewrite length_take; lia|]. split; [|split].
      * eapply sublist_NoDup; [|apply sublist_take].
        apply NoDup_filter, NoDup_map_to_list.
      * intros k d Hin%subseteq_take.
        apply list_elem_of_filter in Hin as [[Hpre Hpk] Hin].
        apply elem_of_map_to_list in Hin. simpl in *.
        split; [done|]. split; [done|].
        exists (String a nm), (String b base).
        split; [done|]. split; [done|]. by apply Is_true_true.
      * intros name base' k d [= <-] Hb _ Hlen Hk Hpk Hpre.
        rewrite Hbase in Hb. injection Hb as <-.
        rewrite length_take in Hlen. rewrite take_ge by lia.
        apply list_elem_of_filter. split.
        -- split; [by apply Is_true_true|done].
        -- by apply elem_of_map_to_list.
    + intros [= <-]. destruct (Hnil [] eq_refl) as (? & ? & ?).
      repeat (split; [done|]). intros name base k d [= <-] Hb.
      by rewrite Hbase in Hb.
  - intros [= <-]. destruct (Hnil [] eq_refl) as (? & ? & ?).
    repeat (split; [done|]). intros name base k d [=].
Qed.

Lemma related_devices_listed_witness :
  exists l,
    related_devices sample_store 1 {| dev_name := Some "core-switch1" |}
      = Ok l /\
    length l <= 10 /\ (3, {| dev_name := Some "core-switch2" |}) ∈ l.
Proof.
  eexists. split; [reflexivity|].
  destruct (related_devices_listed sample_store 1
              {| dev_name := Some "core-switch1" |} _ eq_refl)
    as (Hlen & _ & _ & Hall).
  split; [exact Hlen|].
  apply (Hall "core-switch1" "core-switch"); try reflexivity; try done.
  vm_compute. lia.
Defined.

Lemma all_in_snoc c s a :
  all_in c (s +:+ String a "") -> all_in c s /\ cmatch c a = true.
Proof.
  rewrite all_in_app. simpl. rewrite andb_true_r.
  intros [Hs Ha]%andb_True. split; [done|]. by apply Is_true_true.
Qed.

Lemma strip_letter_none q d ls :
  no_newline (q +:+ String d ls) ->
  2 <= String.length ls -> all_in Lower ls ->
  re_match RE_STRIP_LETTER (q +:+ String d ls) = None.
Proof.
  intros Hnl Hlen Hls.
  destruct (re_match RE_STRIP_LETTER (q +:+ String d ls)) as [m|] eqn:Hm;
    [exfalso|done].
  apply strip_letter_inv in Hm as (p & d' & ds & c & t & Hl & Hd' & Hds & _ & Heol & _).
  assert (t = "") as ->.
  { apply at_eol_inv; [|done]. rewrite Hl in Hnl. unfold no_newline in *.
    rewrite all_in_app in Hnl. simpl in Hnl.
    apply andb_True in Hnl as [_ Hnl]. apply andb_True in Hnl as [_ Hnl].
    done. }
  destruct (string_snoc ls) as (ls1 & c2 & ->);
    [destruct ls; [simpl in Hlen; lia|done]|].
  rewrite sapp_length in Hlen. simpl in Hlen.
  destruct (string_snoc ls1) as (ls0 & c1 & ->); [destruct ls1; simpl in *; [lia|done]|].
  apply all_in_snoc in Hls as [[_ Hc1]%all_in_snoc _].
  destruct (string_snoc (String d' ds)) as (u & e & Hu); [done|].
  assert (cmatch Digit e = true) as He.
  { assert (all_in Digit (String d' ds)) as Hall.
    { simpl. rewrite Hd'. done. }
    rewrite Hu in Hall. by apply all_in_snoc in Hall as [_ ?]. }
  rewrite Hu in Hl.
  replace (q +:+ String d ((ls0 +:+ String c1 "") +:+ String c2 ""))
    with (((q +:+ String d ls0) +:+ String c1 "") +:+ String c2 "")
    in Hl by by snorm.
  replace (p +:+ (u +:+ String e "")) with ((p +:+ u) +:+ String e "")
    in Hl by by snorm.
  apply snoc_inj in Hl as [Hl _]. apply snoc_inj in Hl as [_ ->].
  simpl in Hc1, He. apply lower_not_digit in Hc1. congruence.
Qed.

(** X8.  A device name that ends in a digit followed by two or more
    letters, with some text before the digit, passes the second test of the
    heuristic but not the pattern that cuts the base name: the computation
    of the base name raises [AttributeError], and so does the [device] view
    for every device of such a name. *)
Theorem base_name_letters_after_digit q d ls :
  no_newline q -> q <> "" -> is_digit d = true ->
  2 <= String.length ls -> all_in Lower (lower ls) ->
  base_name (q +:+ String d ls) = Raise AttributeError /\
  forall s pk,
    related_devices s pk {| dev_name := Some (q +:+ String d ls) |}
    = Raise AttributeError.
Proof.
  intros Hq Hne Hd Hlen Hls.
  assert (ls <> "") as Hls0 by (destruct ls; [simpl in Hlen; lia|done]).
  assert (no_newline (q +:+ String d ls)) as Hnl.
  { unfold no_newline in *. rewrite all_in_app. apply andb_True. split; [done|].
    cbn [all_in]. apply andb_True. split; [by rewrite digit_dot|].
    apply no_newline_lower. clear -Hls. unfold no_newline.
    induction (lower ls) as [|a l IH]; [done|]. cbn [all_in] in *.
    apply andb_True in Hls as [Ha Hl]. apply andb_True. split; [|auto].
    apply Is_true_true in Ha. by rewrite lower_dot. }
  assert (lower (q +:+ String d ls) = lower q +:+ String d (lower ls)) as Hlow.
  { rewrite lower_app. simpl. by rewrite lower_char_of_digit. }
  assert (base_name (q +:+ String d ls) = Raise AttributeError) as Hbase.
  { unfold base_name, match_group1.
    destruct (re_match RE_ENDS_IN_DIGITS _) as [m|] eqn:Hm.
    { assert (is_Some (re_match RE_ENDS_IN_DIGITS (q +:+ String d ls))) as Hs
        by by rewrite Hm.
      apply ends_in_digits_match in Hs as [_ Hs]; [|done].
      rewrite ends_with_app in Hs by done.
      change (String d ls) with (String d "" +:+ ls) in Hs.
      rewrite ends_with_app in Hs by done.
      destruct (string_snoc ls Hls0) as (ls1 & c & ->).
      rewrite ends_with_app in Hs by done. simpl in Hs.
      rewrite lower_app in Hls. apply all_in_snoc in Hls as [_ Hc].
      simpl in Hc. change (is_letter c = true) in Hc.
      apply letter_not_digit in Hc. congruence. }
    destruct (re_match RE_ENDS_IN_LETTERS _) as [m|] eqn:Hm'.
    - rewrite Hlow, strip_letter_none; [done| |by rewrite length_lower|done].
      rewrite <- Hlow. by apply no_newline_lower.
    - assert (is_Some (re_match RE_ENDS_IN_LETTERS (lower (q +:+ String d ls))))
        as Hs; [|by rewrite Hm' in Hs; destruct Hs].
      apply ends_in_letters_match; [by apply no_newline_lower|].
      exists (lower q), d, (lower ls). split; [done|].
      split; [by apply lower_nonempty|]. split; [done|].
      split; [by apply lower_nonempty|done]. }
  split; [done|]. intros s pk. unfold related_devices. cbn [dev_name].
  rewrite Hbase. destruct (q +:+ String d ls) eqn:Heq; [|done].
  by destruct q.
Qed.

Lemma base_name_letters_after_digit_witness :
  base_name ("sw" +:+ String "3" "ab") = Raise AttributeError /\
  forall s pk,
    related_devices s pk {| dev_name := Some ("sw" +:+ String "3" "ab") |}
    = Raise AttributeError.
Proof.
  apply (base_name_letters_after_digit "sw" "3" "ab");
    try reflexivity; try done.
Defined.

End RelatedMore.

(** ** More on the creation of ports *)

Module ProvisioningMore.
Import Provisioning.

Section PortCreation.
Context {Row : Type} (row_device : Row -> nat) (row_name : Row -> string).

#[local] Abbreviation is_taken := (taken row_device row_name).
#[local] Abbreviation insert_all := (bulk_create row_device row_name).
#[local] Abbreviation insert_one := (create row_device row_name).

Lemma fresh_key (tbl : gmap nat Row) : tbl !! fresh (dom tbl) = None.
Proof. apply not_elem_of_dom, is_fresh. Qed.

Lemma taken_insert (tbl : gmap nat Row) k r device name :
  tbl !! k = None ->
  is_taken (<[k := r]> tbl) device name <->
  (row_device r = device /\ row_name r = name) \/ is_taken tbl device name.
Proof. intros Hk. unfold taken. by rewrite map_Exists_insert. Qed.

Lemma create_free tbl r :
  ~ is_taken tbl (row_device r) (row_name r) ->
  insert_one tbl r = Some (<[fresh (dom tbl) := r]> tbl).
Proof. intros Hfree. unfold create. by rewrite decide_False. Qed.

Lemma inserted_nil (new : nat -> string -> Row) tbl : inserted new tbl tbl [].
Proof.
  split; [done|]. split; [simpl; lia|]. split.
  - intros k r Hk Hk'. congruence.
  - intros device name Hin. by apply elem_of_nil in Hin.
Qed.

Lemma inserted_cons (new : nat -> string -> Row) tbl tbl' device name pairs :
  inserted new (<[fresh (dom tbl) := new device name]> tbl) tbl' pairs ->
  inserted new tbl tbl' ((device, name) :: pairs).
Proof.
  pose proof (fresh_key tbl) as Hfresh.
  intros (Hsub & Hsize & Hnew & Hall). split; [|split; [|split]].
  - etrans; [|exact Hsub]. by apply insert_subseteq.
  - rewrite Hsize, map_size_insert_None by done. simpl. lia.
  - intros k r Hk Hk'. destruct (decide (k = fresh (dom tbl))) as [->|Hne].
    + exists device, name. split; [left|].
      eapply lookup_weaken in Hsub; [|apply lookup_insert_eq]. congruence.
    + destruct (Hnew k r Hk) as (d & n & Hin & ->).
      { by rewrite lookup_insert_ne. }
      exists d, n. split; [by right|done].
  - intros d n [[= -> ->]|Hin]%elem_of_cons.
    + exists (fresh (dom tbl)). split; [done|].
      eapply lookup_weaken; [apply lookup_insert_eq|done].
    + destruct (Hall d n Hin) as (k & Hk & Hk'). exists k. split; [|done].
      by apply lookup_insert_None in Hk as [? _].
Qed.

Lemma bulk_create_inserted new pairs :
  faithful row_device row_name new -> NoDup pairs ->
  forall tbl,
    (forall device name, (device, name) ∈ pairs -> ~ is_taken tbl device name) ->
    exists tbl',
      insert_all tbl (uncurry new <$> pairs) = Some tbl' /\
      inserted new tbl tbl' pairs.
Proof.
  intros Hnew. induction 1 as [|[d n] pairs Hnotin Hdup IH]; intros tbl Hfree.
  - exists tbl. split; [done|apply inserted_nil].
  - destruct (Hnew d n) as [Hd Hn].
    cbn [fmap list_fmap uncurry fst snd bulk_create].
    rewrite create_free; [|rewrite Hd, Hn; apply Hfree; left].
    cbn [mbind option_bind].
    destruct (IH (<[fresh (dom tbl) := new d n]> tbl)) as (tbl' & Hbulk & Hins).
    { intros d' n' Hin. rewrite taken_insert by apply fresh_key.
      rewrite Hd, Hn. intros [[-> ->]|Htaken]; [done|].
      eapply Hfree; [right; exact Hin|done]. }
    exists tbl'. split; [exact Hbulk|]. by apply inserted_cons.
Qed.

Lemma NoDup_one_device device names :
  NoDup names -> NoDup (device_names [device] names).
Proof.
  intros Hdup. unfold device_names. cbn [mbind list_bind]. simpl.
  rewrite app_nil_r. apply NoDup_fmap_2; [|done]. by intros n n' [= ->].
Qed.

Lemma add_ports_outcome tbl new device names :
  faithful row_device row_name new ->
  creation_outcome row_device row_name new device names tbl
    (add_ports row_device row_name tbl new device names).1
    (add_ports row_device row_name tbl new device names).2.
Proof.
  intros Hnew.
  destruct (decide (Exists (fun name => is_taken tbl device name) names))
    as [Hcol%Exists_exists|Hfree%Forall_Exists_neg].
  { rewrite add_ports_collision by done. split; [|split]; try done.
    split; [done|]. intros [Hfree _]. destruct Hcol as (name & Hin & Htaken).
    by destruct (Hfree name Hin). }
  assert (forall name, name ∈ names -> ~ is_taken tbl device name) as Hfree'.
  { intros name Hin. by apply (proj1 (Forall_forall _ _) Hfree). }
  destruct (decide (NoDup names)) as [Hdup|Hdup].
  - unfold add_ports. rewrite check_names. cbn [fst snd app].
    destruct (colliding_empty row_device row_name tbl
                (device_names [device] names)) as [-> ->].
    { intros d n [->%list_elem_of_singleton Hin]%elem_of_device_names.
      auto. }
    destruct (bulk_create_inserted new (device_names [device] names))
      with (tbl := tbl) as (tbl' & Hbulk & Hins); [done| | |].
    { by apply NoDup_one_device. }
    { intros d n [->%list_elem_of_singleton Hin]%elem_of_device_names.
      auto. }
    unfold commit. cbn [fst snd fmap list_fmap]. rewrite Hbulk. cbn [fst snd].
    split; [|split]; try done.
  - rewrite add_ports_duplicate by done. split; [|split]; try done.
    split; [done|]. by intros [_ ?].
Qed.

End PortCreation.

Lemma faithful_new_outlet : faithful outlet_device outlet_name new_outlet.
Proof. by intros device name. Qed.

Lemma outlets_set_outlets k tbl s : outlets k (set_outlets k tbl s) = tbl.
Proof. by destruct k. Qed.

(** X9.  The five creation views ([interface_add], [consoleport_add],
    [consoleserverport_add], [powerport_add], [poweroutlet_add]) on an
    existing device: the request succeeds exactly when none of the names is
    taken on the device and no name is proposed twice; on success the table
    of the view keeps every row under its key and gains, under new keys,
    exactly one row per name, built from the device, the name and the
    data of the form; in every other case the table is as it was.  No
    other table is written. *)
Theorem creation_views_outcome s pk :
  is_Some (devices s !! pk) ->
  (forall data,
     let r := interface_add s pk (AddPost (Some data)) in
     creation_outcome iface_device iface_name (new_interface data)
       pk (name_pattern data) (interfaces s) (interfaces r.1) r.2 /\
     r.1 = set_interfaces (interfaces r.1) s) /\
  (forall default_status names,
     let r := consoleport_add default_status s pk (AddPost (Some names)) in
     creation_outcome port_device port_name (new_port default_status)
       pk names (console_ports s) (console_ports r.1) r.2 /\
     r.1 = set_ports Console (console_ports r.1) s) /\
  (forall default_status names,
     let r := powerport_add default_status s pk (AddPost (Some names)) in
     creation_outcome port_device port_name (new_port default_status)
       pk names (power_ports s) (power_ports r.1) r.2 /\
     r.1 = set_ports Power (power_ports r.1) s) /\
  (forall k names,
     let r := outlet_add k s pk (AddPost (Some names)) in
     creation_outcome outlet_device outlet_name new_outlet
       pk names (outlets k s) (outlets k r.1) r.2 /\
     r.1 = set_outlets k (outlets k r.1) s).
Proof.
  intros [d Hd]. split; [|split; [|split]].
  - intros data. unfold interface_add. rewrite Hd.
    pose proof (add_ports_outcome iface_device iface_name (interfaces s)
                  (new_interface data) pk (name_pattern data)
                  (faithful_new_interface data)) as Hout.
    destruct (add_ports _ _ _ _ _ _) as [tbl' resp]. by split.
  - intros default_status names. unfold consoleport_add. rewrite Hd.
    pose proof (add_ports_outcome port_device port_name (console_ports s)
                  (new_port default_status) pk names
                  (faithful_new_port default_status)) as Hout.
    destruct (add_ports _ _ _ _ _ _) as [tbl' resp]. by split.
  - intros default_status names. unfold powerport_add. rewrite Hd.
    pose proof (add_ports_outcome port_device port_name (power_ports s)
                  (new_port default_status) pk names
                  (faithful_new_port default_status)) as Hout.
    destruct (add_ports _ _ _ _ _ _) as [tbl' resp]. by split.
  - intros k names. unfold outlet_add. rewrite Hd.
    pose proof (add_ports_outcome outlet_device outlet_name (outlets k s)
                  new_outlet pk names faithful_new_outlet) as Hout.
    destruct (add_ports _ _ _ _ _ _) as [tbl' resp]. cbn [fst snd].
    rewrite outlets_set_outlets. by split.
Qed.

Lemma creation_views_outcome_witness :
  let r := consoleserverport_add sample_store 2
             (AddPost (Some ["port4"; "port5"])) in
  creation_outcome outlet_device outlet_name new_outlet 2 ["port4"; "port5"]
    (cs_ports sample_store) (cs_ports r.1) r.2 /\
  r.2 = Redirect success /\ size (cs_ports r.1) = 5.
Proof.
  assert (is_Some (devices sample_store !! 2)) as Hdev
    by (eexists; reflexivity).
  split; [|split; reflexivity].
  exact (proj1 (proj2 (proj2 (proj2 (creation_views_outcome sample_store 2 Hdev)))
                  Console ["port4"; "port5"])).
Defined.


Lemma NoDup_selected_devices s pk_list : NoDup (selected_devices s pk_list).
Proof.
  unfold selected_devices.
  eapply sublist_NoDup; [apply (NoDup_fst_map_to_list (devices s))|].
  apply fmap_sublist, sublist_filter.
Qed.

Lemma NoDup_device_names_iff device_pks names :
  NoDup device_pks ->
  NoDup (device_names device_pks names) <-> device_pks = [] \/ NoDup names.
Proof.
  unfold device_names. induction 1 as [|d ds Hnotin Hdup IH].
  - split; [by left|]. intros _. constructor.
  - cbn [mbind list_bind]. simpl in IH. rewrite NoDup_app, IH.
    rewrite (NoDup_fmap (fun name => (d, name))).
    split.
    + intros (Hnames & _ & _). by right.
    + intros [?|Hnames]; [done|]. split; [done|]. split; [|by right].
      intros [d' n] [n' [[= -> ->] Hn']]%list_elem_of_fmap
             Hin%(elem_of_device_names ds names). by destruct Hin.
Qed.

(** X10.  [InterfaceBulkAddView.update_objects]: the interfaces are created
    exactly when the form carries no error, no (device, name) pair collides
    with a persisted interface and no pair occurs twice, which, the
    selected devices being distinct, means that no name is proposed twice
    unless no device is selected.  On success one interface per pair has
    been inserted under a new key and every persisted interface is kept;
    otherwise the store is as it was.  Only the table of interfaces is
    written. *)
Theorem update_objects_outcome s pk_list data errors :
  let pairs := device_names (selected_devices s pk_list) (name_pattern data) in
  let r := update_objects s pk_list data errors in
  (r.2 = Redirect success <->
     errors = [] /\
     (forall device name, (device, name) ∈ pairs ->
        ~ taken iface_device iface_name (interfaces s) device name) /\
     NoDup pairs) /\
  (NoDup pairs <->
     selected_devices s pk_list = [] \/ NoDup (name_pattern data)) /\
  (r.2 = Redirect success ->
     inserted (new_interface data) (interfaces s) (interfaces r.1) pairs) /\
  (r.2 <> Redirect success -> r.1 = s) /\
  r.1 = set_interfaces (interfaces r.1) s.
Proof.
  intros pairs r.
  assert (NoDup pairs <->
          selected_devices s pk_list = [] \/ NoDup (name_pattern data)) as Hnd.
  { apply NoDup_device_names_iff, NoDup_selected_devices. }
  cut ((r.2 = Redirect success <->
          errors = [] /\
          (forall device name, (device, name) ∈ pairs ->
             ~ taken iface_device iface_name (interfaces s) device name) /\
          NoDup pairs) /\
       (r.2 = Redirect success ->
          inserted (new_interface data) (interfaces s) (interfaces r.1) pairs) /\
       (r.2 <> Redirect success -> r.1 = s) /\
       r.1 = set_interfaces (interfaces r.1) s); [tauto|].
  unfold r, update_objects.
  rewrite (check_device_names iface_device iface_name _ _ fst).
  fold (selected_devices s pk_list). fold pairs. cbn [fst snd app].
  destruct (decide (Forall (fun p => ~ taken iface_device iface_name
                                        (interfaces s) p.1 p.2) pairs))
    as [Hfree|Hcol]; [|apply not_Forall_Exists in Hcol; [|apply _]].
  - rewrite Forall_forall in Hfree.
    destruct (colliding_empty iface_device iface_name (interfaces s) pairs)
      as [-> ->]; [intros d n Hin; exact (Hfree (d, n) Hin)|].
    cbn [fmap list_fmap]. rewrite app_nil_r.
    destruct errors as [|e errors].
    + unfold commit. cbn [fst snd].
      destruct (decide (NoDup pairs)) as [Hdup|Hdup].
      * destruct (bulk_create_inserted iface_device iface_name
                    (new_interface data) pairs (faithful_new_interface data)
                    Hdup (interfaces s)) as (tbl' & -> & Hins).
        { intros d n Hin. exact (Hfree (d, n) Hin). }
        cbn [fst snd set_interfaces interfaces].
        split; [|by split]. split; [|done]. intros _.
        split; [done|]. split; [|done]. intros d n Hin. exact (Hfree (d, n) Hin).
      * rewrite bulk_create_duplicate
          by auto using faithful_new_interface.
        cbn [fst snd]. rewrite !set_interfaces_id.
        split; [|by split]. split; [done|]. by intros (_ & _ & ?).
    + rewrite commit_errors by done. cbn [fst snd].
      rewrite !set_interfaces_id.
      split; [|by split]. split; [done|]. by intros ([=] & _).
  - rewrite commit_errors; cbn [fst snd].
    + rewrite !set_interfaces_id. split; [|by split]. split; [done|].
      intros (_ & Hfree & _). apply Exists_exists in Hcol as ([d n] & Hin & Ht).
      destruct Ht. by apply Hfree.
    + intros [_ Hnil%fmap_nil_inv]%app_eq_nil. revert Hnil.
      apply Exists_exists in Hcol as ([d n] & Hin & Ht).
      apply (colliding_nonempty _ _ _ _ d n); [done|].
      cbn [fst snd] in Ht. by apply dec_stable.
Qed.


Lemma filter_ext_in {A} (P Q : A -> Prop) `{!forall x, Decision (P x)}
    `{!forall x, Decision (Q x)} (l : list A) :
  (forall x, x ∈ l -> P x <-> Q x) -> filter P l = filter Q l.
Proof.
  induction l as [|x l IH]; intros Hext; [done|].
  rewrite !filter_cons, IH.
  - pose proof (Hext x (list_elem_of_here x l)).
    destruct (decide (P x)), (decide (Q x)); tauto || done.
  - intros y Hy. apply Hext. by right.
Qed.

(** X11.  The selection of [InterfaceBulkAddView.update_objects] counts
    as a set of existing devices: two lists of primary keys that hold the
    same existing devices give the same store and the same answer, so a
    key that is repeated or that belongs to no device changes nothing. *)
Theorem update_objects_selection s pk_list pk_list' data errors :
  (forall device, is_Some (devices s !! device) ->
     device ∈ pk_list <-> device ∈ pk_list') ->
  update_objects s pk_list data errors = update_objects s pk_list' data errors.
Proof.
  intros Hsame. unfold update_objects.
  rewrite (filter_ext_in (fun kv : nat * Device => kv.1 ∈ pk_list)
             (fun kv => kv.1 ∈ pk_list')); [done|].
  intros [device d] Hin%elem_of_map_to_list. apply Hsame. by exists d.
Qed.

Lemma update_objects_selection_witness :
  let data := {| name_pattern := ["eth1"]; icf_form_factor := 0;
                 icf_mgmt_only := false; icf_description := "" |} in
  update_objects sample_store [3; 7; 3; 1] data [] =
  update_objects sample_store [1; 3] data [].
Proof.
  intros data. apply update_objects_selection.
  intros device [d Hd]. unfold sample_store in Hd. cbn [devices] in Hd.
  rewrite !elem_of_cons, !elem_of_nil.
  destruct (decide (device = 1)) as [->|?]; [tauto|].
  destruct (decide (device = 3)) as [->|?]; [tauto|].
  destruct (decide (device = 2)) as [->|?]; [lia|].
  by rewrite !lookup_insert_ne, lookup_singleton_ne in Hd.
Defined.

End ProvisioningMore.

(** ** More on connections *)

Module ConnectionsMore.
Import Connections Listings.




Lemma partner_key_set_ports k tbl s port :
  partner_key k (set_ports k tbl s) port = partner_key k s port.
Proof.
  unfold partner_key, device_name.
  by rewrite outlets_set_ports, devices_set_ports.
Qed.

Lemma listed_after_save k s pk port pk' port' :
  (pk', port') ∈ connections_queryset k (write_port k pk port s) <->
  (pk' = pk /\ port' = port /\ partner port <> None) \/
  (pk' <> pk /\ (pk', port') ∈ connections_queryset k s).
Proof.
  rewrite !elem_of_connections_queryset, ports_write_port.
  destruct (decide (pk' = pk)) as [->|Hne].
  - rewrite lookup_insert_eq. split.
    + intros [[= <-] Hp]. by left.
    + intros [(_ & -> & Hp)|[? _]]; done.
  - rewrite lookup_insert_ne by done. split.
    + intros [Hport Hp]. by right.
    + intros [[? _]|[_ ?]]; done.
Qed.

(** X13.  The connection listings follow the connection views.  When a
    console or power port is connected, through its connection view, to a
    partner that no other port refers to, the request succeeds and the
    listing of its kind holds the port with its new partner and status,
    under the sort key made of the name of the partner's device and the
    name of the partner, and, of the other ports, exactly the entries it
    held before, each under the key it had.  When another port refers to
    the chosen partner, the listing is as it was.  After a confirmed
    disconnect of the port the listing holds exactly the entries of the
    other ports, each under the key it had. *)
Theorem connections_listing_follows k s pk port :
  ports k s !! pk = Some port ->
  (forall chosen outlet st,
     outlets k s !! chosen = Some outlet ->
     (forall pk' port', ports k s !! pk' = Some port' ->
        partner port' = Some chosen -> pk' = pk) ->
     let s' := (port_connect k s pk (ConnectPost chosen st)).1 in
     let port1 := connect_to chosen st port in
     (port_connect k s pk (ConnectPost chosen st)).2 = Redirect success /\
     (forall pk' port',
        (pk', port') ∈ connections_queryset k s' <->
        (pk' = pk /\ port' = port1) \/
        (pk' <> pk /\ (pk', port') ∈ connections_queryset k s)) /\
     (partner port1 = Some chosen /\ connection_status port1 = Some st /\
      port_device port1 = port_device port /\
      port_name port1 = port_name port) /\
     partner_key k s' port1
       = (devices s !! outlet_device outlet ≫= dev_name,
          Some (outlet_name outlet)) /\
     (forall pk' port',
        pk' <> pk -> (pk', port') ∈ connections_queryset k s ->
        partner_key k s' port' = partner_key k s port')) /\
  (forall chosen st pk' port',
     is_Some (outlets k s !! chosen) ->
     pk' <> pk -> ports k s !! pk' = Some port' ->
     partner port' = Some chosen ->
     connections_queryset k (port_connect k s pk (ConnectPost chosen st)).1
     = connections_queryset k s) /\
  (forall request,
     confirmed request = true ->
     let s' := (port_disconnect k s pk request).1 in
     (forall pk' port',
        (pk', port') ∈ connections_queryset k s' <->
        pk' <> pk /\ (pk', port') ∈ connections_queryset k s) /\
     (forall pk' port',
        pk' <> pk -> (pk', port') ∈ connections_queryset k s ->
        partner_key k s' port' = partner_key k s port')).
Proof.
  intros Hport. split; [|split].
  - intros chosen outlet st Hchosen Hfree.
    unfold port_connect, connection_form_is_valid.
    rewrite Hport, bool_decide_eq_true_2 by done.
    rewrite (save_port_free k pk _ chosen) by done. cbn [after_save fst snd].
    split; [done|]. split; [|split; [done|split]].
    + intros pk' port'. rewrite listed_after_save. cbn [connect_to partner].
      split.
      * intros [(-> & -> & _)|?]; [by left|by right].
      * intros [[-> ->]|?]; [by left|by right].
    + unfold write_port. rewrite partner_key_set_ports.
      unfold partner_key, device_name. cbn [connect_to partner mbind option_bind].
      by rewrite Hchosen.
    + intros pk' port' _ _. apply partner_key_set_ports.
  - intros chosen st pk' port' Hchosen Hne Hrow Hp.
    unfold port_connect, connection_form_is_valid.
    rewrite Hport, bool_decide_eq_true_2 by done.
    by rewrite (save_port_held k pk _ chosen s pk' port').
  - intros request Hconfirmed. unfold port_disconnect.
    rewrite Hport, Hconfirmed, save_port_clear.
    destruct (partner port) as [o|] eqn:Hpartner; cbn [after_save fst].
    + split; [|intros pk' port' _ _; apply partner_key_set_ports].
      intros pk' port'. rewrite listed_after_save. cbn [clear partner].
      split; [by intros [(_ & _ & ?)|?]|by right].
    + split; [|done]. intros pk' port'. split; [|by intros [_ ?]].
      intros Hin. split; [|done]. intros ->.
      apply elem_of_connections_queryset in Hin as [Hport' Hp]. congruence.
Qed.

Lemma connections_listing_follows_witness :
  (2, connect_to 3 Planned
        {| port_device := 1; port_name := "con1"; partner := None;
           connection_status := None |})
    ∈ ConsoleConnectionsListView.queryset
        (consoleport_connect sample_store 2 (ConnectPost 3 Planned)).1.
Proof.
  destruct (connections_listing_follows Console sample_store 2 _ eq_refl)
    as [Hconnect _].
  destruct (Hconnect 3 {| outlet_device := 2; outlet_name := "port3" |}
              Planned eq_refl) as (_ & Hlisted & _).
  - intros pk' port' Hrow Hp.
    change (ports Console sample_store) with (console_ports sample_store) in Hrow.
    cbn [sample_store console_ports] in Hrow.
    apply lookup_insert_Some in Hrow as [[_ <-]|[_ Hrow]]; [done|].
    apply lookup_insert_Some in Hrow as [[<- _]|[_ Hrow]]; [done|].
    apply lookup_singleton_Some in Hrow as [_ <-]. done.
  - apply Hlisted. by left.
Defined.

(** X14.  [consoleport_delete] and [powerport_delete] on an existing port:
    without a confirmed request nothing changes; a confirmed request
    removes the row of the port and no other row of any table, the port
    leaves the connection listing while the entries of the other ports
    stay, the partner it referred to, if no other port refers to it, is
    left without a connected port, and a second delete of the same key
    answers 404. *)
Theorem port_delete_spec k s pk port request :
  ports k s !! pk = Some port ->
  (confirmed request = false -> port_delete k s pk request = (s, Render [])) /\
  (confirmed request = true ->
     let s' := (port_delete k s pk request).1 in
     (port_delete k s pk request).2 = Redirect success /\
     ports k s' !! pk = None /\
     (forall pk', pk' <> pk -> ports k s' !! pk' = ports k s !! pk') /\
     s' = set_ports k (ports k s') s /\
     (forall pk' port',
        (pk', port') ∈ connections_queryset k s' <->
        pk' <> pk /\ (pk', port') ∈ connections_queryset k s) /\
     (forall outlet_pk,
        partner port = Some outlet_pk ->
        (forall pk' port', ports k s !! pk' = Some port' ->
           partner port' = Some outlet_pk -> pk' = pk) ->
        connected_port k s' outlet_pk = None) /\
     port_delete k s' pk request = (s', Http404)).
Proof.
  intros Hport. unfold port_delete. rewrite Hport. split; [by intros ->|].
  intros ->. cbn [fst snd]. rewrite ports_set_ports.
  split; [done|]. split; [apply lookup_delete_eq|].
  split; [by intros pk' Hne; rewrite lookup_delete_ne|].
  split; [done|]. split; [|split].
  - intros pk' port'. rewrite !elem_of_connections_queryset, ports_set_ports.
    rewrite lookup_delete_Some. split.
    + intros [[Hne ?] ?]. split; [by intros ->|done].
    + intros [Hne [? ?]]. split; [|done]. split; [by intros ->|done].
  - intros outlet_pk Hpartner Hunique. apply connected_port_None.
    intros pk' port'. rewrite ports_set_ports.
    intros [Hne Hport']%lookup_delete_Some Hp.
    apply Hne. symmetry. by apply (Hunique pk' port').
  - by rewrite lookup_delete_eq.
Qed.

Lemma port_delete_spec_witness :
  (consoleport_delete sample_store 1 confirmed_post).2 = Redirect success /\
  console_ports (consoleport_delete sample_store 1 confirmed_post).1 !! 1
    = None /\
  connected_port Console (consoleport_delete sample_store 1 confirmed_post).1 2
    = None.
Proof.
  destruct (port_delete_spec Console sample_store 1 _ confirmed_post eq_refl)
    as [_ Hdel].
  destruct (Hdel eq_refl) as (Hok & Hgone & _ & _ & _ & Hfree & _).
  split; [exact Hok|]. split; [exact Hgone|].
  apply Hfree; [reflexivity|].
  intros pk' port' Hport' Hp.
  unfold sample_store in Hport'. cbn [ports console_ports] in Hport'.
  destruct (decide (pk' = 1)) as [->|?]; [done|].
  destruct (decide (pk' = 2)) as [->|?].
  { rewrite lookup_insert_ne, lookup_insert_eq in Hport' by done.
    injection Hport' as <-. done. }
  destruct (decide (pk' = 3)) as [->|?].
  { rewrite !lookup_insert_ne, lookup_singleton_eq in Hport' by done.
    injection Hport' as <-. done. }
  by rewrite !lookup_insert_ne, lookup_singleton_ne in Hport'.
Defined.

Lemma add_after_delete (tbl : gmap nat Port) pk port default_status :
  tbl !! pk = Some port ->
  (forall pk' port', tbl !! pk' = Some port' ->
     port_device port' = port_device port ->
     port_name port' = port_name port -> pk' = pk) ->
  let r := add_ports port_device port_name (delete pk tbl)
             (new_port default_status) (port_device port) [port_name port] in
  r.2 = Redirect success /\
  inserted (new_port default_status) (delete pk tbl) r.1
    [(port_device port, port_name port)] /\
  add_ports port_device port_name tbl (new_port default_status)
    (port_device port) [port_name port]
  = (tbl, Render [Duplicate (port_device port) (port_name port)]).
Proof.
  intros Hport Hunique r.
  destruct (ProvisioningMore.add_ports_outcome port_device port_name
              (delete pk tbl) (new_port default_status) (port_device port)
              [port_name port] (Provisioning.faithful_new_port default_status))
    as (Hok & Hins & _).
  fold r in Hok, Hins.
  assert (r.2 = Redirect success) as Hr.
  { apply Hok. split; [|repeat constructor; by intros ?%elem_of_nil].
    intros name ->%list_elem_of_singleton (pk' & port' & Hin & Hd & Hn).
    apply lookup_delete_Some in Hin as [Hne Hin].
    apply Hne. symmetry. by apply (Hunique pk' port'). }
  split; [done|]. split; [by apply Hins|].
  assert (taken port_device port_name tbl (port_device port) (port_name port))
    as Htaken by (by exists pk, port).
  rewrite Provisioning.add_ports_collision.
  - rewrite filter_cons, decide_True by done. by rewrite filter_nil.
  - exists (port_name port). split; [apply list_elem_of_singleton|]; done.
Qed.

(** X15.  Deleting a port frees its name.  For a console port and for a
    power port whose name is borne by no other port of its device: a
    request to create a port of that name on the device is refused with
    one duplicate error while the port exists, and after the confirmed
    delete of the port it succeeds and inserts one port of that name,
    which has no partner. *)
Theorem port_delete_then_add default_status s pk port request :
  confirmed request = true ->
  is_Some (devices s !! port_device port) ->
  let device := port_device port in
  let name := port_name port in
  let names_apart (tbl : gmap nat Port) :=
    forall pk' port', tbl !! pk' = Some port' ->
      port_device port' = device -> port_name port' = name -> pk' = pk in
  (console_ports s !! pk = Some port -> names_apart (console_ports s) ->
     let s1 := (consoleport_delete s pk request).1 in
     let r := consoleport_add default_status s1 device (AddPost (Some [name])) in
     consoleport_add default_status s device (AddPost (Some [name]))
       = (s, Render [Duplicate device name]) /\
     r.2 = Redirect success /\
     inserted (new_port default_status) (console_ports s1) (console_ports r.1)
       [(device, name)]) /\
  (power_ports s !! pk = Some port -> names_apart (power_ports s) ->
     let s1 := (powerport_delete s pk request).1 in
     let r := powerport_add default_status s1 device (AddPost (Some [name])) in
     powerport_add default_status s device (AddPost (Some [name]))
       = (s, Render [Duplicate device name]) /\
     r.2 = Redirect success /\
     inserted (new_port default_status) (power_ports s1) (power_ports r.1)
       [(device, name)]) /\
  partner (new_port default_status device name) = None.
Proof.
  intros Hconfirmed [d Hd] device name names_apart.
  subst device name names_apart. cbv beta.
  split; [|split; [|done]].
  - intros Hport Hunique.
    destruct (add_after_delete (console_ports s) pk port default_status
                Hport Hunique) as (Hok & Hins & Hdup).
    unfold consoleport_delete, port_delete, consoleport_add.
    cbn [ports]. rewrite Hport, Hconfirmed. cbn [fst].
    rewrite devices_set_ports, Hd, Hdup.
    split; [by rewrite (set_ports_id Console)|].
    cbn [console_ports set_ports] in *.
    destruct (add_ports _ _ _ _ _ _) as [tbl' resp]. by split.
  - intros Hport Hunique.
    destruct (add_after_delete (power_ports s) pk port default_status
                Hport Hunique) as (Hok & Hins & Hdup).
    unfold powerport_delete, port_delete, powerport_add.
    cbn [ports]. rewrite Hport, Hconfirmed. cbn [fst].
    rewrite devices_set_ports, Hd, Hdup.
    split; [by rewrite (set_ports_id Power)|].
    cbn [power_ports set_ports] in *.
    destruct (add_ports _ _ _ _ _ _) as [tbl' resp]. by split.
Qed.

Lemma port_delete_then_add_witness :
  let s1 := (consoleport_delete sample_store 2 confirmed_post).1 in
  consoleport_add None sample_store 1 (AddPost (Some ["con1"]))
    = (sample_store, Render [Duplicate 1 "con1"]) /\
  (consoleport_add None s1 1 (AddPost (Some ["con1"]))).2 = Redirect success.
Proof.
  intros s1.
  assert (is_Some (devices sample_store !! 1)) as Hdev
    by (eexists; reflexivity).
  destruct (port_delete_then_add None sample_store 2
              {| port_device := 1; port_name := "con1"; partner := None;
                 connection_status := None |} confirmed_post eq_refl Hdev)
    as [Hconsole _].
  destruct Hconsole as (Hdup & Hok & _); [reflexivity| |by split].
  intros pk' port' Hport' Hd Hn.
  unfold sample_store in Hport'. cbn [console_ports] in Hport'.
  destruct (decide (pk' = 2)) as [->|?]; [done|].
  destruct (decide (pk' = 1)) as [->|?].
  { rewrite lookup_insert_eq in Hport'. injection Hport' as <-. done. }
  destruct (decide (pk' = 3)) as [->|?].
  { rewrite !lookup_insert_ne, lookup_singleton_eq in Hport' by done.
    injection Hport' as <-. done. }
  by rewrite !lookup_insert_ne, lookup_singleton_ne in Hport'.
Defined.

Lemma set_interface_connections_id s :
  set_interface_connections (interface_connections s) s = s.
Proof. by destruct s. Qed.

Lemma elem_of_interface_connections s pk c :
  (pk, c) ∈ InterfaceConnectionsListView.queryset s <->
  interface_connections s !! pk = Some c.
Proof.
  unfold InterfaceConnectionsListView.queryset, order_by.
  by rewrite merge_sort_Permutation, elem_of_map_to_list.
Qed.

(** X16.  [interfaceconnection_delete] on an existing connection: a [GET]
    and a [POST] whose form is not valid leave the store as it was; a
    [POST] with a valid form removes the connection and writes nothing
    else, so the two interfaces stay, the listing of interface
    connections loses this entry and keeps every other entry with its sort
    key, and a second delete of the same key answers 404. *)
Theorem interfaceconnection_delete_spec s pk c :
  interface_connections s !! pk = Some c ->
  interfaceconnection_delete s pk DeletionGet = (s, Render []) /\
  interfaceconnection_delete s pk (DeletionPost None) = (s, Render [Invalid]) /\
  (forall device,
     let request := DeletionPost (Some device) in
     let s' := (interfaceconnection_delete s pk request).1 in
     (interfaceconnection_delete s pk request).2 = Redirect success /\
     s' = set_interface_connections (delete pk (interface_connections s)) s /\
     interfaces s' = interfaces s /\
     (forall pk' c',
        (pk', c') ∈ InterfaceConnectionsListView.queryset s' <->
        pk' <> pk /\ (pk', c') ∈ InterfaceConnectionsListView.queryset s) /\
     (forall c', interface_a_key s' c' = interface_a_key s c') /\
     interfaceconnection_delete s' pk request = (s', Http404)).
Proof.
  intros Hc. unfold interfaceconnection_delete. rewrite Hc.
  split; [done|]. split; [done|]. intros device. cbn [fst snd].
  split; [done|]. split; [done|]. split; [done|]. split; [|split; [done|]].
  - intros pk' c'. rewrite !elem_of_interface_connections.
    cbn [interface_connections set_interface_connections].
    rewrite lookup_delete_Some. split.
    + intros [Hne ?]. split; [by intros ->|done].
    + intros [Hne ?]. split; [by intros ->|done].
  - cbn [interface_connections set_interface_connections].
    by rewrite lookup_delete_eq.
Qed.

Lemma interfaceconnection_delete_spec_witness :
  let s := set_interface_connections
             {[ 7 := {| interface_a := 1; interface_b := 2;
                        ic_connection_status := Some Connected |} ]}
             sample_store in
  interfaceconnection_delete s 7 (DeletionPost (Some None))
    = (sample_store, Redirect success).
Proof.
  intros s.
  destruct (interfaceconnection_delete_spec s 7 _ eq_refl)
    as (_ & _ & Hpost).
  destruct (Hpost None) as (Hok & Hs & _).
  rewrite (surjective_pairing (interfaceconnection_delete s 7 _)), Hok, Hs.
  reflexivity.
Defined.

End ConnectionsMore.

(** ** The page of a device *)

Module DevicePage.
Import Provisioning ProvisioningMore.

Lemma elem_of_of_device {Row} (row_device : Row -> nat) pk tbl k r :
  (k, r) ∈ of_device row_device pk tbl <->
  tbl !! k = Some r /\ row_device r = pk.
Proof.
  unfold of_device. rewrite list_elem_of_filter, elem_of_map_to_list.
  simpl. tauto.
Qed.

Lemma elem_of_device_interfaces s pk mgmt k i :
  (k, i) ∈ device_interfaces s pk mgmt <->
  interfaces s !! k = Some i /\ iface_device i = pk /\ mgmt_only i = mgmt.
Proof.
  unfold device_interfaces. rewrite list_elem_of_filter, elem_of_map_to_list.
  simpl. tauto.
Qed.

Lemma device_interfaces_split s pk :
  device_interfaces s pk false ++ device_interfaces s pk true
  ≡ₚ of_device iface_device pk (interfaces s).
Proof.
  unfold device_interfaces, of_device.
  induction (map_to_list (interfaces s)) as [|[k i] l IH]; [done|].
  rewrite !filter_cons. cbn [snd].
  destruct (decide (iface_device i = pk)) as [Hd|Hd].
  - destruct (mgmt_only i) eqn:Hm.
    + rewrite decide_False, decide_True by (rewrite ?Hm; intuition congruence).
      rewrite <- Permutation_middle. by constructor.
    + rewrite decide_True, decide_False by (rewrite ?Hm; intuition congruence).
      simpl. by constructor.
  - by rewrite !decide_False by intuition congruence.
Qed.

(** X17.  The page of a device, when it is shown: every interface of the
    device is listed exactly once, among the interfaces when it is not
    management-only and among the management interfaces when it is, and
    no interface of another device is listed; the four lists of ports
    hold the ports of the device and no other. *)
Theorem device_page_lists s pk ctx :
  DeviceView.device s pk = Page ctx ->
  ctx_interfaces ctx ++ ctx_mgmt_interfaces ctx
    ≡ₚ of_device iface_device pk (interfaces s) /\
  NoDup (ctx_interfaces ctx ++ ctx_mgmt_interfaces ctx) /\
  (forall k i,
     ((k, i) ∈ ctx_interfaces ctx <->
        interfaces s !! k = Some i /\ iface_device i = pk /\
        mgmt_only i = false) /\
     ((k, i) ∈ ctx_mgmt_interfaces ctx <->
        interfaces s !! k = Some i /\ iface_device i = pk /\
        mgmt_only i = true)) /\
  (forall k port,
     ((k, port) ∈ ctx_console_ports ctx <->
        console_ports s !! k = Some port /\ port_device port = pk) /\
     ((k, port) ∈ ctx_power_ports ctx <->
        power_ports s !! k = Some port /\ port_device port = pk)) /\
  (forall k outlet,
     ((k, outlet) ∈ ctx_cs_ports ctx <->
        cs_ports s !! k = Some outlet /\ outlet_device outlet = pk) /\
     ((k, outlet) ∈ ctx_power_outlets ctx <->
        power_outlets s !! k = Some outlet /\ outlet_device outlet = pk)).
Proof.
  unfold DeviceView.device. destruct (devices s !! pk) as [d|]; [|done].
  destruct (related_devices s pk d) as [related|e]; [|done].
  intros [= <-]. cbn [ctx_interfaces ctx_mgmt_interfaces ctx_console_ports
                      ctx_power_ports ctx_cs_ports ctx_power_outlets].
  split; [apply device_interfaces_split|]. split; [|split; [|split]].
  - rewrite device_interfaces_split. unfold of_device.
    apply NoDup_filter, NoDup_map_to_list.
  - intros k i. by rewrite !elem_of_device_interfaces.
  - intros k port. by rewrite !elem_of_of_device.
  - intros k outlet. by rewrite !elem_of_of_device.
Qed.

Lemma device_page_lists_witness :
  exists ctx,
    DeviceView.device sample_store 1 = Page ctx /\
    ctx_interfaces ctx ++ ctx_mgmt_interfaces ctx
      ≡ₚ of_device iface_device 1 (interfaces sample_store) /\
    length (ctx_console_ports ctx) = 2.
Proof.
  eexists. split; [reflexivity|]. split; [|reflexivity].
  apply (device_page_lists sample_store 1 _ eq_refl).
Defined.

Lemma related_devices_set_interfaces tbl s pk d :
  related_devices (set_interfaces tbl s) pk d = related_devices s pk d.
Proof. done. Qed.

(** X18.  The page of a device follows [interface_add].  After a
    successful creation of interfaces on a device whose page is shown, the
    page is still shown; each of the two lists holds what it held before
    and, for the list that goes with the [mgmt_only] flag of the form,
    the created interfaces, one for every name of the form; the lists of
    ports and the related devices are the same. *)
Theorem device_page_after_interface_add s pk ctx data :
  DeviceView.device s pk = Page ctx ->
  let r := interface_add s pk (AddPost (Some data)) in
  let listed c (mgmt : bool) :=
    if mgmt then ctx_mgmt_interfaces c else ctx_interfaces c in
  r.2 = Redirect success ->
  exists ctx',
    DeviceView.device r.1 pk = Page ctx' /\
    (forall mgmt k i,
       (k, i) ∈ listed ctx' mgmt <->
       (k, i) ∈ listed ctx mgmt \/
       (mgmt = icf_mgmt_only data /\ interfaces s !! k = None /\
        interfaces r.1 !! k = Some i /\
        exists name, name ∈ name_pattern data /\
          i = new_interface data pk name)) /\
    (forall name, name ∈ name_pattern data ->
       exists k, interfaces s !! k = None /\
         (k, new_interface data pk name) ∈ listed ctx' (icf_mgmt_only data)) /\
    ctx_console_ports ctx' = ctx_console_ports ctx /\
    ctx_cs_ports ctx' = ctx_cs_ports ctx /\
    ctx_power_ports ctx' = ctx_power_ports ctx /\
    ctx_power_outlets ctx' = ctx_power_outlets ctx /\
    ctx_related_devices ctx' = ctx_related_devices ctx.
Proof.
  intros Hpage r listed. unfold DeviceView.device in Hpage |- *.
  unfold interface_add in r.
  destruct (devices s !! pk) as [d|] eqn:Hd; [|done].
  destruct (related_devices s pk d) as [related|e] eqn:Hrel; [|done].
  injection Hpage as <-.
  pose proof (add_ports_outcome iface_device iface_name (interfaces s)
                (new_interface data) pk (name_pattern data)
                (faithful_new_interface data)) as (_ & Hins & _).
  subst r. destruct (add_ports _ _ _ _ _ _) as [tbl' resp].
  cbn [fst snd] in *. intros ->.
  destruct (Hins eq_refl) as (Hsub & _ & Hnew & Hall). clear Hins.
  cbn [devices set_interfaces]. rewrite Hd, related_devices_set_interfaces, Hrel.
  eexists. split; [reflexivity|].
  cbn [ctx_console_ports ctx_cs_ports ctx_power_ports ctx_power_outlets
       ctx_related_devices console_ports cs_ports power_ports power_outlets].
  split; [|split; [|done]].
  - assert (forall mgmt k i,
      (k, i) ∈ device_interfaces (set_interfaces tbl' s) pk mgmt <->
      (k, i) ∈ device_interfaces s pk mgmt \/
      (mgmt = icf_mgmt_only data /\ interfaces s !! k = None /\
       tbl' !! k = Some i /\
       exists name, name ∈ name_pattern data /\
         i = new_interface data pk name)) as Hlisted.
    { intros mgmt k i. rewrite !elem_of_device_interfaces.
      cbn [interfaces set_interfaces]. split.
      - intros (Hk & Hdev & Hm).
        destruct (interfaces s !! k) as [i'|] eqn:Hold.
        + left. pose proof (lookup_weaken _ _ _ _ Hold Hsub).
          assert (i' = i) as -> by congruence. done.
        + right. destruct (Hnew k i Hk Hold) as (d' & n & Hin & ->).
          apply elem_of_device_names in Hin
            as [->%list_elem_of_singleton Hin].
          split; [by rewrite <- Hm|]. split; [done|]. split; [done|].
          by exists n.
      - intros [(Hk & Hdev & Hm)|(-> & Hold & Hk & name & Hin & ->)].
        + split; [|done]. by apply (lookup_weaken _ _ _ _ Hk Hsub).
        + done. }
    intros [] k i; cbn [ctx_interfaces ctx_mgmt_interfaces]; apply Hlisted.
  - intros name Hin. destruct (Hall pk name) as (k & Hold & Hk).
    { apply elem_of_device_names. split; [apply list_elem_of_singleton|]; done. }
    exists k. split; [done|].
    assert ((k, new_interface data pk name)
              ∈ device_interfaces (set_interfaces tbl' s) pk
                  (icf_mgmt_only data)) as Hlisted.
    { by apply elem_of_device_interfaces. }
    unfold listed. by destruct (icf_mgmt_only data).
Qed.

Lemma device_page_after_interface_add_witness :
  let data := {| name_pattern := ["mgmt0"]; icf_form_factor := 0;
                 icf_mgmt_only := true; icf_description := "" |} in
  let r := interface_add sample_store 1 (AddPost (Some data)) in
  exists ctx',
    DeviceView.device r.1 1 = Page ctx' /\
    exists k, (k, new_interface data 1 "mgmt0") ∈ ctx_mgmt_interfaces ctx'.
Proof.
  intros data r.
  destruct (device_page_after_interface_add sample_store 1 _ data eq_refl
              eq_refl) as (ctx' & Hpage & _ & Hnew & _).
  exists ctx'. split; [exact Hpage|].
  destruct (Hnew "mgmt0") as (k & _ & Hk); [by left|]. by exists k.
Defined.

End DevicePage.

(** ** Racks *)

Module Racks.

#[local] Instance by_name_trans : Transitive by_name.
Proof. intros a b c. unfold by_name. apply transitivity. Qed.
#[local] Instance by_name_total : Total by_name.
Proof. intros a b. unfold by_name. apply (total String.le). Qed.
#[local] Instance by_name_desc_trans : Transitive by_name_desc.
Proof. intros a b c Hab Hbc. unfold by_name_desc in *. by etrans. Qed.
#[local] Instance by_name_desc_total : Total by_name_desc.
Proof. intros a b. unfold by_name_desc. apply (total String.le). Qed.

Section Head.
Context {A : Type} (R : relation A) `{!forall x y, Decision (R x y)}
  `{!Transitive R} `{!Total R}.

Lemma head_merge_sort_None (l : list A) :
  head (merge_sort R l) = None <-> l = [].
Proof.
  rewrite head_None. split.
  - intros Hnil. apply Permutation_nil_r. rewrite <- Hnil.
    by rewrite merge_sort_Permutation.
  - by intros ->.
Qed.

Lemma head_merge_sort_Some (l : list A) x :
  head (merge_sort R l) = Some x -> x ∈ l /\ forall y, y ∈ l -> R x y.
Proof.
  intros [l' Hl']%head_Some.
  pose proof (merge_sort_Permutation R l) as Hperm.
  pose proof (StronglySorted_merge_sort R l) as Hsorted.
  rewrite Hl' in Hperm, Hsorted. split.
  - rewrite <- Hperm. by left.
  - intros y Hy. rewrite <- Hperm in Hy.
    apply elem_of_cons in Hy as [->|Hy].
    + by destruct (total R x x).
    + apply StronglySorted_inv in Hsorted as [_ Hall].
      by apply (proj1 (Forall_forall _ _) Hall).
Qed.
End Head.


Lemma next_rack_Some racks rack k r :
  next_rack racks rack = Some (k, r) ->
  racks !! k = Some r /\ rack_site r = rack_site rack /\
  name_lt (rack_name rack) (rack_name r) /\
  forall k' r', racks !! k' = Some r' -> rack_site r' = rack_site rack ->
    name_lt (rack_name rack) (rack_name r') ->
    String.le (rack_name r) (rack_name r').
Proof.
  unfold next_rack. intros Hhead.
  apply (head_merge_sort_Some by_name) in Hhead as [Hin Hmin].
  apply list_elem_of_filter in Hin as [[Hsite Hlt] Hin%elem_of_map_to_list].
  repeat (split; [done|]). intros k' r' Hk' Hsite' Hlt'.
  apply (Hmin (k', r')). apply list_elem_of_filter. split; [done|].
  by apply elem_of_map_to_list.
Qed.

Lemma prev_rack_Some racks rack k r :
  prev_rack racks rack = Some (k, r) ->
  racks !! k = Some r /\ rack_site r = rack_site rack /\
  name_lt (rack_name r) (rack_name rack) /\
  forall k' r', racks !! k' = Some r' -> rack_site r' = rack_site rack ->
    name_lt (rack_name r') (rack_name rack) ->
    String.le (rack_name r') (rack_name r).
Proof.
  unfold prev_rack. intros Hhead.
  apply (head_merge_sort_Some by_name_desc) in Hhead as [Hin Hmax].
  apply list_elem_of_filter in Hin as [[Hsite Hlt] Hin%elem_of_map_to_list].
  repeat (split; [done|]). intros k' r' Hk' Hsite' Hlt'.
  apply (Hmax (k', r')). apply list_elem_of_filter. split; [done|].
  by apply elem_of_map_to_list.
Qed.

Lemma next_rack_None racks rack :
  next_rack racks rack = None <->
  forall k r, racks !! k = Some r -> rack_site r = rack_site rack ->
    ~ name_lt (rack_name rack) (rack_name r).
Proof.
  unfold next_rack. rewrite (head_merge_sort_None by_name). split.
  - intros Hnil k r Hk Hsite Hlt.
    assert ((k, r) ∈ filter
              (fun kv : nat * Rack => rack_site kv.2 = rack_site rack /\
                 name_lt (rack_name rack) (rack_name kv.2))
              (map_to_list racks)) as Hin.
    { apply list_elem_of_filter. split; [done|]. by apply elem_of_map_to_list. }
    rewrite Hnil in Hin. by apply elem_of_nil in Hin.
  - intros Hnone. apply elem_of_nil_inv. intros [k r] Hin.
    apply list_elem_of_filter in Hin as [[Hsite Hlt] Hin%elem_of_map_to_list].
    by apply (Hnone k r).
Qed.

Lemma prev_rack_None racks rack :
  prev_rack racks rack = None <->
  forall k r, racks !! k = Some r -> rack_site r = rack_site rack ->
    ~ name_lt (rack_name r) (rack_name rack).
Proof.
  unfold prev_rack. rewrite (head_merge_sort_None by_name_desc). split.
  - intros Hnil k r Hk Hsite Hlt.
    assert ((k, r) ∈ filter
              (fun kv : nat * Rack => rack_site kv.2 = rack_site rack /\
                 name_lt (rack_name kv.2) (rack_name rack))
              (map_to_list racks)) as Hin.
    { apply list_elem_of_filter. split; [done|]. by apply elem_of_map_to_list. }
    rewrite Hnil in Hin. by apply elem_of_nil in Hin.
  - intros Hnone. apply elem_of_nil_inv. intros [k r] Hin.
    apply list_elem_of_filter in Hin as [[Hsite Hlt] Hin%elem_of_map_to_list].
    by apply (Hnone k r).
Qed.

(** X19.  The neighbours shown on the page of a rack.  The next rack is a
    rack of the same site whose name comes strictly after the name of the
    rack, and no rack of the site has a name strictly between the two;
    there is no next rack exactly when no rack of the site has a name that
    comes after.  The same holds for the previous rack with the order
    reversed.  A rack is never its own neighbour. *)
Theorem rack_neighbours racks pk ctx :
  RackView.rack racks pk = Page ctx ->
  let rack := ctx_rack ctx in
  let in_site (r : Rack) := rack_site r = rack_site rack in
  racks !! pk = Some rack /\
  (ctx_next_rack ctx = None <->
     forall k r, racks !! k = Some r -> in_site r ->
       ~ name_lt (rack_name rack) (rack_name r)) /\
  (forall k r, ctx_next_rack ctx = Some (k, r) ->
     k <> pk /\ racks !! k = Some r /\ in_site r /\
     name_lt (rack_name rack) (rack_name r) /\
     forall k' r', racks !! k' = Some r' -> in_site r' ->
       ~ (name_lt (rack_name rack) (rack_name r') /\
          name_lt (rack_name r') (rack_name r))) /\
  (ctx_prev_rack ctx = None <->
     forall k r, racks !! k = Some r -> in_site r ->
       ~ name_lt (rack_name r) (rack_name rack)) /\
  (forall k r, ctx_prev_rack ctx = Some (k, r) ->
     k <> pk /\ racks !! k = Some r /\ in_site r /\
     name_lt (rack_name r) (rack_name rack) /\
     forall k' r', racks !! k' = Some r' -> in_site r' ->
       ~ (name_lt (rack_name r) (rack_name r') /\
          name_lt (rack_name r') (rack_name rack))).
Proof.
  unfold RackView.rack. destruct (racks !! pk) as [rack|] eqn:Hrack; [|done].
  intros [= <-]. cbn [ctx_rack ctx_next_rack ctx_prev_rack].
  split; [done|]. split; [apply next_rack_None|].
  split; [|split; [apply prev_rack_None|]].
  - intros k r (Hk & Hsite & Hlt & Hmin)%next_rack_Some.
    split; [|repeat (split; [done|])].
    + intros ->. destruct Hlt as [_ Hne]. congruence.
    + intros k' r' Hk' Hsite' [Hlt' [Hle Hne]].
      apply Hne. apply (anti_symm String.le); [done|]. by apply (Hmin k' r').
  - intros k r (Hk & Hsite & Hlt & Hmax)%prev_rack_Some.
    split; [|repeat (split; [done|])].
    + intros ->. destruct Hlt as [_ Hne]. congruence.
    + intros k' r' Hk' Hsite' [[Hle Hne] Hlt'].
      apply Hne. apply (anti_symm String.le); [done|]. by apply (Hmax k' r').
Qed.

Lemma rack_neighbours_witness :
  exists ctx,
    RackView.rack sample_racks 4 = Page ctx /\
    (ctx_next_rack ctx = None <->
       forall k r, sample_racks !! k = Some r ->
         rack_site r = rack_site (ctx_rack ctx) ->
         ~ name_lt (rack_name (ctx_rack ctx)) (rack_name r)) /\
    fst <$> ctx_next_rack ctx = Some 2 /\
    fst <$> ctx_prev_rack ctx = Some 1.
Proof.
  eexists. split; [reflexivity|]. split; [|split; reflexivity].
  apply (rack_neighbours sample_racks 4 _ eq_refl).
Defined.


(** X20.  Paging through the racks of a site goes back and forth: when
    no two racks of a site bear the same name, the previous rack of the
    next rack of a rack is the rack itself, and so is the next rack of its
    previous rack. *)
Theorem rack_next_then_prev racks pk rack :
  names_apart racks -> racks !! pk = Some rack ->
  (forall k r, next_rack racks rack = Some (k, r) ->
     prev_rack racks r = Some (pk, rack)) /\
  (forall k r, prev_rack racks rack = Some (k, r) ->
     next_rack racks r = Some (pk, rack)).
Proof.
  intros Hapart Hrack. split.
  - intros k r (Hk & Hsite & Hlt & Hmin)%next_rack_Some.
    destruct (prev_rack racks r) as [[k' r']|] eqn:Hprev.
    + apply prev_rack_Some in Hprev as (Hk' & Hsite' & Hlt' & Hmax).
      assert (String.le (rack_name rack) (rack_name r')) as Hle
        by (by apply (Hmax pk rack)).
      assert (rack_name r' = rack_name rack) as Hname.
      { destruct (decide (rack_name r' = rack_name rack)) as [|Hne]; [done|].
        exfalso. destruct Hlt' as [Hle' Hne']. apply Hne'.
        apply (anti_symm String.le); [done|].
        apply (Hmin k' r'); [done|congruence|]. split; [done|congruence]. }
      assert (k' = pk) as -> by (apply (Hapart k' pk r' rack); congruence).
      congruence.
    + exfalso. apply (proj1 (prev_rack_None racks r) Hprev pk rack); done.
  - intros k r (Hk & Hsite & Hlt & Hmax)%prev_rack_Some.
    destruct (next_rack racks r) as [[k' r']|] eqn:Hnext.
    + apply next_rack_Some in Hnext as (Hk' & Hsite' & Hlt' & Hmin).
      assert (String.le (rack_name r') (rack_name rack)) as Hle
        by (by apply (Hmin pk rack)).
      assert (rack_name r' = rack_name rack) as Hname.
      { destruct (decide (rack_name r' = rack_name rack)) as [|Hne]; [done|].
        exfalso. destruct Hlt' as [Hle' Hne']. apply Hne'.
        apply (anti_symm String.le); [done|].
        apply (Hmax k' r'); [done|congruence|]. by split. }
      assert (k' = pk) as -> by (apply (Hapart k' pk r' rack); congruence).
      congruence.
    + exfalso. apply (proj1 (next_rack_None racks r) Hnext pk rack); done.
Qed.

Lemma names_apart_alt racks :
  names_apart racks <->
  map_Forall (fun k1 r1 =>
    map_Forall (fun k2 r2 =>
      rack_site r1 = rack_site r2 -> rack_name r1 = rack_name r2 -> k1 = k2)
      racks) racks.
Proof.
  unfold names_apart, map_Forall. split.
  - intros Hapart k1 r1 H1 k2 r2 H2. by apply Hapart.
  - intros Hall k1 k2 r1 r2 H1 H2. by apply (Hall k1 r1 H1 k2 r2 H2).
Qed.

Lemma names_apart_sample : names_apart sample_racks.
Proof. apply names_apart_alt, (bool_decide_unpack _). by vm_compute. Qed.

Lemma rack_next_then_prev_witness :
  next_rack sample_racks
    {| rack_site := 1; rack_group := None; rack_name := "A01";
       u_height := 42; rack_comments := "" |}
    = Some (4, {| rack_site := 1; rack_group := Some 5; rack_name := "A02";
                  u_height := 48; rack_comments := "cage" |}) /\
  prev_rack sample_racks
    {| rack_site := 1; rack_group := Some 5; rack_name := "A02";
       u_height := 48; rack_comments := "cage" |}
    = Some (1, {| rack_site := 1; rack_group := None; rack_name := "A01";
                  u_height := 42; rack_comments := "" |}).
Proof.
  split; [reflexivity|].
  apply (proj1 (rack_next_then_prev sample_racks 1 _ names_apart_sample
                  eq_refl) 4).
  reflexivity.
Defined.

End Racks.

(** ** Bulk edits *)

Module BulkEdits.

Lemma rack_update_twice fields r :
  RackBulkEditView.update fields (RackBulkEditView.update fields r)
  = RackBulkEditView.update fields r.
Proof. destruct fields as [[] [] [] []], r; reflexivity. Qed.

Lemma rack_update_blank data r :
  rbe_site data = None -> rbe_group data = None ->
  true_number (rbe_u_height data) = None -> rbe_comments data = "" ->
  RackBulkEditView.update (RackBulkEditView.fields_to_update data) r = r.
Proof.
  destruct data, r. simpl. intros -> -> Hh ->.
  unfold RackBulkEditView.update, RackBulkEditView.fields_to_update.
  simpl. rewrite Hh. reflexivity.
Qed.

(** X21.  [RackBulkEditView.update_objects]: no rack is created or
    deleted; a rack that is not selected is left as it is; on a selected
    rack every field of the form that holds a true value is written and
    every other column, the name among them, is kept, so that the edit
    never empties the group or the comments of a rack and never sets a
    height of 0.  A form whose fields are all blank, a height of 0
    counting as blank, changes nothing; the same edit applied twice is the
    edit applied once; and an edit of two selections one after the other
    is the edit of their union. *)
Theorem rack_bulk_edit racks pk_list data :
  let racks' := RackBulkEditView.update_objects racks pk_list data in
  (forall pk, racks' !! pk = None <-> racks !! pk = None) /\
  (forall pk r, racks !! pk = Some r -> pk ∉ pk_list -> racks' !! pk = Some r) /\
  (forall pk r, racks !! pk = Some r -> pk ∈ pk_list ->
     exists r', racks' !! pk = Some r' /\
       rack_name r' = rack_name r /\
       rack_site r' = default (rack_site r) (rbe_site data) /\
       (rack_group r' =
          if rbe_group data is Some g then Some g else rack_group r) /\
       (u_height r' =
          if rbe_u_height data is Some (S n) then S n else u_height r) /\
       (rack_comments r' =
          if decide (rbe_comments data = "") then rack_comments r
          else rbe_comments data) /\
       (rack_group r <> None -> rack_group r' <> None) /\
       (rack_comments r <> "" -> rack_comments r' <> "") /\
       (u_height r <> 0 -> u_height r' <> 0)) /\
  (rbe_site data = None -> rbe_group data = None ->
   rbe_u_height data = None \/ rbe_u_height data = Some 0 ->
   rbe_comments data = "" -> racks' = racks) /\
  RackBulkEditView.update_objects racks' pk_list data = racks' /\
  (forall l1 l2,
     RackBulkEditView.update_objects
       (RackBulkEditView.update_objects racks l1 data) l2 data
     = RackBulkEditView.update_objects racks (l1 ++ l2) data).
Proof.
  intros racks'. unfold racks', RackBulkEditView.update_objects.
  split; [|split; [|split; [|split; [|split]]]].
  - intros pk. rewrite map_lookup_imap. by destruct (racks !! pk).
  - intros pk r Hr Hpk. rewrite map_lookup_imap, Hr. simpl.
    by rewrite decide_False.
  - intros pk r Hr Hpk. rewrite map_lookup_imap, Hr. simpl.
    rewrite decide_True by done. eexists. split; [reflexivity|].
    unfold RackBulkEditView.update, RackBulkEditView.fields_to_update.
    cbn [rack_name rack_site rack_group u_height rack_comments
         upd_site upd_group upd_u_height upd_comments].
    split; [done|]. split; [done|]. split; [done|].
    split; [by destruct (rbe_u_height data) as [[|n]|]|].
    split; [unfold true_string; by destruct (decide _)|].
    split; [by destruct (rbe_group data)|].
    split; [unfold true_string; by destruct (decide _)|].
    by destruct (rbe_u_height data) as [[|n]|].
  - intros Hsite Hgroup Hheight Hcomments. apply map_eq. intros pk.
    rewrite map_lookup_imap. destruct (racks !! pk) as [r|]; [|done]. simpl.
    destruct (decide _); [|done]. rewrite rack_update_blank; try done.
    by destruct Hheight as [-> | ->].
  - apply map_eq. intros pk. rewrite !map_lookup_imap.
    destruct (racks !! pk) as [r|]; [|done]. simpl.
    destruct (decide _); [|done]. by rewrite rack_update_twice.
  - intros l1 l2. apply map_eq. intros pk. rewrite !map_lookup_imap.
    destruct (racks !! pk) as [r|]; [|done]. simpl.
    destruct (decide (pk ∈ l1)) as [H1|H1], (decide (pk ∈ l2)) as [H2|H2];
      destruct (decide (pk ∈ l1 ++ l2)) as [H12|H12];
      rewrite ?rack_update_twice; try done;
      exfalso; rewrite elem_of_app in H12; tauto.
Qed.


Lemma device_update_twice fields d :
  DeviceBulkEditView.update fields (DeviceBulkEditView.update fields d)
  = DeviceBulkEditView.update fields d.
Proof. destruct fields as [[] [] [] [] [] []], d; reflexivity. Qed.

(** X22.  [DeviceBulkEditView.update_objects]: no device is created or
    deleted and a device that is not selected is left as it is.  On a
    selected device a chosen platform is written even when the removal of
    the platform is asked for as well; the platform is removed when its
    removal is asked for and no platform is chosen, and is kept otherwise;
    the status becomes true for the choice ['True'], false for any other
    choice that is not blank, and is kept for a blank choice; the serial
    number and the SNMP community are never emptied.  The same edit applied
    twice is the edit applied once, and an edit of two selections one after
    the other is the edit of their union. *)
Theorem device_bulk_edit rows pk_list data :
  let rows' := DeviceBulkEditView.update_objects rows pk_list data in
  (forall pk, rows' !! pk = None <-> rows !! pk = None) /\
  (forall pk d, rows !! pk = Some d -> pk ∉ pk_list -> rows' !! pk = Some d) /\
  (forall pk d, rows !! pk = Some d -> pk ∈ pk_list ->
     exists d', rows' !! pk = Some d' /\
       (forall platform, dbe_platform data = Some platform ->
          dc_platform d' = Some platform) /\
       (dbe_platform data = None -> dbe_platform_delete data = true ->
          dc_platform d' = None) /\
       (dbe_platform data = None -> dbe_platform_delete data = false ->
          dc_platform d' = dc_platform d) /\
       (dbe_status data = "" -> dc_status d' = dc_status d) /\
       (dbe_status data = "True" -> dc_status d' = true) /\
       (dbe_status data <> "" -> dbe_status data <> "True" ->
          dc_status d' = false) /\
       dc_device_type d' = default (dc_device_type d) (dbe_device_type data) /\
       dc_device_role d' = default (dc_device_role d) (dbe_device_role data) /\
       (dc_serial d <> "" -> dc_serial d' <> "") /\
       (dc_ro_snmp d <> "" -> dc_ro_snmp d' <> "")) /\
  DeviceBulkEditView.update_objects rows' pk_list data = rows' /\
  (forall l1 l2,
     DeviceBulkEditView.update_objects
       (DeviceBulkEditView.update_objects rows l1 data) l2 data
     = DeviceBulkEditView.update_objects rows (l1 ++ l2) data).
Proof.
  intros rows'. unfold rows', DeviceBulkEditView.update_objects.
  split; [|split; [|split; [|split]]].
  - intros pk. rewrite map_lookup_imap. by destruct (rows !! pk).
  - intros pk d Hd Hpk. rewrite map_lookup_imap, Hd. simpl.
    by rewrite decide_False.
  - intros pk d Hd Hpk. rewrite map_lookup_imap, Hd. simpl.
    rewrite decide_True by done. eexists. split; [reflexivity|].
    unfold DeviceBulkEditView.update, DeviceBulkEditView.fields_to_update.
    cbn [dc_platform dc_status dc_device_type dc_device_role dc_serial
         dc_ro_snmp upd_platform upd_status upd_device_type upd_device_role
         upd_serial upd_ro_snmp].
    split; [by intros platform ->|]. split; [by intros -> ->|].
    split; [by intros -> ->|]. split; [by intros ->|].
    split; [by intros ->|]. split.
    { intros Hblank Hne. unfold true_string.
      rewrite decide_False by done. simpl. by rewrite bool_decide_eq_false_2. }
    split; [done|]. split; [done|].
    split; unfold true_string; by destruct (decide _).
  - apply map_eq. intros pk. rewrite !map_lookup_imap.
    destruct (rows !! pk) as [d|]; [|done]. simpl.
    destruct (decide _); [|done]. by rewrite device_update_twice.
  - intros l1 l2. apply map_eq. intros pk. rewrite !map_lookup_imap.
    destruct (rows !! pk) as [d|]; [|done]. simpl.
    destruct (decide (pk ∈ l1)) as [H1|H1], (decide (pk ∈ l2)) as [H2|H2];
      destruct (decide (pk ∈ l1 ++ l2)) as [H12|H12];
      rewrite ?device_update_twice; try done;
      exfalso; rewrite elem_of_app in H12; tauto.
Qed.

End BulkEdits.

(** ** Batches named by a pattern *)

Module Batches.
Import Re Expander ExpanderMore Provisioning ProvisioningMore.

Lemma length_one_device device (names : list string) :
  length (device_names [device] names) = length names.
Proof.
  unfold device_names. cbn [mbind list_bind]. simpl.
  by rewrite app_nil_r, length_fmap.
Qed.

(** X23.  A batch of interfaces named by a template with one range is
    never refused by the store: [interface_add] creates the interfaces, one
    for every integer of the range, exactly when none of the names is
    taken on the device, and in every other case it leaves the store as it
    was and reports the names that are taken as duplicates. *)
Theorem interface_add_single_range s pk data lead x y lo hi :
  is_Some (devices s !! pk) ->
  re_search EXPANSION_PATTERN lead = None ->
  int x = Some lo -> int y = Some hi ->
  expand_pattern (lead +:+ bracket x y)
    = Some (Gen (name_pattern data) None) ->
  let r := interface_add s pk (AddPost (Some data)) in
  let existing := taken iface_device iface_name (interfaces s) pk in
  (r.2 = Redirect success <->
     forall i, (lo <= i <= hi)%N -> ~ existing (lead +:+ str i)) /\
  (r.2 = Redirect success ->
     size (interfaces r.1) = size (interfaces s) + N.to_nat (hi + 1 - lo)) /\
  (r.2 <> Redirect success ->
     r = (s, Render (Duplicate pk <$> filter existing (name_pattern data)))).
Proof.
  intros [d Hd] Hlead Hx Hy Hexp r existing. subst existing.
  rewrite (expand_single_range lead x y lo hi) in Hexp by done.
  injection Hexp as Hnames.
  assert (NoDup (name_pattern data)) as Hdup
    by (rewrite <- Hnames; apply NoDup_single_range).
  assert ((forall name, name ∈ name_pattern data -> ~ taken iface_device iface_name (interfaces s) pk name) <->
          (forall i, (lo <= i <= hi)%N -> ~ taken iface_device iface_name (interfaces s) pk
                 (lead +:+ str i)))
    as Hfree.
  { rewrite <- Hnames. split.
    - intros Hall i Hi. apply Hall, list_elem_of_fmap. exists i.
      split; [done|]. apply elem_of_range. lia.
    - intros Hall name (i & -> & Hi%elem_of_range)%list_elem_of_fmap.
      apply Hall. lia. }
  pose proof (add_ports_outcome iface_device iface_name (interfaces s)
                (new_interface data) pk (name_pattern data)
                (faithful_new_interface data)) as (Hok & Hins & Hsame).
  subst r. unfold interface_add. rewrite Hd.
  destruct (add_ports _ _ _ _ _ _) as [tbl' resp] eqn:Hadd.
  cbn [fst snd interfaces set_interfaces] in *.
  split; [|split].
  - rewrite Hok, Hfree. tauto.
  - intros Hsucc. destruct (Hins Hsucc) as (_ & -> & _).
    by rewrite length_one_device, <- Hnames, length_fmap, length_range.
  - intros Hfail.
    destruct (decide (Exists (taken iface_device iface_name (interfaces s) pk)
                        (name_pattern data)))
      as [Hcol%Exists_exists|Hnone%Forall_Exists_neg].
    + rewrite add_ports_collision in Hadd by done.
      injection Hadd as <- <-. by rewrite set_interfaces_id.
    + rewrite Forall_forall in Hnone. destruct Hfail. by apply Hok.
Qed.

Lemma interface_add_single_range_witness :
  let data := {| name_pattern := ["eth1"; "eth2"; "eth3"];
                 icf_form_factor := 0; icf_mgmt_only := false;
                 icf_description := "" |} in
  let r := interface_add sample_store 1 (AddPost (Some data)) in
  r.2 = Redirect success /\ size (interfaces r.1) = 4.
Proof.
  intros data r.
  assert (is_Some (devices sample_store !! 1)) as Hdev
    by (eexists; reflexivity).
  destruct (interface_add_single_range sample_store 1 data "eth" "1" "3" 1 3
              Hdev eq_refl eq_refl eq_refl eq_refl) as (_ & Hsize & _).
  split; [reflexivity|]. apply (Hsize eq_refl).
Defined.

End Batches.
